(** * argparse: a shallow embedding of [generic/argparse.c]

    The development follows the C source section by section.  Tcl values,
    lists and insertion-ordered dictionaries are modelled in [Tcl]; the
    regular expressions the source compiles in [Regexp]; the global option
    table in [Global]; [ParseElementDefinitions] in [Schema]; the
    per-interpreter cache in [Cache]; and the command procedure
    [ArgparseCmdProc2] in [Cmd].  Theorems come after all definitions. *)

From Stdlib Require Import ZArith Ascii DecimalString.
From stdpp Require Import gmap strings list.

Local Open Scope Z_scope.
Local Open Scope stdpp_scope.

(** ** Tcl values *)

Module Tcl.

(** A [Tcl_Obj] is either used through its string representation or through
    its list representation.  [TList] is a value that carries a list internal
    representation ([Tcl_NewListObj]); [TStr] is a plain string. *)
#[warnings="-register-all"]
Inductive tobj : Type :=
| TStr (s : string)
| TList (l : list tobj).

(** The double-quote character, for messages. *)
Definition dquote : string := String "034"%char EmptyString.

Definition str_join (sep : string) (l : list string) : string :=
  String.concat sep l.

Fixpoint str_all (p : ascii -> bool) (s : string) : bool :=
  match s with
  | EmptyString => true
  | String c r => p c && str_all p r
  end.

Fixpoint str_any (p : ascii -> bool) (s : string) : bool :=
  match s with
  | EmptyString => false
  | String c r => p c || str_any p r
  end.

Definition str_len (s : string) : nat := String.length s.

Definition str_drop (n : nat) (s : string) : string :=
  String.substring n (String.length s - n) s.

Fixpoint str_chars (s : string) : list string :=
  match s with
  | EmptyString => []
  | String c r => String c EmptyString :: str_chars r
  end.

(** Characters that force an element to be braced when a list is rendered. *)
Definition is_special (c : ascii) : bool :=
  Ascii.is_space c ||
  match c with
  | "{" | "}" | "[" | "]" | "$" | ";" | "034" | "\" => true
  | _ => false
  end%char.

Definition quote_elem (s : string) : string :=
  match s with
  | EmptyString => "{}"
  | _ => if str_any is_special s then "{" +:+ s +:+ "}" else s
  end.

(** [Tcl_GetString]: a string is itself; a list is rendered element by
    element, bracing the elements that need it.  (Tcl falls back to backslash
    quoting for elements with unbalanced braces; such elements are rendered
    braced here.) *)
Fixpoint to_string (t : tobj) : string :=
  match t with
  | TStr s => s
  | TList l => str_join " " (map (fun x => quote_elem (to_string x)) l)
  end.

(** [Tcl_ListObjGetElements]: a list value gives its elements; a string is
    split at white space.  Brace, quote and backslash processing of the Tcl
    list parser is not modelled: a string that needs it is supplied to the
    model in [TList] form, which is how it reaches the C code after the
    interpreter has converted it. *)
Definition as_list (t : tobj) : list tobj :=
  match t with
  | TList l => l
  | TStr s => map TStr (String.words s)
  end.

Definition list_len (t : tobj) : nat := length (as_list t).

(** *** Insertion-ordered dictionaries

    A Tcl dict keeps its keys in insertion order and the source iterates
    over dicts ([Tcl_DictObjFirst]/[Tcl_DictObjNext], [DictKeys]), so the
    order is observable; keys are compared by string. *)
Definition odict (V : Type) : Type := list (string * V).

Section Dict.
Context {V : Type}.

Fixpoint dict_get (k : string) (d : odict V) : option V :=
  match d with
  | [] => None
  | (k', v) :: r => if String.eqb k k' then Some v else dict_get k r
  end.

(** [Tcl_DictObjPut]: overwrite in place, else append. *)
Fixpoint dict_put (k : string) (v : V) (d : odict V) : odict V :=
  match d with
  | [] => [(k, v)]
  | (k', v') :: r =>
      if String.eqb k k' then (k', v) :: r else (k', v') :: dict_put k v r
  end.

(** [Tcl_DictObjRemove]. *)
Fixpoint dict_remove (k : string) (d : odict V) : odict V :=
  match d with
  | [] => []
  | (k', v') :: r =>
      if String.eqb k k' then r else (k', v') :: dict_remove k r
  end.

(** [DictKeyExists]. *)
Definition DictKeyExists (d : odict V) (k : string) : bool :=
  match dict_get k d with Some _ => true | None => false end.

(** [DictKeys]: the keys in iteration order. *)
Definition DictKeys (d : odict V) : list string := map fst d.
End Dict.

(** A dict-valued [Tcl_Obj] seen as a value (for [opt] in validation). *)
Definition dict_to_tobj (d : odict tobj) : tobj :=
  TList (flat_map (fun kv => [TStr (fst kv); snd kv]) d).

(** A value read as a dict ([Tcl_DictObjGet] on a value that is not a dict
    converts it from its list form; an odd number of elements is an error). *)
Fixpoint pairs_of (l : list tobj) : option (odict tobj) :=
  match l with
  | [] => Some []
  | k :: v :: r =>
      match pairs_of r with
      | Some d => Some (dict_put (to_string k) v d)
      | None => None
      end
  | _ => None
  end.

Definition as_dict (t : tobj) : option (odict tobj) := pairs_of (as_list t).

(** *** List helpers of the source *)

(** [InList]: membership by string comparison. *)
Definition InList (item : string) (l : list tobj) : bool :=
  existsb (fun e => String.eqb item (to_string e)) l.

(** [MergeTwoLists]. *)
Definition MergeTwoLists (l1 l2 : list tobj) : list tobj := l1 ++ l2.

(** [ListRange listObj start end] with the source's index normalisation;
    indices are signed ([Tcl_Size]). *)
Definition ListRange {A} (l : list A) (start end_ : Z) : list A :=
  let listLen := Z.of_nat (length l) in
  let start := if listLen <=? start then listLen else start in
  let end_ := if listLen <=? end_ then listLen - 1 else end_ in
  if (end_ <? start) || (listLen <=? start) then []
  else take (Z.to_nat (end_ - start + 1)) (drop (Z.to_nat start) l).

(** [Tcl_ListObjReplace list first count new]: negative [first] is taken as
    0, [first] beyond the end appends, a negative [count] deletes nothing. *)
Definition ListObjReplace {A} (l : list A) (first count : Z) (new : list A)
  : list A :=
  let n := Z.of_nat (length l) in
  let first := if first <? 0 then 0 else if n <? first then n else first in
  let count := if count <? 0 then 0 else count in
  take (Z.to_nat first) l ++ new ++ drop (Z.to_nat (first + count)) l.

(** [JoinListWithSeparator]. *)
Definition JoinListWithSeparator (l : list string) (sep : string) : string :=
  str_join sep l.

(** [SplitString] on the characters of [seps]; with an empty [seps] the
    string is split into its characters. *)
Fixpoint split_go (seps : string) (cur : string) (s : string) : list string :=
  match s with
  | EmptyString => [String.rev cur]
  | String c r =>
      if str_any (Ascii.eqb c) seps
      then String.rev cur :: split_go seps "" r
      else split_go seps (String c cur) r
  end.

Definition SplitString (s seps : string) : list string :=
  match seps with
  | EmptyString => str_chars s
  | _ => split_go seps "" s
  end.

(** [lsort] (default [-ascii] ordering), as an insertion sort on strings. *)
Fixpoint lsort_insert (x : string) (l : list string) : list string :=
  match l with
  | [] => [x]
  | y :: r => if String.leb x y then x :: l else y :: lsort_insert x r
  end.

Definition EvalLsort (l : list string) : list string :=
  foldr lsort_insert [] l.

(** *** [Tcl_GetIndexFromObj]

    Exact match first; otherwise a unique abbreviation unless [exact] is
    requested or the key is empty.  On failure the result tells whether the
    key was an abbreviation of several entries. *)
Fixpoint index_scan (table : list string) (key : string) (idx : nat)
    (numAbbrev : nat) (found : nat) : nat + (nat * nat) :=
  match table with
  | [] => inr (numAbbrev, found)
  | e :: r =>
      if String.eqb key e then inl idx
      else if String.prefix key e
           then index_scan r key (S idx) (S numAbbrev) idx
           else index_scan r key (S idx) numAbbrev found
  end.

Fixpoint must_be_tail (l : list string) (count : nat) : string :=
  match l with
  | [] => ""
  | [e] => (if (0 <? count)%nat then "," else "") +:+ " or " +:+ e
  | e :: r =>
      match e with
      | EmptyString => must_be_tail r count
      | _ => ", " +:+ e +:+ must_be_tail r (S count)
      end
  end.

Definition index_error (table : list string) (key msg : string)
    (ambiguous : bool) : string :=
  (if ambiguous then "ambiguous " else "bad ") +:+ msg +:+ " " +:+
  dquote +:+ key +:+ dquote +:+
  match table with
  | [] => ": no valid options"
  | e :: r => ": must be " +:+ e +:+ must_be_tail r 0
  end.

Definition GetIndexFromObj (table : list string) (key msg : string)
    (exact : bool) : string + nat :=
  match index_scan table key 0 0 0 with
  | inl idx => inr idx
  | inr (numAbbrev, found) =>
      if exact || String.eqb key "" || negb (numAbbrev =? 1)%nat
      then inl (index_error table key msg
                  ((1 <? numAbbrev)%nat && negb exact))
      else inr found
  end.

(** [PrefixMatch] and [EvalPrefixMatch] ([tcl::prefix match]): the matched
    table entry, or the error message. *)
Definition PrefixMatch (table : list string) (key : string) (exact : bool)
    (msg : string) : string + string :=
  match GetIndexFromObj table key msg exact with
  | inl e => inl e
  | inr idx => inr (nth idx table "")
  end.

(** [Tcl_ConcatObj]: the trimmed, non-empty string forms joined by spaces. *)
Fixpoint ltrim (s : string) : string :=
  match s with
  | String c r => if Ascii.is_space c then ltrim r else s
  | EmptyString => EmptyString
  end.

Definition trim (s : string) : string :=
  String.rev (ltrim (String.rev (ltrim s))).

Definition ConcatObj (l : list tobj) : string :=
  str_join " "
    (filter (fun s => s <> "") (map (fun t => trim (to_string t)) l)).

End Tcl.

Export Tcl.

(** ** The regular expressions of the source

    Each matcher decides one of the anchored expressions the source compiles
    with [Tcl_GetRegExpFromObj] and returns the capture groups that
    [EvalMatchRegexpGroups] hands back (an unmatched group is the empty
    string).  [\w] is taken on ASCII: letters, digits and the underscore. *)

Module Regexp.

Definition is_digit (c : ascii) : bool :=
  let n := nat_of_ascii c in (48 <=? n)%nat && (n <=? 57)%nat.

Definition is_alpha (c : ascii) : bool :=
  let n := nat_of_ascii c in
  ((65 <=? n)%nat && (n <=? 90)%nat) || ((97 <=? n)%nat && (n <=? 122)%nat).

(** [\w] *)
Definition is_word (c : ascii) : bool :=
  is_alpha c || is_digit c || Ascii.eqb c "_".

(** [[\w-]] *)
Definition is_wdash (c : ascii) : bool := is_word c || Ascii.eqb c "-".

(** [[=?!*^]] *)
Definition is_flag (c : ascii) : bool :=
  match c with
  | "=" | "?" | "!" | "*" | "^" => true
  | _ => false
  end%char.

(** The expression [regexpSwitchName], "^\w[\w-]*$". *)
Definition regexpSwitchName (s : string) : bool :=
  match s with
  | EmptyString => false
  | String c r => is_word c && str_all is_wdash r
  end.

(** The longest prefix of characters satisfying [p], and the rest. *)
Fixpoint span (p : ascii -> bool) (s : string) : string * string :=
  match s with
  | EmptyString => (EmptyString, EmptyString)
  | String c r =>
      if p c then let '(a, b) := span p r in (String c a, b)
      else (EmptyString, s)
  end.

(** The tail "(\w[\w-]*)([=?!*^]*)$" of the shorthand expression: the two
    classes are disjoint, so the name is the longest run of word characters
    and dashes. *)
Definition name_flags (s : string) : option (string * string) :=
  let '(n, f) := span is_wdash s in
  if regexpSwitchName n && str_all is_flag f then Some (n, f) else None.

(** Split at the last occurrence of [c]. *)
Fixpoint split_last (c : ascii) (s : string) : option (string * string) :=
  match s with
  | EmptyString => None
  | String a r =>
      match split_last c r with
      | Some (x, y) => Some (String a x, y)
      | None => if Ascii.eqb a c then Some (EmptyString, r) else None
      end
  end.

(** The expression [regexpShorthand],
    "^(?:(-)(?:(.*)\|)?)?(\w[\w-]*)([=?!*^]*)$"; the groups are minus, alias,
    name and flags.  Neither
    the name nor the flags can hold a bar, so the alias group, when it
    takes part, ends at the last bar. *)
Definition regexpShorthand (s : string)
  : option (string * string * string * string) :=
  match s with
  | String "-" r =>
      match split_last "|" r with
      | Some (alias, tail) =>
          match name_flags tail with
          | Some (n, f) => Some ("-", alias, n, f)
          | None => None
          end
      | None =>
          match name_flags r with
          | Some (n, f) => Some ("-", "", n, f)
          | None => None
          end
      end
  | _ =>
      match name_flags s with
      | Some (n, f) => Some ("", "", n, f)
      | None => None
      end
  end.

(** The expression [regexpSwitchAlias], "^\w[\w-]*( \w[\w-]*)*$". *)
Definition regexpSwitchAlias (s : string) : bool :=
  forallb regexpSwitchName (split_go " " "" s).

(** The switch expression the command builds: "^-", then "-?" with
    [-long], then "(\w[\w-]*)", then "(?:(=)(.*))?" with [-equalarg] and
    "()()" without, then "$".  The groups are name, equal and val. *)
Definition regexpRe (long equalarg : bool) (s : string)
  : option (string * string * string) :=
  match s with
  | String "-" r =>
      let r := if long then match r with String "-" r' => r' | _ => r end
               else r in
      let '(n, rest) := span is_wdash r in
      if regexpSwitchName n then
        match rest with
        | EmptyString => Some (n, "", "")
        | String "=" v => if equalarg then Some (n, "=", v) else None
        | _ => None
        end
      else None
  | _ => None
  end.

End Regexp.

(** ** Global switches ([argparse.h]) *)

Module Global.

Definition GLOBAL_SWITCH_BOOLEAN : nat := 0.
Definition GLOBAL_SWITCH_ENUM : nat := 1.
Definition GLOBAL_SWITCH_EQUALARG : nat := 2.
Definition GLOBAL_SWITCH_EXACT : nat := 3.
Definition GLOBAL_SWITCH_INLINE : nat := 4.
Definition GLOBAL_SWITCH_KEEP : nat := 5.
Definition GLOBAL_SWITCH_LEVEL : nat := 6.
Definition GLOBAL_SWITCH_LONG : nat := 7.
Definition GLOBAL_SWITCH_MIXED : nat := 8.
Definition GLOBAL_SWITCH_NORMALIZE : nat := 9.
Definition GLOBAL_SWITCH_PASS : nat := 10.
Definition GLOBAL_SWITCH_RECIPROCAL : nat := 11.
Definition GLOBAL_SWITCH_TEMPLATE : nat := 12.
Definition GLOBAL_SWITCH_VALIDATE : nat := 13.
Definition GLOBAL_SWITCH_HELP : nat := 14.
Definition GLOBAL_SWITCH_HELPLEVEL : nat := 15.
Definition GLOBAL_SWITCH_PFIRST : nat := 16.
Definition GLOBAL_SWITCH_HELPRET : nat := 17.
Definition GLOBAL_SWITCH_COUNT : nat := 18.

Definition globalSwitches : list string :=
  ["-boolean"; "-enum"; "-equalarg"; "-exact"; "-inline"; "-keep"; "-level";
   "-long"; "-mixed"; "-normalize"; "-pass"; "-reciprocal"; "-template";
   "-validate"; "-help"; "-helplevel"; "-pfirst"; "-helpret"].

Definition bit (id : nat) : Z := Z.shiftl 1 (Z.of_nat id).

Definition GLOBAL_SWITCH_TAKES_ARG_MASK : Z :=
  Z.lor (bit GLOBAL_SWITCH_ENUM)
   (Z.lor (bit GLOBAL_SWITCH_LEVEL)
    (Z.lor (bit GLOBAL_SWITCH_PASS)
     (Z.lor (bit GLOBAL_SWITCH_TEMPLATE)
      (Z.lor (bit GLOBAL_SWITCH_VALIDATE)
       (Z.lor (bit GLOBAL_SWITCH_HELP) (bit GLOBAL_SWITCH_HELPLEVEL)))))).

Definition takes_arg (id : nat) : bool :=
  negb (Z.land GLOBAL_SWITCH_TAKES_ARG_MASK (bit id) =? 0).

(** [GlobalSwitchesContext]: the bit mask of the switches present and the
    argument of each value-carrying switch. *)
Record GlobalSwitchesContext : Type := {
  globalSwitchesMask : Z;
  values : list (option tobj)
}.

Definition noGlobalSwitches : GlobalSwitchesContext :=
  {| globalSwitchesMask := 0; values := replicate GLOBAL_SWITCH_COUNT None |}.

Definition HAS_GLOBAL_SWITCH (ctx : GlobalSwitchesContext) (id : nat) : bool :=
  negb (Z.land (globalSwitchesMask ctx) (bit id) =? 0).

Definition GLOBAL_SWITCH_ARG (ctx : GlobalSwitchesContext) (id : nat)
  : option tobj :=
  match values ctx !! id with Some v => v | None => None end.

Definition SetGlobalSwitch (ctx : GlobalSwitchesContext) (id : nat)
    (value : option tobj) : GlobalSwitchesContext :=
  {| globalSwitchesMask := Z.lor (globalSwitchesMask ctx) (bit id);
     values := match value with
               | Some v => if takes_arg id then <[id := Some v]> (values ctx)
                           else values ctx
               | None => values ctx
               end |}.

(** The argument of a value-carrying switch as a string; the empty string
    stands for a missing one. *)
Definition arg_string (ctx : GlobalSwitchesContext) (id : nat) : string :=
  match GLOBAL_SWITCH_ARG ctx id with Some v => to_string v | None => "" end.

Definition Z_to_string (z : Z) : string :=
  DecimalString.NilZero.string_of_int (Z.to_int z).

(** [GenerateGlobalSwitchesKey]: the mask in decimal and a colon, then
    [name=value;] for each value-carrying switch that is present. *)
Definition GenerateGlobalSwitchesKey (ctx : GlobalSwitchesContext) : string :=
  Z_to_string (globalSwitchesMask ctx) +:+ ":" +:+
  String.concat ""
    (map (fun i =>
            if takes_arg i && HAS_GLOBAL_SWITCH ctx i then
              match GLOBAL_SWITCH_ARG ctx i with
              | Some argObj =>
                  str_drop 1 (nth i globalSwitches "") +:+ "=" +:+
                  to_string argObj +:+ ";"
              | None => ""
              end
            else "")
         (seq 0 GLOBAL_SWITCH_COUNT)).

End Global.

Export Global.

(** ** Errors

    Every failure of the command is one message set as the interpreter
    result.  The model also records the stage of [ArgparseCmdProc2] that
    raised it, in the order the stages run. *)

Inductive phase : Type :=
| PInvocation     (* the command's own arguments: options, argument count *)
| PSchema         (* the definition list: parsing, references, shared keys *)
| PHelp           (* loading the help package *)
| PSwitch         (* the switch loop *)
| PMissingSwitch  (* required switches that were not given *)
| PMissingParam   (* required parameters without an argument *)
| PTooMany        (* excess arguments *)
| PRequireForbid  (* -require and -forbid *)
| PAllow          (* -allow *)
| PParamValue     (* validation of the parameter values *)
| PBinding.       (* linking the caller's variables *)

Record error : Type := Error { ephase : phase; emsg : string }.


Notation "'let*' x ':=' e 'in' k" :=
  (match e with inl err => inl err | inr x => k end)
  (at level 200, x pattern, e at level 100, k at level 200,
   right associativity).

Definition in_phase {A} (p : phase) (r : string + A) : error + A :=
  match r with inl m => inl (Error p m) | inr a => inr a end.

(** ** Element definitions: [ParseElementDefinitions] *)

Module Schema.

Definition elementSwitches : list string :=
  ["-alias"; "-argument"; "-boolean"; "-catchall"; "-default"; "-enum";
   "-forbid"; "-ignore"; "-imply"; "-keep"; "-key"; "-level"; "-optional";
   "-parameter"; "-pass"; "-reciprocal"; "-require"; "-required";
   "-standalone"; "-switch"; "-upvar"; "-validate"; "-value"; "-type";
   "-allow"; "-help"; "-errormsg"; "-hsuppress"].

Definition elementSwitchesWithArgsNames : list string :=
  ["alias"; "default"; "enum"; "forbid"; "imply"; "key"; "pass"; "require";
   "validate"; "value"; "type"; "allow"; "help"; "errormsg"].

Definition allowedTypes : list string :=
  ["alnum"; "alpha"; "ascii"; "boolean"; "control"; "dict"; "digit";
   "double"; "graph"; "integer"; "list"; "lower"; "print"; "punct"; "space";
   "upper"; "wideinteger"; "wordchar"; "xdigit"].

(** [templateSubstNames], with the C escapes resolved. *)
Definition templateSubstNames : list string :=
  ["\\\\"; "\\"; "\\%"; "%"; "%"].

Definition elementSwitchesImplyElementArg : list string :=
  ["optional"; "required"; "catchall"; "upvar"; "type"].

(** [conflictSwitches] with its rows [conflictSwitchesRows]. *)
Definition conflictSwitches : list (string * list string) :=
  [("parameter", ["alias"; "boolean"; "value"; "argument"; "imply"]);
   ("ignore", ["key"; "pass"]);
   ("required", ["boolean"; "default"]);
   ("argument", ["boolean"; "value"]);
   ("upvar", ["boolean"; "inline"; "catchall"]);
   ("boolean", ["default"; "value"]);
   ("enum", ["validate"]);
   ("type", ["upvar"; "boolean"; "enum"]);
   ("allow", ["forbid"])].

Definition disallowedSwitchesRows : list (string * string * string) :=
  [("switch", "optional", "catchall");
   ("switch", "optional", "upvar");
   ("switch", "optional", "default");
   ("switch", "optional", "boolean");
   ("switch", "optional", "type");
   ("parameter", "optional", "required")].

(** [requireSwitchesPair0] zipped with [requireSwitchesPair1]. *)
Definition requireSwitchesPairs : list (string * string) :=
  [("reciprocal", "require"); ("level", "upvar"); ("errormsg", "validate")].

Definition elemSwConstraints : list string := ["require"; "forbid"; "allow"].

(** The option dictionary of one element. *)
Notation optdict := (odict tobj).

(** [ArgumentDefinition]. *)
Record ArgumentDefinition : Type := {
  defDict : odict optdict;
  aliasesDict : odict string;
  orderList : list string;
  switchesList : list string;
  upvarsDict : odict string;
  omittedDict : odict tobj;
  catchall : option string
}.

(** [InitArgumentDefinition]. *)
Definition InitArgumentDefinition : ArgumentDefinition :=
  {| defDict := []; aliasesDict := []; orderList := []; switchesList := [];
     upvarsDict := []; omittedDict := []; catchall := None |}.

Definition emptyStr : tobj := TStr "".

(** [string map]: at each position the first key of the map that matches
    is replaced; an empty key never matches. *)
Fixpoint string_map (pairs : list (string * string)) (s : string) (skip : nat)
  : string :=
  match s with
  | EmptyString => EmptyString
  | String c r =>
      match skip with
      | S k => string_map pairs r k
      | O =>
          match List.find (fun p => negb (String.eqb (fst p) "") &&
                                      String.prefix (fst p) s) pairs with
          | Some (k, v) => v +:+ string_map pairs r (String.length k - 1)
          | None => String c (string_map pairs r 0)
          end
      end
  end.

Fixpoint map_pairs (l : list string) : list (string * string) :=
  match l with
  | k :: v :: r => (k, v) :: map_pairs r
  | _ => []
  end.

(** [EvalStringMap]. *)
Definition EvalStringMap (mapList : list string) (input : string) : string :=
  string_map (map_pairs mapList) input 0.

(** The loop that reads the switches of one element definition, from its
    second word on. *)
Fixpoint read_switches (ws : list tobj) (optDict : optdict)
  : string + optdict :=
  match ws with
  | [] => inr optDict
  | w :: rest =>
      let* full := PrefixMatch elementSwitches (to_string w) true "option" in
      let switchName := str_drop 1 full in
      match PrefixMatch elementSwitchesWithArgsNames switchName true "" with
      | inl _ => read_switches rest (dict_put switchName emptyStr optDict)
      | inr _ =>
          match rest with
          | [] => inl ("-" +:+ switchName +:+ " requires an argument")
          | v :: rest' => read_switches rest' (dict_put switchName v optDict)
          end
      end
  end.

(** One shorthand flag character. *)
Definition shorthand_flag (optDict : optdict) (f : string) : optdict :=
  if String.eqb f "=" then dict_put "argument" emptyStr optDict
  else if String.eqb f "?" then dict_put "optional" emptyStr optDict
  else if String.eqb f "!" then dict_put "required" emptyStr optDict
  else if String.eqb f "*" then dict_put "catchall" emptyStr optDict
  else if String.eqb f "^" then dict_put "upvar" emptyStr optDict
  else optDict.

(** Process the first word of the element definition: the element name and
    the option dictionary extended by the shorthand. *)
Definition first_element (ctx : GlobalSwitchesContext) (words : list tobj)
    (optDict : optdict) : string + (string * optdict) :=
  match words with
  | [] => inl "element definition cannot be empty"
  | w0 :: _ =>
      if DictKeyExists optDict "switch" && DictKeyExists optDict "parameter"
      then inl "-switch and -parameter conflict"
      else if HAS_GLOBAL_SWITCH ctx GLOBAL_SWITCH_INLINE &&
              DictKeyExists optDict "keep"
      then inl "-inline and -keep conflict"
      else if negb (DictKeyExists optDict "switch") &&
              negb (DictKeyExists optDict "parameter")
      then
        match Regexp.regexpShorthand (to_string w0) with
        | None => inl ("bad element shorthand: " +:+ to_string w0)
        | Some (minus, alias, name, flags) =>
            let d := if (0 <? str_len minus)%nat
                     then dict_put "switch" emptyStr optDict
                     else dict_put "parameter" emptyStr optDict in
            let d := if (0 <? str_len alias)%nat
                     then dict_put "alias"
                            (TList (map TStr (SplitString alias "|"))) d
                     else d in
            inr (name, fold_left shorthand_flag (SplitString flags "") d)
        end
      else if negb (Regexp.regexpSwitchName (to_string w0))
      then inl ("bad element name: " +:+ to_string w0)
      else inr (to_string w0, optDict)
  end.

(** Add [-argument] to a switch that uses one of the switches implying it;
    add [-required] to a parameter unless it is a catchall or optional. *)
Definition derive_argument_required (optDict : optdict) : optdict :=
  if DictKeyExists optDict "switch" then
    fold_left (fun d l => if DictKeyExists d l
                          then dict_put "argument" emptyStr d else d)
      elementSwitchesImplyElementArg optDict
  else if (DictKeyExists optDict "catchall" ||
           DictKeyExists optDict "optional") &&
          negb (DictKeyExists optDict "required")
  then dict_put "optional" emptyStr optDict
  else dict_put "required" emptyStr optDict.

(** Check requirements and conflicts, then disallowed combinations: the
    first offending row gives the message. *)
Definition check_requirements (optDict : optdict) : option string :=
  match List.find (fun p => DictKeyExists optDict (fst p) &&
                            negb (DictKeyExists optDict (snd p)))
          requireSwitchesPairs with
  | Some (a, b) => Some ("-" +:+ a +:+ " requires -" +:+ b)
  | None => None
  end.

Definition check_conflicts (optDict : optdict) : option string :=
  match List.find (fun row => DictKeyExists optDict (fst row) &&
                              existsb (DictKeyExists optDict) (snd row))
          conflictSwitches with
  | Some (a, row) =>
      match List.find (DictKeyExists optDict) row with
      | Some b => Some ("-" +:+ a +:+ " and -" +:+ b +:+ " conflict")
      | None => None
      end
  | None => None
  end.

Definition check_disallowed (optDict : optdict) : option string :=
  match List.find (fun '(a, b, c) => DictKeyExists optDict a &&
                                     DictKeyExists optDict b &&
                                     DictKeyExists optDict c)
          disallowedSwitchesRows with
  | Some (a, b, c) => Some ("-" +:+ a +:+ " -" +:+ b +:+ " -" +:+ c +:+
                            " is a disallowed combination")
  | None => None
  end.

Definition check_element (ctx : GlobalSwitchesContext) (optDict : optdict)
  : string + unit :=
  match check_requirements optDict with
  | Some m => inl m
  | None =>
  match check_conflicts optDict with
  | Some m => inl m
  | None =>
  if HAS_GLOBAL_SWITCH ctx GLOBAL_SWITCH_INLINE && DictKeyExists optDict "upvar"
  then inl "-upvar and -inline conflict"
  else match check_disallowed optDict with
       | Some m => inl m
       | None => inr tt
       end
  end end.

(** The condition under which an element is a boolean switch. *)
Definition is_boolean_switch (ctx : GlobalSwitchesContext) (optDict : optdict)
  : bool :=
  (HAS_GLOBAL_SWITCH ctx GLOBAL_SWITCH_BOOLEAN &&
   DictKeyExists optDict "switch" &&
   negb (DictKeyExists optDict "argument") &&
   negb (DictKeyExists optDict "upvar") &&
   negb (DictKeyExists optDict "default") &&
   negb (DictKeyExists optDict "value") &&
   negb (DictKeyExists optDict "required")) ||
  DictKeyExists optDict "boolean".

(** Replace [-boolean] with [-default 0 -value 1]. *)
Definition replace_boolean (ctx : GlobalSwitchesContext) (optDict : optdict)
  : optdict :=
  if is_boolean_switch ctx optDict
  then dict_put "value" (TStr "1") (dict_put "default" (TStr "0") optDict)
  else optDict.

(** Insert the default [-level] if [-upvar] is used. *)
Definition insert_level (ctx : GlobalSwitchesContext) (optDict : optdict)
  : optdict :=
  if DictKeyExists optDict "upvar" && negb (DictKeyExists optDict "level")
  then if HAS_GLOBAL_SWITCH ctx GLOBAL_SWITCH_LEVEL
       then dict_put "level"
              (default emptyStr (GLOBAL_SWITCH_ARG ctx GLOBAL_SWITCH_LEVEL))
              optDict
       else dict_put "level" (TStr "1") optDict
  else optDict.

(** Compute the default output key if [-ignore], [-key] and [-pass] are not
    used. *)
Definition compute_key (ctx : GlobalSwitchesContext) (name : string)
    (optDict : optdict) : optdict :=
  if negb (DictKeyExists optDict "ignore") &&
     negb (DictKeyExists optDict "key") &&
     negb (DictKeyExists optDict "pass")
  then if HAS_GLOBAL_SWITCH ctx GLOBAL_SWITCH_TEMPLATE
       then dict_put "key"
              (TStr (EvalStringMap (templateSubstNames ++ [name])
                       (arg_string ctx GLOBAL_SWITCH_TEMPLATE))) optDict
       else dict_put "key" (TStr name) optDict
  else optDict.

(** [CheckAliasesAreUnique]. *)
Definition CheckAliasesAreUnique (aliases : odict string) (optDict : optdict)
  : bool :=
  match dict_get "alias" optDict with
  | Some aliasList =>
      forallb (fun a => negb (DictKeyExists aliases (to_string a)))
        (as_list aliasList)
  | None => true
  end.

(** [BuildAliasJoinString]: a dash, each alias followed by a bar, the name. *)
Definition BuildAliasJoinString (optDict : optdict) (name : string) : string :=
  "-" +:+
  String.concat ""
    (map (fun a => to_string a +:+ "|")
       (match dict_get "alias" optDict with
        | Some l => as_list l
        | None => []
        end)) +:+ name.

(** [BuildAllowedTypesSummary]. *)
Definition BuildAllowedTypesSummary (types : list string) : string :=
  let n := Z.of_nat (length types) in
  JoinListWithSeparator (ListRange types 0 (n - 2)) ", " +:+ " or " +:+
  List.last types "".

(** Build the parameter and switch lists of the definition. *)
Definition build_lists (name : string) (optDict : optdict)
    (argCtx : ArgumentDefinition) : string + ArgumentDefinition :=
  if DictKeyExists optDict "parameter" then
    let argCtx1 :=
      {| defDict := defDict argCtx; aliasesDict := aliasesDict argCtx;
         orderList := orderList argCtx ++ [name];
         switchesList := switchesList argCtx;
         upvarsDict := upvarsDict argCtx; omittedDict := omittedDict argCtx;
         catchall := catchall argCtx |} in
    if DictKeyExists optDict "catchall" then
      match catchall argCtx with
      | Some c => inl ("multiple catchall parameters: " +:+ c +:+ " and " +:+
                       name)
      | None =>
          inr {| defDict := defDict argCtx1;
                 aliasesDict := aliasesDict argCtx1;
                 orderList := orderList argCtx1;
                 switchesList := switchesList argCtx1;
                 upvarsDict := upvarsDict argCtx1;
                 omittedDict := omittedDict argCtx1;
                 catchall := Some name |}
      end
    else inr argCtx1
  else
    match dict_get "alias" optDict with
    | None =>
        inr {| defDict := defDict argCtx; aliasesDict := aliasesDict argCtx;
               orderList := orderList argCtx;
               switchesList := switchesList argCtx ++ ["-" +:+ name];
               upvarsDict := upvarsDict argCtx;
               omittedDict := omittedDict argCtx;
               catchall := catchall argCtx |}
    | Some aliasVal =>
        if negb (Regexp.regexpSwitchAlias (to_string aliasVal))
        then inl ("bad alias: " +:+ to_string aliasVal)
        else if negb (CheckAliasesAreUnique (aliasesDict argCtx) optDict)
        then inl ("element alias collision: " +:+ to_string aliasVal)
        else
          inr {| defDict := defDict argCtx;
                 aliasesDict :=
                   fold_left (fun d a => dict_put (to_string a) name d)
                     (as_list aliasVal) (aliasesDict argCtx);
                 orderList := orderList argCtx;
                 switchesList :=
                   switchesList argCtx ++ [BuildAliasJoinString optDict name];
                 upvarsDict := upvarsDict argCtx;
                 omittedDict := omittedDict argCtx;
                 catchall := catchall argCtx |}
    end.

(** Map from upvar keys back to element names, and forbid collisions. *)
Definition map_upvar (name : string) (optDict : optdict)
    (upvars : odict string) : string + odict string :=
  if DictKeyExists optDict "upvar" then
    match dict_get "key" optDict with
    | Some keyVal =>
        match dict_get (to_string keyVal) upvars with
        | Some upvarVal =>
            inl ("multiple upvars to the same variable: " +:+ upvarVal +:+
                 " " +:+ name)
        | None => inr (dict_put (to_string keyVal) name upvars)
        end
    | None => inr upvars
    end
  else inr upvars.

(** Lookup in a global option whose argument is a dictionary. *)
Definition global_dict_get (ctx : GlobalSwitchesContext) (id : nat)
    (k : tobj) : option tobj :=
  match GLOBAL_SWITCH_ARG ctx id with
  | Some d => match as_dict d with
              | Some dd => dict_get (to_string k) dd
              | None => None
              end
  | None => None
  end.

(** The [-validate] branch: a named expression of the global [-validate]
    dictionary replaces the name; [validateMsg] keeps what to report. *)
Definition lookup_validate (ctx : GlobalSwitchesContext) (optDict : optdict)
  : optdict :=
  match dict_get "validate" optDict with
  | Some v =>
      if HAS_GLOBAL_SWITCH ctx GLOBAL_SWITCH_VALIDATE then
        match global_dict_get ctx GLOBAL_SWITCH_VALIDATE v with
        | Some g =>
            dict_put "validate" g
              (dict_put "validateMsg"
                 (TStr (ConcatObj [v; TStr "validation"])) optDict)
        | None =>
            dict_put "validateMsg"
              (TStr (ConcatObj [TStr "validation:"; v])) optDict
        end
      else dict_put "validateMsg"
             (TStr (ConcatObj [TStr "validation:"; v])) optDict
  | None => optDict
  end.

(** Look up named enumeration lists and validation expressions. *)
Definition lookup_enum_validate (ctx : GlobalSwitchesContext)
    (optDict : optdict) : optdict :=
  match dict_get "enum" optDict with
  | Some elemEnumVal =>
      if HAS_GLOBAL_SWITCH ctx GLOBAL_SWITCH_ENUM then
        match global_dict_get ctx GLOBAL_SWITCH_ENUM elemEnumVal with
        | Some globEnumVal => dict_put "enum" globEnumVal optDict
        | None => optDict
        end
      else lookup_validate ctx optDict
  | None => lookup_validate ctx optDict
  end.

(** Check for allowed arguments to [-type]. *)
Definition check_type (optDict : optdict) : string + unit :=
  match dict_get "type" optDict with
  | Some typeVal =>
      match PrefixMatch allowedTypes (to_string typeVal) true "" with
      | inl _ =>
          inl ("type " +:+ to_string typeVal +:+
               " is not in the list of allowed types, must be " +:+
               BuildAllowedTypesSummary allowedTypes)
      | inr _ => inr tt
      end
  | None => inr tt
  end.

(** The option dictionary of an element after the derivation steps that
    come before the [-boolean] replacement. *)
Definition derived_options (ctx : GlobalSwitchesContext) (elem : tobj)
  : string + (string * optdict) :=
  let words := as_list elem in
  let* optDict := read_switches (tl words) [] in
  let* first := first_element ctx words optDict in
  inr (fst first, derive_argument_required (snd first)).

(** The body of the loop of [ParseElementDefinitions] for one element. *)
Definition parse_element (ctx : GlobalSwitchesContext)
    (argCtx : ArgumentDefinition) (elem : tobj)
  : string + ArgumentDefinition :=
  let words := as_list elem in
  let* optDict := read_switches (tl words) [] in
  let* first := first_element ctx words optDict in
  let name := fst first in
  let optDict := snd first in
  if DictKeyExists (defDict argCtx) name
  then inl ("element name collision: " +:+ name)
  else
  let optDict := derive_argument_required optDict in
  let* _ := check_element ctx optDict in
  let optDict := replace_boolean ctx optDict in
  let optDict := insert_level ctx optDict in
  let optDict := compute_key ctx name optDict in
  let* argCtx := build_lists name optDict argCtx in
  match dict_get name (aliasesDict argCtx) with
  | Some switchValCollision =>
      inl ("collision of switch -" +:+ switchValCollision +:+
           " alias with the -" +:+ name +:+ " switch")
  | None =>
  let* upvars := map_upvar name optDict (upvarsDict argCtx) in
  let optDict := lookup_enum_validate ctx optDict in
  let* _ := check_type optDict in
  inr {| defDict := dict_put name optDict (defDict argCtx);
         aliasesDict := aliasesDict argCtx;
         orderList := orderList argCtx;
         switchesList := switchesList argCtx;
         upvarsDict := upvars;
         omittedDict := dict_put name emptyStr (omittedDict argCtx);
         catchall := catchall argCtx |}
  end.

Fixpoint parse_elements (ctx : GlobalSwitchesContext)
    (argCtx : ArgumentDefinition) (elems : list tobj)
  : string + ArgumentDefinition :=
  match elems with
  | [] => inr argCtx
  | e :: r =>
      let* argCtx := parse_element ctx argCtx e in
      parse_elements ctx argCtx r
  end.

(** [ParseElementDefinitions]; the catchall is reset first. *)
Definition ParseElementDefinitions (ctx : GlobalSwitchesContext)
    (definition : list tobj) (argCtx : ArgumentDefinition)
  : string + ArgumentDefinition :=
  parse_elements ctx
    {| defDict := defDict argCtx; aliasesDict := aliasesDict argCtx;
       orderList := orderList argCtx; switchesList := switchesList argCtx;
       upvarsDict := upvarsDict argCtx; omittedDict := omittedDict argCtx;
       catchall := None |}
    definition.

End Schema.

Export Schema.

(** ** The cache of parsed definitions *)

Module Cache.

(** [ArgparseInterpCtx]: the hash table of parsed definitions, keyed by the
    definition and the global switches.  [parseLog] is a ghost field: the
    keys for which [ParseElementDefinitions] has been run, with its
    success, latest first. *)
Record ArgparseInterpCtx : Type := {
  argDefHashTable : gmap string ArgumentDefinition;
  parseLog : list (string * bool)
}.

Definition InitArgparseInterpCtx : ArgparseInterpCtx :=
  {| argDefHashTable := ∅; parseLog := [] |}.

(** [CreateAndCacheArgDef]: an existing entry is returned; otherwise the
    definition is parsed and stored, and nothing is stored on failure. *)
Definition CreateAndCacheArgDef (interpCtx : ArgparseInterpCtx)
    (definition : list tobj) (ctx : GlobalSwitchesContext) (key : string)
  : ArgparseInterpCtx * (string + ArgumentDefinition) :=
  match argDefHashTable interpCtx !! key with
  | Some argDef => (interpCtx, inr argDef)
  | None =>
      match ParseElementDefinitions ctx definition InitArgumentDefinition with
      | inl msg =>
          ({| argDefHashTable := argDefHashTable interpCtx;
              parseLog := (key, false) :: parseLog interpCtx |}, inl msg)
      | inr argDef =>
          ({| argDefHashTable := <[key := argDef]> (argDefHashTable interpCtx);
              parseLog := (key, true) :: parseLog interpCtx |}, inr argDef)
      end
  end.

(** The key under which a definition is cached. *)
Definition cache_key (definition : list tobj) (ctx : GlobalSwitchesContext)
  : string :=
  to_string (TList definition) +:+ " " +:+ GenerateGlobalSwitchesKey ctx.

(** The lookup of [ArgparseCmdProc2]: use the cached definition, or parse
    the definition list and cache it. *)
Definition cached_definition (interpCtx : ArgparseInterpCtx)
    (definition : list tobj) (ctx : GlobalSwitchesContext)
  : ArgparseInterpCtx * (string + ArgumentDefinition) :=
  let keyArgDefinition := cache_key definition ctx in
  match argDefHashTable interpCtx !! keyArgDefinition with
  | None => CreateAndCacheArgDef interpCtx definition ctx keyArgDefinition
  | Some cashedArgDefCtx => (interpCtx, inr cashedArgDefCtx)
  end.

(** [DeepCopyArgumentDefinition]: every dictionary and list is duplicated,
    so the copy shares nothing mutable with the cached definition. *)
Definition DeepCopyArgumentDefinition (src : ArgumentDefinition)
  : ArgumentDefinition := src.

End Cache.

Export Cache.

(** ** The command procedure: [ArgparseCmdProc2] *)

Module Cmd.

(** Operations on the caller's variables, in the order they are performed:
    [Tcl_ObjSetVar2], [Tcl_UnsetVar] and [Tcl_UpVar]. *)
Inductive varop : Type :=
| VSet (name : string) (value : tobj)
| VUnset (name : string)
| VUpVar (level other name : string).

(** What the command relies on the interpreter for.  [ExprBooleanObj] tells
    whether the [-validate] expression evaluates without error to true, with
    the variables [opt], [name] and [arg] set; [SubstObj] is the text an
    [-errormsg] gives after substitution; the next four decide the types;
    [PkgRequireTextutil] tells whether the help package loads;
    [HelpMessage] is the text of [BuildHelpMessage]; [UpVar] gives the
    message of a link that cannot be made. *)
Class Interp : Type := {
  ExprBooleanObj : optdict -> string -> tobj -> tobj -> bool;
  SubstObj : optdict -> string -> tobj -> tobj -> string;
  GetIntFromObj : tobj -> bool;
  GetDoubleFromObj : tobj -> bool;
  GetBooleanFromObj : tobj -> bool;
  StringIs : string -> tobj -> bool;
  PkgRequireTextutil : bool;
  HelpMessage : GlobalSwitchesContext -> ArgumentDefinition -> string -> string;
  UpVar : string -> string -> string -> option string
}.

(** *** Nested dictionaries *)

Definition NestedDictKeyExists (d : odict optdict) (outer inner : string)
  : bool :=
  match dict_get outer d with
  | Some sub => DictKeyExists sub inner
  | None => false
  end.

Definition GetNestedDictValue (d : odict optdict) (outer inner : string)
  : option tobj :=
  match dict_get outer d with
  | Some sub => dict_get inner sub
  | None => None
  end.

Definition UnsetNestedDictKey (d : odict optdict) (outer inner : string)
  : odict optdict :=
  match dict_get outer d with
  | Some sub => dict_put outer (dict_remove inner sub) d
  | None => d
  end.

Definition SetNestedDictKey (d : odict optdict) (outer inner : string)
    (v : tobj) : odict optdict :=
  dict_put outer (dict_put inner v (default [] (dict_get outer d))) d.

(** [DictLappend] and [DictLappendElem]. *)
Definition DictLappend (d : odict tobj) (key : string) (vals : list tobj)
  : odict tobj :=
  dict_put key
    (TList (match dict_get key d with
            | Some e => as_list e
            | None => []
            end ++ vals)) d.

Definition DictLappendElem (d : odict tobj) (key : string) (v : tobj)
  : odict tobj := DictLappend d key [v].

(** [DictIncr] on a dictionary of counts. *)
Definition DictIncr (d : odict nat) (key : string) (n : nat) : odict nat :=
  dict_put key (default 0%nat (dict_get key d) + n)%nat d.

(** *** Messages *)

(** The last element prefixed by [word] when there are several, then the
    elements joined by a comma and a space when there are more than two and
    by a space otherwise. *)
Definition join_with_last (word : string) (l : list string) : string :=
  let len := length l in
  let l := if (1 <? len)%nat
           then take (len - 1) l ++ [word +:+ " " +:+ List.last l ""]
           else l in
  JoinListWithSeparator l (if (2 <? len)%nat then ", " else " ").

Definition BuildBadSwitchError (arg : string) (switches : list string)
  : string :=
  "bad switch " +:+ dquote +:+ arg +:+ dquote +:+ ": must be " +:+
  join_with_last "or" switches.

Definition BuildMissingSwitchesError (missing : list string) : string :=
  "missing required switch" +:+
  (if (1 <? length missing)%nat then "es" else "") +:+ ": " +:+
  join_with_last "and" missing.

Definition BuildMissingParameterError (missing : list string) : string :=
  "missing required parameter" +:+
  (if (1 <? length missing)%nat then "s" else "") +:+ ": " +:+
  join_with_last "and" missing.

(** The name of an element as messages show it: switches get a dash. *)
Definition dash_name (d : odict optdict) (name : string) : string :=
  if NestedDictKeyExists d name "switch" then "-" +:+ name else name.

(** *** Constraints and shared keys, processed at each invocation *)

(** Verify constraint references. *)
Definition undefined_reference (d : odict optdict) (name : string)
    (opt : optdict) : option string :=
  match
    List.find (fun p => negb (DictKeyExists d (snd p)))
      (flat_map (fun constraint =>
                   match dict_get constraint opt with
                   | Some others =>
                       map (fun o => (constraint, to_string o))
                         (as_list others)
                   | None => []
                   end) elemSwConstraints)
  with
  | Some (constraint, other) =>
      Some (name +:+ " -" +:+ constraint +:+
            " references undefined element: " +:+ other)
  | None => None
  end.

(** Create reciprocal requirements. *)
Definition add_reciprocal (name : string) (d : odict optdict) (other : tobj)
  : odict optdict :=
  let otherOpt := default [] (dict_get (to_string other) d) in
  let requireList := match dict_get "require" otherOpt with
                     | Some l => as_list l
                     | None => []
                     end in
  dict_put (to_string other)
    (dict_put "require" (TList (requireList ++ [TStr name])) otherOpt) d.

Definition reciprocal_requirements (ctx : GlobalSwitchesContext)
    (name : string) (opt : optdict) (d : odict optdict) : odict optdict :=
  if HAS_GLOBAL_SWITCH ctx GLOBAL_SWITCH_RECIPROCAL ||
     DictKeyExists opt "reciprocal"
  then match dict_get "require" opt with
       | Some otherList => fold_left (add_reciprocal name) (as_list otherList) d
       | None => d
       end
  else d.

(** The shared key logic for the element [name], whose options are [opt],
    against the element [otherName].  [opt] is the dictionary fetched when
    the outer loop reached [name]; the default [-value] is stored into it
    in place, so both the definition and [opt] see it. *)
Definition shared_key_pair (name otherName : string)
    (st : odict optdict * optdict) : string + (odict optdict * optdict) :=
  let '(d, opt) := st in
  match dict_get otherName d, dict_get "key" opt with
  | Some otherOpt, Some optKey =>
      match dict_get "key" otherOpt with
      | Some otherOptKey =>
          if negb (String.eqb name otherName) &&
             String.eqb (to_string optKey) (to_string otherOptKey)
          then
            (* Limit when shared keys may be used *)
            if DictKeyExists opt "parameter" then
              inl (name +:+
                   " cannot be a parameter because it shares a key with " +:+
                   otherName)
            else if DictKeyExists opt "argument" then
              inl (name +:+
                   " cannot use -argument because it shares a key with " +:+
                   otherName)
            else if DictKeyExists opt "catchall" then
              inl (name +:+
                   " cannot use -catchall because it shares a key with " +:+
                   otherName)
            else if DictKeyExists opt "default" &&
                    DictKeyExists otherOpt "default" then
              inl (name +:+ " and " +:+ otherName +:+
                   " cannot both use -default because they share a key")
            else
              (* Create forbid constraints on shared keys *)
              let nameInForbidList :=
                match dict_get "forbid" otherOpt with
                | Some l => InList name (as_list l)
                | None => false
                end in
              let d :=
                if negb (DictKeyExists otherOpt "forbid") ||
                   negb nameInForbidList
                then dict_put otherName
                       (DictLappendElem otherOpt "forbid" (TStr name)) d
                else d in
              (* Set default -value for shared keys *)
              if negb (DictKeyExists opt "value") then
                inr (dict_put name
                       (dict_put "value" (TStr name)
                          (default [] (dict_get name d))) d,
                     dict_put "value" (TStr name) opt)
              else inr (d, opt)
          else inr st
      | None => inr st
      end
  | _, _ => inr st
  end.

Fixpoint shared_key_loop (name : string) (others : list string)
    (st : odict optdict * optdict) : string + (odict optdict * optdict) :=
  match others with
  | [] => inr st
  | o :: r =>
      let* st := shared_key_pair name o st in
      shared_key_loop name r st
  end.

(** One round of the outer loop, for the element [name]. *)
Definition process_element (ctx : GlobalSwitchesContext) (keys : list string)
    (name : string) (d : odict optdict) : string + odict optdict :=
  match dict_get name d with
  | None => inr d
  | Some opt =>
      match undefined_reference d name opt with
      | Some m => inl m
      | None =>
          let d := reciprocal_requirements ctx name opt d in
          let* st := shared_key_loop name keys (d, opt) in
          inr (fst st)
      end
  end.

Fixpoint process_elements (ctx : GlobalSwitchesContext) (keys : list string)
    (names : list string) (d : odict optdict) : string + odict optdict :=
  match names with
  | [] => inr d
  | n :: r =>
      let* d := process_element ctx keys n d in
      process_elements ctx keys r d
  end.

(** Process constraints and shared key logic. *)
Definition process_constraints (ctx : GlobalSwitchesContext)
    (d : odict optdict) : string + odict optdict :=
  process_elements ctx (DictKeys d) (DictKeys d) d.

Definition set_defDict (a : ArgumentDefinition) (d : odict optdict)
  : ArgumentDefinition :=
  {| defDict := d; aliasesDict := aliasesDict a; orderList := orderList a;
     switchesList := switchesList a; upvarsDict := upvarsDict a;
     omittedDict := omittedDict a; catchall := catchall a |}.

Definition set_orderList (a : ArgumentDefinition) (l : list string)
  : ArgumentDefinition :=
  {| defDict := defDict a; aliasesDict := aliasesDict a; orderList := l;
     switchesList := switchesList a; upvarsDict := upvarsDict a;
     omittedDict := omittedDict a; catchall := catchall a |}.

Definition set_omittedDict (a : ArgumentDefinition) (o : odict tobj)
  : ArgumentDefinition :=
  {| defDict := defDict a; aliasesDict := aliasesDict a;
     orderList := orderList a; switchesList := switchesList a;
     upvarsDict := upvarsDict a; omittedDict := o; catchall := catchall a |}.

(** Mark an element present and no longer omitted. *)
Definition mark_present (a : ArgumentDefinition) (name : string)
  : ArgumentDefinition :=
  set_omittedDict
    (set_defDict a (SetNestedDictKey (defDict a) name "present" emptyStr))
    (dict_remove name (omittedDict a)).

Section WithInterp.
Context {interp : Interp}.

(** *** [ValidateHelper] and [TypeChecker] *)

(** The [-validate] branch for one argument.  The variables [opt], [name]
    and [arg] are set in the current frame, which is the caller's, and unset
    again, except when the failure is reported through [-errormsg]. *)
Definition validate_expr (nameObj : string) (optDict : optdict)
    (validateCmd : tobj) (arg : tobj) : list varop * (string + tobj) :=
  let sets := [VSet "opt" (dict_to_tobj optDict); VSet "name" (TStr nameObj);
               VSet "arg" arg] in
  let unsets := [VUnset "arg"; VUnset "name"; VUnset "opt"] in
  if ExprBooleanObj optDict nameObj arg validateCmd
  then (sets ++ unsets, inr arg)
  else match dict_get "errormsg" optDict with
       | Some errormsgObj =>
           (sets, inl (SubstObj optDict nameObj arg errormsgObj))
       | None =>
           (sets ++ unsets,
            inl (nameObj +:+ " value " +:+ dquote +:+ to_string arg +:+
                 dquote +:+ " fails " +:+
                 match dict_get "validateMsg" optDict with
                 | Some m => to_string m
                 | None => "validation"
                 end))
       end.

(** Validation of one value: [-enum] by prefix matching, else [-validate],
    else nothing. *)
Definition validate_value (ctx : GlobalSwitchesContext) (nameObj : string)
    (optDict : optdict) (arg : tobj) : list varop * (string + tobj) :=
  match dict_get "enum" optDict with
  | Some enumList =>
      ([], match PrefixMatch (map to_string (as_list enumList)) (to_string arg)
                   (HAS_GLOBAL_SWITCH ctx GLOBAL_SWITCH_EXACT)
                   (nameObj +:+ " value") with
           | inl m => inl m
           | inr v => inr (TStr v)
           end)
  | None =>
      match dict_get "validate" optDict with
      | Some validateCmd => validate_expr nameObj optDict validateCmd arg
      | None => ([], inr arg)
      end
  end.

Fixpoint validate_values (ctx : GlobalSwitchesContext) (nameObj : string)
    (optDict : optdict) (args : list tobj)
  : list varop * (string + list tobj) :=
  match args with
  | [] => ([], inr [])
  | a :: r =>
      match validate_value ctx nameObj optDict a with
      | (ops, inl m) => (ops, inl m)
      | (ops, inr v) =>
          match validate_values ctx nameObj optDict r with
          | (ops', inl m) => (ops ++ ops', inl m)
          | (ops', inr vs) => (ops ++ ops', inr (v :: vs))
          end
      end
  end.

(** [ValidateHelper]; with [listFlag] the argument is a list and each
    element is validated, the enumeration results replacing the list. *)
Definition ValidateHelper (ctx : GlobalSwitchesContext) (nameObj : string)
    (optDict : optdict) (argObj : tobj) (listFlag : bool)
  : list varop * (string + tobj) :=
  if listFlag then
    match validate_values ctx nameObj optDict (as_list argObj) with
    | (ops, inl m) => (ops, inl m)
    | (ops, inr vs) =>
        (ops, inr (if DictKeyExists optDict "enum" then TList vs else argObj))
    end
  else validate_value ctx nameObj optDict argObj.

(** [Tcl_StringMatch] against the pattern "[0-9]*". *)
Definition starts_with_digit (s : string) : bool :=
  match s with
  | String c _ => Regexp.is_digit c
  | EmptyString => false
  end.

Definition type_valid (typeStr : string) (v : tobj) : bool :=
  if String.eqb typeStr "integer" then GetIntFromObj v
  else if String.eqb typeStr "double" then GetDoubleFromObj v
  else if String.eqb typeStr "digit" then starts_with_digit (to_string v)
  else if String.eqb typeStr "boolean" then GetBooleanFromObj v
  else StringIs typeStr v.

(** [TypeChecker]. *)
Definition TypeChecker (nameObj : string) (optDict : optdict) (argObj : tobj)
    (listFlag : bool) : string + tobj :=
  match dict_get "type" optDict with
  | Some typeObj =>
      let typeStr := to_string typeObj in
      match List.find (fun v => negb (type_valid typeStr v))
              (if listFlag then as_list argObj else [argObj]) with
      | Some bad =>
          inl (nameObj +:+ " value " +:+ dquote +:+ to_string bad +:+
               dquote +:+ " is not of the type " +:+ typeStr)
      | None => inr argObj
      end
  | None => inr argObj
  end.

(** Validation followed by the type check. *)
Definition validate_and_check (ctx : GlobalSwitchesContext) (nameObj : string)
    (optDict : optdict) (argObj : tobj) (listFlag : bool)
  : list varop * (string + tobj) :=
  match ValidateHelper ctx nameObj optDict argObj listFlag with
  | (ops, inl m) => (ops, inl m)
  | (ops, inr v) => (ops, TypeChecker nameObj optDict v listFlag)
  end.

(** *** The switch loop *)

Record SwitchState : Type := {
  sDef : ArgumentDefinition;
  sArgv : list tobj;
  sParams : list tobj;
  sResult : odict tobj;
  sLog : list varop
}.

Inductive step_result : Type :=
| SContinue (st : SwitchState)
| SBreak (st : SwitchState)
| SFail (log : list varop) (msg : string).

(** Process switch aliases and perform the switch name lookup: the element
    name and the normalized switch. *)
Definition resolve_switch (ctx : GlobalSwitchesContext)
    (def : ArgumentDefinition) (arg : tobj) (name : string)
  : string + (string * string) :=
  let name := match dict_get name (aliasesDict def) with
              | Some aliasName => aliasName
              | None => name
              end in
  let normal := "-" +:+ name in
  let matchList1 :=
    map fst (List.filter (fun kv => DictKeyExists (snd kv) "switch")
               (defDict def)) in
  let prefix := PrefixMatch matchList1 name false "switch" in
  if NestedDictKeyExists (defDict def) name "switch" then inr (name, normal)
  else
    match prefix with
    | inr prefixName =>
        if negb (HAS_GLOBAL_SWITCH ctx GLOBAL_SWITCH_EXACT)
        then inr (prefixName, "-" +:+ prefixName)
        else if DictKeyExists (defDict def) "" then inr ("", normal)
        else inl (BuildBadSwitchError (to_string arg)
                    (EvalLsort (switchesList def)))
    | inl _ =>
        if DictKeyExists (defDict def) "" then inr ("", normal)
        else inl (BuildBadSwitchError (to_string arg)
                    (EvalLsort (switchesList def)))
    end.

(** A standalone switch removes every constraint and makes the parameters
    optional. *)
Definition clear_constraints (d : odict optdict) : odict optdict :=
  fold_left
    (fun d other =>
       let d := UnsetNestedDictKey d other "required" in
       let d := UnsetNestedDictKey d other "require" in
       let d := UnsetNestedDictKey d other "forbid" in
       let d := UnsetNestedDictKey d other "allow" in
       if NestedDictKeyExists d other "parameter"
       then SetNestedDictKey d other "optional" emptyStr
       else d)
    (DictKeys d) d.

(** The definition dictionary once the switch [name] is found: if the
    switch is standalone, all constraints are ignored; then the element is
    marked present. *)
Definition switch_found (d : odict optdict) (name : string) : odict optdict :=
  SetNestedDictKey
    (if NestedDictKeyExists d name "standalone" then clear_constraints d
     else d)
    name "present" emptyStr.

Definition put_key (keyLoc : option tobj) (v : tobj) (res : odict tobj)
  : odict tobj :=
  match keyLoc with
  | Some k => dict_put (to_string k) v res
  | None => res
  end.

(** Insert the switch's implied arguments into the argument list. *)
Definition imply_arguments (name : string) (d : odict optdict)
    (argv : list tobj) : odict optdict * list tobj :=
  match GetNestedDictValue d name "imply" with
  | Some implyName =>
      (UnsetNestedDictKey d name "imply", as_list implyName ++ argv)
  | None => (d, argv)
  end.

(** The pass-through record of a switch and the argument it was given. *)
Definition pass_argument (ctx : GlobalSwitchesContext) (passLoc : option tobj)
    (normal : string) (arg : tobj) (equal : string) (resultList : tobj)
    (res : odict tobj) : odict tobj :=
  match passLoc with
  | Some p =>
      if HAS_GLOBAL_SWITCH ctx GLOBAL_SWITCH_NORMALIZE
      then DictLappend res (to_string p) [TStr normal; resultList]
      else if String.eqb equal "="
      then DictLappendElem res (to_string p) arg
      else DictLappend res (to_string p) [arg; resultList]
  | None => res
  end.

(** One round of the loop: [arg] has been taken off the front of the
    argument list, [argv] is what remains. *)
Definition switch_step (ctx : GlobalSwitchesContext) (end_ : Z)
    (st : SwitchState) (arg : tobj) (argv : list tobj) : step_result :=
  match Regexp.regexpRe (HAS_GLOBAL_SWITCH ctx GLOBAL_SWITCH_LONG)
          (HAS_GLOBAL_SWITCH ctx GLOBAL_SWITCH_EQUALARG) (to_string arg) with
  | None =>
      if String.eqb (to_string arg) "--" then
        SBreak {| sDef := sDef st; sArgv := argv; sParams := argv;
                  sResult := sResult st; sLog := sLog st |}
      else if HAS_GLOBAL_SWITCH ctx GLOBAL_SWITCH_MIXED ||
              HAS_GLOBAL_SWITCH ctx GLOBAL_SWITCH_PFIRST then
        SContinue {| sDef := sDef st; sArgv := argv;
                     sParams := sParams st ++ [arg];
                     sResult := sResult st; sLog := sLog st |}
      else
        SBreak {| sDef := sDef st; sArgv := arg :: argv;
                  sParams := arg :: argv;
                  sResult := sResult st; sLog := sLog st |}
  | Some (name, equal, val) =>
      match resolve_switch ctx (sDef st) arg name with
      | inl m => SFail (sLog st) m
      | inr (name, normal) =>
          let d := switch_found (defDict (sDef st)) name in
          let argv := if String.eqb equal "=" then TStr val :: argv
                      else argv in
          let keyLoc := GetNestedDictValue d name "key" in
          let passLoc := GetNestedDictValue d name "pass" in
          let omitted := dict_remove name (omittedDict (sDef st)) in
          let elementDefDict := default [] (dict_get name d) in
          let passTok := if HAS_GLOBAL_SWITCH ctx GLOBAL_SWITCH_NORMALIZE
                         then TStr normal else arg in
          let continue (res : odict tobj) (log : list varop)
                       (argv : list tobj) :=
            let '(d, argv) := imply_arguments name d argv in
            SContinue {| sDef := set_omittedDict (set_defDict (sDef st) d)
                                   omitted;
                         sArgv := argv; sParams := sParams st;
                         sResult := res; sLog := log |} in
          if NestedDictKeyExists d name "catchall" then
            (* The switch is catchall, so store all remaining arguments *)
            match validate_and_check ctx normal elementDefDict (TList argv)
                    true with
            | (ops, inl m) => SFail (sLog st ++ ops) m
            | (ops, inr vals) =>
                let res := put_key keyLoc vals (sResult st) in
                let res :=
                  match passLoc with
                  | Some p => DictLappend res (to_string p)
                                (MergeTwoLists (as_list passTok)
                                   (as_list vals))
                  | None => res
                  end in
                SBreak {| sDef := set_omittedDict (set_defDict (sDef st) d)
                                    omitted;
                          sArgv := as_list vals; sParams := sParams st;
                          sResult := res; sLog := sLog st ++ ops |}
            end
          else if negb (NestedDictKeyExists d name "argument") then
            (* The switch expects no arguments *)
            if String.eqb equal "=" then
              SFail (sLog st) (normal +:+ " doesn't allow an argument")
            else
              let res :=
                put_key keyLoc
                  (default emptyStr (GetNestedDictValue d name "value"))
                  (sResult st) in
              let res :=
                match passLoc with
                | Some p => DictLappendElem res (to_string p) passTok
                | None => res
                end in
              continue res (sLog st) argv
          else
            match argv with
            | argLoc :: _ =>
                (* The switch was given the expected argument *)
                match validate_and_check ctx normal elementDefDict argLoc
                        false with
                | (ops, inl m) => SFail (sLog st ++ ops) m
                | (ops, inr resultList) =>
                    let res :=
                      put_key keyLoc
                        (if NestedDictKeyExists d name "optional"
                         then TList [TList []; resultList]
                         else resultList) (sResult st) in
                    let res := pass_argument ctx passLoc normal arg equal
                                 resultList res in
                    continue res (sLog st ++ ops) (ListRange argv 1 end_)
                end
            | [] =>
                (* The switch was not given the expected argument *)
                if negb (NestedDictKeyExists d name "optional") then
                  SFail (sLog st) (normal +:+ " requires an argument")
                else
                  let res := put_key keyLoc emptyStr (sResult st) in
                  let res :=
                    match passLoc with
                    | Some p => DictLappendElem res (to_string p) passTok
                    | None => res
                    end in
                  continue res (sLog st) argv
            end
      end
  end.

(** The loop; [None] when the fuel runs out. *)
Fixpoint switch_loop (fuel : nat) (ctx : GlobalSwitchesContext) (end_ : Z)
    (st : SwitchState) : option (list varop * string + SwitchState) :=
  match fuel with
  | O => None
  | S fuel =>
      match sArgv st with
      | [] => Some (inr st)
      | arg :: argv =>
          match switch_step ctx end_ st arg argv with
          | SContinue st' => switch_loop fuel ctx end_ st'
          | SBreak st' => Some (inr st')
          | SFail log m => Some (inl (log, m))
          end
      end
  end.

(** Each round takes an argument off the list or spends the [-imply] of an
    element, so this many rounds are enough. *)
Definition opt_weight (o : optdict) : nat :=
  list_sum (map (fun kv => if String.eqb (fst kv) "imply"
                           then S (length (as_list (snd kv)))
                           else 0%nat) o).

Definition imply_weight (d : odict optdict) : nat :=
  list_sum (map (fun kv => opt_weight (snd kv)) d).

Definition switch_fuel (st : SwitchState) : nat :=
  S (length (sArgv st) + imply_weight (defDict (sDef st))).

End WithInterp.

Section Stages.
Context {interp : Interp}.

(** *** After the switch loop *)

(** Build the list of missing required switches. *)
Definition missing_switches (d : odict optdict) : list string :=
  flat_map
    (fun kv =>
       let opt := snd kv in
       if DictKeyExists opt "switch" && negb (DictKeyExists opt "present") &&
          DictKeyExists opt "required"
       then [if DictKeyExists opt "alias"
             then BuildAliasJoinString opt (fst kv)
             else "-" +:+ fst kv]
       else [])
    d.

(** The state of the allocation of arguments to parameters. *)
Record AllocState : Type := {
  aDef : ArgumentDefinition;
  allocDict : odict nat;
  count : nat;
  missingList : list string
}.

Definition allocate_one (st : AllocState) (name : string) : AllocState :=
  {| aDef := mark_present (aDef st) name;
     allocDict := dict_put name 1%nat (allocDict st);
     count := (count st - 1)%nat;
     missingList := missingList st |}.

(** Allocate one argument to each required parameter, including
    catchalls. *)
Definition allocate_required (st : AllocState) (name : string) : AllocState :=
  if NestedDictKeyExists (defDict (aDef st)) name "required" then
    if (0 <? count st)%nat then allocate_one st name
    else {| aDef := aDef st; allocDict := allocDict st; count := count st;
            missingList := missingList st ++ [name] |}
  else st.

(** Try to allocate one argument to each optional, non-catchall parameter,
    until there are no arguments left. *)
Fixpoint allocate_optional (names : list string) (st : AllocState)
  : AllocState :=
  match names with
  | [] => st
  | name :: r =>
      if negb (NestedDictKeyExists (defDict (aDef st)) name "required") &&
         negb (NestedDictKeyExists (defDict (aDef st)) name "catchall")
      then let st := allocate_one st name in
           if (count st =? 0)%nat then st else allocate_optional r st
      else allocate_optional r st
  end.

(** Process excess arguments. *)
Definition allocate_excess (st : AllocState) : string + AllocState :=
  if (0 <? count st)%nat then
    match catchall (aDef st) with
    | Some catchallName =>
        inr {| aDef := set_omittedDict (aDef st)
                         (dict_remove catchallName (omittedDict (aDef st)));
               allocDict := DictIncr (allocDict st) catchallName (count st);
               count := count st; missingList := missingList st |}
    | None =>
        if DictKeyExists (defDict (aDef st)) "" then
          inr {| aDef := set_orderList (aDef st) (orderList (aDef st) ++ [""]);
                 allocDict := dict_put "" (count st) (allocDict st);
                 count := count st; missingList := missingList st |}
        else inl "too many arguments"
    end
  else inr st.

(** The allocation as a whole: the required parameters, the failure when one
    is missing, the optional ones, the excess. *)
Definition allocate (def : ArgumentDefinition) (params : list tobj)
  : error + AllocState :=
  let st := fold_left allocate_required (orderList def)
              {| aDef := def; allocDict := []; count := length params;
                 missingList := [] |} in
  if (0 <? length (missingList st))%nat
  then inl (Error PMissingParam (BuildMissingParameterError (missingList st)))
  else
    let st := if (0 <? count st)%nat
              then allocate_optional (orderList (aDef st)) st else st in
    in_phase PTooMany (allocate_excess st).

(** Check constraints: for each element that is present, its [-require]
    list, then its [-forbid] list. *)
Definition unmet (d : odict optdict) (opt : optdict) (condition : string)
    (wanted : bool) : option string :=
  match dict_get condition opt with
  | Some otherNameList =>
      List.find (fun o => negb (Bool.eqb (NestedDictKeyExists d o "present")
                                  wanted))
        (map to_string (as_list otherNameList))
  | None => None
  end.

Definition constraint_violation (d : odict optdict) (kv : string * optdict)
  : option string :=
  let '(name, opt) := kv in
  if DictKeyExists opt "present" then
    match unmet d opt "require" true with
    | Some other =>
        Some (dash_name d name +:+ " requires " +:+ dash_name d other)
    | None =>
        match unmet d opt "forbid" false with
        | Some other =>
            Some (dash_name d name +:+ " conflicts with " +:+
                  dash_name d other)
        | None => None
        end
    end
  else None.

Fixpoint first_some {A B} (f : A -> option B) (l : list A) : option B :=
  match l with
  | [] => None
  | a :: r => match f a with Some b => Some b | None => first_some f r end
  end.

Definition check_require_forbid (d : odict optdict) : string + unit :=
  match first_some (constraint_violation d) d with
  | Some m => inl m
  | None => inr tt
  end.

(** The [-allow] lists of the elements that are present. *)
Definition allow_violation (presentedNames : list string)
    (kv : string * optdict) : option string :=
  let '(name, opt) := kv in
  if DictKeyExists opt "present" then
    match dict_get "allow" opt with
    | Some allowedNames =>
        match List.find (fun p => negb (String.eqb p name) &&
                                  negb (InList p (as_list allowedNames)))
                presentedNames with
        | Some p => Some (name +:+ " doesn't allow " +:+ p)
        | None => None
        end
    | None => None
    end
  else None.

Definition check_allow (d : odict optdict) : string + unit :=
  let presentedNames :=
    map fst (List.filter (fun kv => DictKeyExists (snd kv) "present") d) in
  match first_some (allow_violation presentedNames) d with
  | Some m => inl m
  | None => inr tt
  end.

(** If normalization is enabled, store into the pass-through keys all
    omitted switches that have a pass-through key, accept an argument, and
    have a default value. *)
Definition normalize_omitted (ctx : GlobalSwitchesContext)
    (def : ArgumentDefinition) (res : odict tobj) : odict tobj :=
  if HAS_GLOBAL_SWITCH ctx GLOBAL_SWITCH_NORMALIZE then
    fold_left
      (fun res kv =>
         let '(name, opt) := kv in
         match dict_get "pass" opt, dict_get "default" opt with
         | Some passLoc, Some defaultLoc =>
             if DictKeyExists opt "switch" && DictKeyExists opt "argument" &&
                DictKeyExists (omittedDict def) name
             then DictLappend res (to_string passLoc)
                    [TStr ("-" +:+ name); defaultLoc]
             else res
         | _, _ => res
         end)
      (defDict def) res
  else res.

Definition starts_with_dash (s : string) : bool :=
  match s with
  | String "-" _ => true
  | _ => false
  end.

(** The guard token put in front of a pass-through value that looks like a
    switch. *)
Definition guard_pass (res : odict tobj) (passLoc : string) (first : tobj)
  : odict tobj :=
  if starts_with_dash (to_string first) && negb (DictKeyExists res passLoc)
  then DictLappendElem res passLoc (TStr "--")
  else res.

Record StoreState : Type := {
  indx : nat;
  stResult : odict tobj;
  stLog : list varop
}.

(** Validate one parameter and store it in the result dict. *)
Definition store_param (ctx : GlobalSwitchesContext) (d : odict optdict)
    (alloc : odict nat) (params : list tobj) (st : StoreState) (name : string)
  : list varop * string + StoreState :=
  let opt := default [] (dict_get name d) in
  match dict_get name alloc with
  | Some step =>
      if negb (DictKeyExists opt "catchall") &&
         (0 <? list_len (TStr name))%nat
      then
        let parami := default emptyStr (params !! indx st) in
        match validate_and_check ctx name opt parami false with
        | (ops, inl m) => inl (stLog st ++ ops, m)
        | (ops, inr val) =>
            let res :=
              match dict_get "pass" opt with
              | Some passLoc =>
                  DictLappendElem
                    (guard_pass (stResult st) (to_string passLoc) val)
                    (to_string passLoc) val
              | None => stResult st
              end in
            inr {| indx := S (indx st);
                   stResult := put_key (dict_get "key" opt) val res;
                   stLog := stLog st ++ ops |}
        end
      else
        let val0 := TList (ListRange params (Z.of_nat (indx st))
                             (Z.of_nat (indx st) + Z.of_nat step - 1)) in
        match (if (0 <? list_len (TStr name))%nat
               then validate_and_check ctx name opt val0 true
               else ([], inr val0)) with
        | (ops, inl m) => inl (stLog st ++ ops, m)
        | (ops, inr val) =>
            let res :=
              match dict_get "pass" opt with
              | Some passLoc =>
                  DictLappend
                    (guard_pass (stResult st) (to_string passLoc)
                       (default emptyStr (head (as_list val))))
                    (to_string passLoc) (as_list val)
              | None => stResult st
              end in
            inr {| indx := (indx st + step)%nat;
                   stResult := put_key (dict_get "key" opt) val res;
                   stLog := stLog st ++ ops |}
        end
  | None =>
      match dict_get "default" opt, dict_get "pass" opt with
      | Some defaultLoc, Some passLoc =>
          if HAS_GLOBAL_SWITCH ctx GLOBAL_SWITCH_NORMALIZE then
            inr {| indx := indx st;
                   stResult :=
                     DictLappendElem
                       (guard_pass (stResult st) (to_string passLoc)
                          defaultLoc)
                       (to_string passLoc) defaultLoc;
                   stLog := stLog st |}
          else inr st
      | _, _ => inr st
      end
  end.

Fixpoint store_params (ctx : GlobalSwitchesContext) (d : odict optdict)
    (alloc : odict nat) (params : list tobj) (names : list string)
    (st : StoreState) : list varop * string + StoreState :=
  match names with
  | [] => inr st
  | n :: r =>
      let* st := store_param ctx d alloc params st n in
      store_params ctx d alloc params r st
  end.

(** Create default values for missing elements. *)
Definition create_defaults (d : odict optdict) (res : odict tobj)
  : odict tobj :=
  fold_left
    (fun res kv =>
       let opt := snd kv in
       let res :=
         match dict_get "key" opt with
         | Some keyLoc =>
             if negb (DictKeyExists res (to_string keyLoc)) then
               match dict_get "default" opt with
               | Some defaultLoc => dict_put (to_string keyLoc) defaultLoc res
               | None =>
                   if DictKeyExists opt "catchall"
                   then dict_put (to_string keyLoc) emptyStr res
                   else res
               end
             else res
         | None => res
         end in
       match dict_get "pass" opt with
       | Some passLoc =>
           if negb (DictKeyExists res (to_string passLoc))
           then dict_put (to_string passLoc) emptyStr res
           else res
       | None => res
       end)
    d res.

(** Unless [-keep] was used, unset caller variables for omitted elements. *)
Definition unset_omitted (ctx : GlobalSwitchesContext)
    (def : ArgumentDefinition) (res : odict tobj) : list varop :=
  if negb (HAS_GLOBAL_SWITCH ctx GLOBAL_SWITCH_KEEP) then
    flat_map
      (fun name =>
         match GetNestedDictValue (defDict def) name "key" with
         | Some keyLoc =>
             if negb (NestedDictKeyExists (defDict def) name "keep") &&
                negb (DictKeyExists res (to_string keyLoc))
             then [VUnset (to_string keyLoc)]
             else []
         | None => []
         end)
      (DictKeys (omittedDict def))
  else [].

(** Process results: link or set the caller's variable of each key. *)
Fixpoint bind_results (def : ArgumentDefinition) (res : odict tobj)
  : list varop * option string :=
  match res with
  | [] => ([], None)
  | (key, val) :: r =>
      match dict_get key (upvarsDict def) with
      | Some upvarKeyLoc =>
          let levelLoc :=
            to_string (default emptyStr
                         (GetNestedDictValue (defDict def) upvarKeyLoc
                            "level")) in
          match UpVar levelLoc (to_string val) key with
          | Some m => ([], Some m)
          | None =>
              let '(ops, e) := bind_results def r in
              (VUpVar levelLoc (to_string val) key :: ops, e)
          end
      | None =>
          let '(ops, e) := bind_results def r in
          (VSet key val :: ops, e)
      end
  end.

End Stages.

Section Command.
Context {interp : Interp}.

(** *** The arguments of the command itself *)

(** What the command is called with, once its global switches are read:
    the switches, the definition list and the argument list. *)
Record Invocation : Type := {
  iCtx : GlobalSwitchesContext;
  iDefinition : tobj;
  iArgv : tobj
}.

(** The loop over the leading words that are global switches; it stops at
    the first word that is not one. *)
Fixpoint read_global_switches (objv : list tobj) (ctx : GlobalSwitchesContext)
  : string + (GlobalSwitchesContext * list tobj) :=
  match objv with
  | [] => inr (ctx, [])
  | o :: rest =>
      match GetIndexFromObj globalSwitches (to_string o) "option" false with
      | inl _ => inr (ctx, objv)
      | inr globalSwitchId =>
          if takes_arg globalSwitchId then
            match rest with
            | [] => inl ("Missing argument for " +:+
                         nth globalSwitchId globalSwitches "")
            | v :: rest' =>
                read_global_switches rest'
                  (SetGlobalSwitch ctx globalSwitchId (Some v))
            end
          else read_global_switches rest
                 (SetGlobalSwitch ctx globalSwitchId None)
      end
  end.

(** Process arguments to the argparse procedure.  [objv] holds the words
    after the command name, [args] is the caller's variable of that name. *)
Definition process_arguments (args : option tobj) (objv : list tobj)
  : string + Invocation :=
  let* r := read_global_switches objv noGlobalSwitches in
  let '(ctx, rest) := r in
  let rest := match rest with
              | o :: rest' => if String.eqb (to_string o) "--" then rest'
                              else rest
              | [] => rest
              end in
  match rest with
  | [] => inl "missing required parameter: definition"
  | [definition] =>
      match args with
      | Some argv => inr {| iCtx := ctx; iDefinition := definition;
                            iArgv := argv |}
      | None => inl "Variable 'args' not found"
      end
  | [definition; argv] =>
      inr {| iCtx := ctx; iDefinition := definition; iArgv := argv |}
  | _ => inl "too many arguments"
  end.

(** *** The definition list *)

(** Pre-process the definition list: an element whose first word is [#] is
    left out, and when it is that word alone it sets the comment flag, which
    makes the next element that does not start with [#] be left out too. *)
Fixpoint preprocess_definition (elems : list tobj) (commentFlag : bool)
  : string + list tobj :=
  match elems with
  | [] => inr []
  | e :: r =>
      match as_list e with
      | [] => inl "element definition cannot be empty"
      | w0 :: ws =>
          if String.eqb (to_string w0) "#" then
            preprocess_definition r
              (if (length (w0 :: ws) =? 1)%nat then true else commentFlag)
          else if commentFlag then preprocess_definition r false
          else let* d := preprocess_definition r false in inr (e :: d)
      end
  end.

(** From the definition list to the definition the invocation works on:
    pre-processing, the conflicts between global switches, the cache, the
    copy, and the constraints and shared keys. *)
Definition build_schema (interpCtx : ArgparseInterpCtx) (inv : Invocation)
  : ArgparseInterpCtx * (string + ArgumentDefinition) :=
  let ctx := iCtx inv in
  match preprocess_definition (as_list (iDefinition inv)) false with
  | inl m => (interpCtx, inl m)
  | inr definition =>
      if HAS_GLOBAL_SWITCH ctx GLOBAL_SWITCH_INLINE &&
         HAS_GLOBAL_SWITCH ctx GLOBAL_SWITCH_KEEP
      then (interpCtx, inl "-inline and -keep conflict")
      else if HAS_GLOBAL_SWITCH ctx GLOBAL_SWITCH_MIXED &&
              HAS_GLOBAL_SWITCH ctx GLOBAL_SWITCH_PFIRST
      then (interpCtx, inl "-mixed and -pfirst conflict")
      else
        match cached_definition interpCtx definition ctx with
        | (interpCtx, inl m) => (interpCtx, inl m)
        | (interpCtx, inr cashedArgDefCtx) =>
            let argDefCtx := DeepCopyArgumentDefinition cashedArgDefCtx in
            match process_constraints ctx (defDict argDefCtx) with
            | inl m => (interpCtx, inl m)
            | inr d => (interpCtx, inr (set_defDict argDefCtx d))
            end
        end
  end.

(** *** Results *)

(** How a call ends: [TCL_OK] with the result dictionary (returned with
    [-inline], bound to variables otherwise), [TCL_ERROR] with its message,
    or [TCL_RETURN] with the help text, which is the result with [-helpret]
    and is written to the standard output otherwise.  [Unfinished] is the
    switch loop running out of fuel. *)
Inductive result : Type :=
| Ok (res : odict tobj)
| Failed (e : error)
| HelpReturn (asResult : bool) (text : string)
| Unfinished.

(** Build the help string, when [-help] is used and the help switch is
    among the arguments. *)
Definition help_stage (ctx : GlobalSwitchesContext)
    (argDefCtx : ArgumentDefinition) (argv : list tobj) : option result :=
  if HAS_GLOBAL_SWITCH ctx GLOBAL_SWITCH_HELP then
    if negb PkgRequireTextutil
    then Some (Failed (Error PHelp "can't find package textutil::adjust"))
    else if InList (if HAS_GLOBAL_SWITCH ctx GLOBAL_SWITCH_LONG
                    then "--help" else "-help") argv
    then
      let helpLevel := if HAS_GLOBAL_SWITCH ctx GLOBAL_SWITCH_HELPLEVEL
                       then arg_string ctx GLOBAL_SWITCH_HELPLEVEL
                       else "2" in
      Some (HelpReturn (HAS_GLOBAL_SWITCH ctx GLOBAL_SWITCH_HELPRET)
              (HelpMessage ctx argDefCtx helpLevel))
    else None
  else None.

(** Handle the default pass-through switch by creating a dummy element. *)
Definition add_pass_element (ctx : GlobalSwitchesContext)
    (d : odict optdict) : odict optdict :=
  if HAS_GLOBAL_SWITCH ctx GLOBAL_SWITCH_PASS
  then dict_put ""
         [("pass", default emptyStr (GLOBAL_SWITCH_ARG ctx GLOBAL_SWITCH_PASS))]
         d
  else d.

(** Reorder parameters to have required parameters first if [-pfirst] is
    specified. *)
Definition reorder_pfirst (ctx : GlobalSwitchesContext) (d : odict optdict)
    (order : list string) : list string :=
  if HAS_GLOBAL_SWITCH ctx GLOBAL_SWITCH_PFIRST then
    let orderReq :=
      List.filter (fun n => NestedDictKeyExists d n "required") order in
    let orderOpt :=
      List.filter (fun n => negb (NestedDictKeyExists d n "required")) order in
    if (0 <? length orderReq)%nat && (0 <? length orderOpt)%nat
    then orderReq ++ orderOpt
    else if (0 <? length orderReq)%nat then orderReq
    else if (0 <? length orderOpt)%nat then orderOpt
    else order
  else order.

Definition count_required (d : odict optdict) (order : list string) : Z :=
  Z.of_nat (length (List.filter (fun n => NestedDictKeyExists d n "required")
                      order)).

(** Force required parameters to bypass switch logic: the arguments set
    aside, the arguments left for the switch loop, and [end]. *)
Definition force_required (ctx : GlobalSwitchesContext)
    (def : ArgumentDefinition) (argv : list tobj)
  : list tobj * list tobj * Z :=
  let lenArgv := Z.of_nat (length argv) in
  let end_ := lenArgv - 1 in
  if negb (HAS_GLOBAL_SWITCH ctx GLOBAL_SWITCH_MIXED) then
    if HAS_GLOBAL_SWITCH ctx GLOBAL_SWITCH_PFIRST then
      let start := count_required (defDict def) (orderList def) in
      (ListObjReplace argv start (lenArgv - start) [],
       ListRange argv start end_, end_)
    else
      let end_ := end_ - count_required (defDict def) (orderList def) in
      (ListObjReplace argv 0 (end_ + 1) [], ListRange argv 0 end_, end_)
  else (ListObjReplace argv 0 (end_ - 0 + 1) [], ListRange argv 0 end_, end_).

(** Perform switch logic: the loop, then the required switches that are
    missing.  Without switches all arguments are parameters. *)
Definition switch_stage (ctx : GlobalSwitchesContext)
    (def : ArgumentDefinition) (argv : list tobj) (end_ : Z)
  : option (list varop * error + SwitchState) :=
  let st := {| sDef := def; sArgv := argv; sParams := []; sResult := [];
               sLog := [] |} in
  if (0 <? length (switchesList def))%nat then
    match switch_loop (switch_fuel st) ctx end_ st with
    | None => None
    | Some (inl (log, m)) => Some (inl (log, Error PSwitch m))
    | Some (inr st) =>
        let missing := missing_switches (defDict (sDef st)) in
        if (0 <? length missing)%nat
        then Some (inl (sLog st,
                        Error PMissingSwitch
                          (BuildMissingSwitchesError (EvalLsort missing))))
        else Some (inr st)
    end
  else Some (inr {| sDef := def; sArgv := argv; sParams := argv;
                    sResult := []; sLog := [] |}).

(** The parameters the allocation works on. *)
Definition all_params (ctx : GlobalSwitchesContext) (params force : list tobj)
  : list tobj :=
  if HAS_GLOBAL_SWITCH ctx GLOBAL_SWITCH_PFIRST then force ++ params
  else MergeTwoLists params force.

(** Return the result dict, or set the caller's variables. *)
Definition deliver (ctx : GlobalSwitchesContext) (def : ArgumentDefinition)
    (res : odict tobj) : list varop * result :=
  if HAS_GLOBAL_SWITCH ctx GLOBAL_SWITCH_INLINE then ([], Ok res)
  else
    let unsets := unset_omitted ctx def res in
    match bind_results def res with
    | (ops, Some m) => (unsets ++ ops, Failed (Error PBinding m))
    | (ops, None) => (unsets ++ ops, Ok res)
    end.

(** Everything after the switch stage. *)
Definition parameter_stage (ctx : GlobalSwitchesContext) (force : list tobj)
    (st : SwitchState) : list varop * result :=
  let params := all_params ctx (sParams st) force in
  match allocate (sDef st) params with
  | inl e => (sLog st, Failed e)
  | inr a =>
      let d := defDict (aDef a) in
      match check_require_forbid d with
      | inl m => (sLog st, Failed (Error PRequireForbid m))
      | inr _ =>
          match check_allow d with
          | inl m => (sLog st, Failed (Error PAllow m))
          | inr _ =>
              let res := normalize_omitted ctx (aDef a) (sResult st) in
              match store_params ctx d (allocDict a) params
                      (orderList (aDef a))
                      {| indx := 0; stResult := res; stLog := sLog st |} with
              | inl (log, m) => (log, Failed (Error PParamValue m))
              | inr s =>
                  let res := create_defaults d (stResult s) in
                  let '(ops, r) := deliver ctx (aDef a) res in
                  (stLog s ++ ops, r)
              end
          end
      end
  end.

(** The call once the definition is at hand. *)
Definition run_parse (ctx : GlobalSwitchesContext)
    (argDefCtx : ArgumentDefinition) (argv : list tobj)
  : list varop * result :=
  match help_stage ctx argDefCtx argv with
  | Some r => ([], r)
  | None =>
      let def := set_defDict argDefCtx
                   (add_pass_element ctx (defDict argDefCtx)) in
      let def := set_orderList def
                   (reorder_pfirst ctx (defDict def) (orderList def)) in
      let '(force, argv, end_) := force_required ctx def argv in
      match switch_stage ctx def argv end_ with
      | None => ([], Unfinished)
      | Some (inl (log, e)) => (log, Failed e)
      | Some (inr st) => parameter_stage ctx force st
      end
  end.

(** [ArgparseCmdProc2]: the interpreter context after the call, the
    operations on the caller's variables, and how the call ends. *)
Definition ArgparseCmdProc2 (interpCtx : ArgparseInterpCtx)
    (args : option tobj) (objv : list tobj)
  : ArgparseInterpCtx * list varop * result :=
  match process_arguments args objv with
  | inl m => (interpCtx, [], Failed (Error PInvocation m))
  | inr inv =>
      match build_schema interpCtx inv with
      | (interpCtx, inl m) => (interpCtx, [], Failed (Error PSchema m))
      | (interpCtx, inr argDefCtx) =>
          let '(log, r) := run_parse (iCtx inv) argDefCtx
                             (as_list (iArgv inv)) in
          (interpCtx, log, r)
      end
  end.

End Command.

End Cmd.

Export Cmd.

(** ** An interpreter for the examples

    The closed examples below need an interpreter.  This one decides the
    literal expressions only: a [-validate] expression holds when it is the
    literal 1, an [-errormsg] is taken without substitutions, the numeric
    types are decimal digits, the help package loads and every link
    succeeds.  The examples use no more of it than the literals 0 and 1. *)
Definition literal_interp : Interp :=
  {| ExprBooleanObj := fun _ _ _ e => String.eqb (to_string e) "1";
     SubstObj := fun _ _ _ m => to_string m;
     GetIntFromObj := fun v =>
       negb (String.eqb (to_string v) "") &&
       str_all Regexp.is_digit (to_string v);
     GetDoubleFromObj := fun v =>
       negb (String.eqb (to_string v) "") &&
       str_all Regexp.is_digit (to_string v);
     GetBooleanFromObj := fun v =>
       String.eqb (to_string v) "0" || String.eqb (to_string v) "1";
     StringIs := fun _ v => negb (String.eqb (to_string v) "");
     PkgRequireTextutil := true;
     HelpMessage := fun _ _ _ => "";
     UpVar := fun _ _ _ => None |}.

(** ** The comment idiom, as the documentation words it

    Walking back from an element over the elements that start with [#] and
    come right before it, a [#] standing alone marks the element as
    commented out.  [history] holds the elements before it, nearest first. *)

Module CommentSpec.

Definition starts_with_hash (e : tobj) : bool :=
  match as_list e with
  | w0 :: _ => String.eqb (to_string w0) "#"
  | [] => false
  end.

Definition is_marker (e : tobj) : bool :=
  starts_with_hash e && (length (as_list e) =? 1)%nat.

Fixpoint commented_out (history : list tobj) : bool :=
  match history with
  | [] => false
  | e :: r => starts_with_hash e && (is_marker e || commented_out r)
  end.

(** An element is compiled when it does not start with [#] and is not
    commented out. *)
Definition compiled (history : list tobj) (e : tobj) : bool :=
  negb (starts_with_hash e) && negb (commented_out history).

Fixpoint compiled_elements (history : list tobj) (elems : list tobj)
  : list tobj :=
  match elems with
  | [] => []
  | e :: r =>
      (if compiled history e then [e] else []) ++
      compiled_elements (e :: history) r
  end.

End CommentSpec.

(** ** The allocation of arguments to parameters, as the documentation
    words it *)

Module AllocSpec.










End AllocSpec.

(** ** Calls

    A list of plain words as a Tcl list. *)
Definition words (l : list string) : tobj := TList (map TStr l).

(** The outcome of a call in a fresh interpreter context: the operations on
    the caller's variables and how the call ends. *)
Definition call {interp : Interp} (args : option tobj) (objv : list tobj)
  : list varop * result :=
  let '(_, log, r) := ArgparseCmdProc2 InitArgparseInterpCtx args objv in
  (log, r).





(** ** The order of the checks, stage by stage

    What each stage of the command starts from when the stages before it
    have passed, and the error it finds there: the failure diagnosed at
    that stage. *)
Module ErrorOrder.
Section Call.
Context {interp : Interp}.
Variables (interpCtx : ArgparseInterpCtx) (args : option tobj)
          (objv : list tobj).



















End Call.


End ErrorOrder.

(** ** Invariants and predicates used in the statements *)


(** A key that [clear_constraints] neither removes nor adds. *)
Definition untouched_by_clear (k : string) : Prop :=
  k <> "required" /\ k <> "require" /\ k <> "forbid" /\ k <> "allow" /\
  k <> "optional".


(** Whether the element [x] forbids [n]. *)
Definition forbids (d : odict optdict) (x n : string) : bool :=
  match GetNestedDictValue d x "forbid" with
  | Some l => InList n (as_list l)
  | None => false
  end.

(** The forbid constraint of a shared key: the definition afterwards. *)
Definition forbid_added (name otherName : string) (d : odict optdict)
  : odict optdict :=
  if forbids d otherName name then d
  else SetNestedDictKey d otherName "forbid"
         (TList (match GetNestedDictValue d otherName "forbid" with
                 | Some e => as_list e
                 | None => []
                 end ++ [TStr name])).

(** Two elements with the same key. *)
Definition share_key (d : odict optdict) (a b : string) : Prop :=
  a <> b /\
  exists ka kb,
    GetNestedDictValue d a "key" = Some ka /\
    GetNestedDictValue d b "key" = Some kb /\
    to_string ka = to_string kb.

(** What the processing of the constraints and shared keys of the elements
    [names] may change in the definition: [-require] and [-forbid] lists,
    the latter by additions only, and the [-value] of the elements
    themselves, once it is their name. *)
Definition processed (names : list string) (d d' : odict optdict) : Prop :=
  (forall x k, k <> "require" -> k <> "forbid" -> k <> "value" ->
     GetNestedDictValue d' x k = GetNestedDictValue d x k) /\
  (forall x n, forbids d x n = true -> forbids d' x n = true) /\
  (forall x, GetNestedDictValue d x "value" = Some (TStr x) ->
     GetNestedDictValue d' x "value" = Some (TStr x)) /\
  (forall x, x ∉ names ->
     GetNestedDictValue d' x "value" = GetNestedDictValue d x "value").

(** The options of the element [name] as the outer loop holds them, next
    to the definition. *)
Definition in_step (name : string) (d : odict optdict) (opt : optdict)
  : Prop :=
  (forall k, k <> "require" -> k <> "forbid" -> k <> "value" ->
     dict_get k opt = GetNestedDictValue d name k) /\
  DictKeyExists opt "value" = NestedDictKeyExists d name "value".

(** No [-value], or the element's own name. *)
Definition own_value_or_none (d : odict optdict) (a : string) : Prop :=
  GetNestedDictValue d a "value" = None \/
  GetNestedDictValue d a "value" = Some (TStr a).



(** The weight of the values a dictionary holds under a key. *)
Definition key_weight (key : string) (f : tobj -> nat) (o : optdict) : nat :=
  list_sum (map (fun kv => if String.eqb (fst kv) key then f (snd kv)
                           else 0%nat) o).







(** ** Further functions of the source *)

(** [JoinWithEmptySeparator]. *)
Definition JoinWithEmptySeparator (l : list string) : string :=
  fold_left (fun result e => result +:+ e) l "".

(** The loop of [EnumStrBuildObj] for three elements and more: the elements
    but the last, each after the first preceded by a comma and a space. *)
Definition enum_head (l : list string) : string :=
  snd (fold_left
         (fun st e =>
            (S (fst st),
             snd st +:+ (if (0 <? fst st)%nat then ", " else "") +:+ e))
         (take (length l - 1) l) (0%nat, "")).

(** [EnumStrBuildObj]: the list stored under [nameObj] in [optDict] as a
    phrase; the source reads the list without checking that the key is
    there, so there is no result without it. *)
Definition EnumStrBuildObj (nameObj : string) (optDict : optdict)
  : option string :=
  match dict_get nameObj optDict with
  | None => None
  | Some v =>
      let valList := map to_string (as_list v) in
      let len := length valList in
      Some (if (3 <=? len)%nat
            then enum_head valList +:+ " or " +:+ List.last valList ""
            else if (len =? 2)%nat
            then nth 0 valList "" +:+ " or " +:+ nth 1 valList ""
            else if (len =? 1)%nat then nth 0 valList ""
            else "")
  end.

(** A dictionary as Tcl keeps it: no key twice. *)
Definition dict_unique {V} (d : odict V) : Prop := NoDup (DictKeys d).

(** No element of the definition has an [-imply] list. *)
Definition no_imply (d : odict optdict) : Prop :=
  Forall (fun kv => Forall (fun e => fst e <> "imply") (snd kv)) d.

(** The arguments a switch implies. *)
Definition implied (d : odict optdict) (name : string) : list tobj :=
  match GetNestedDictValue d name "imply" with
  | Some implyName => as_list implyName
  | None => []
  end.

(** What every element of a parsed definition satisfies: it is a switch
    or a parameter and not both; a parameter is required or optional and
    not both; it is ignored exactly when it has neither an output key nor a
    pass-through key; and with [-upvar] it has a level. *)
Definition element_ok (opt : optdict) : Prop :=
  DictKeyExists opt "switch" = negb (DictKeyExists opt "parameter") /\
  (DictKeyExists opt "parameter" = true ->
   DictKeyExists opt "required" = negb (DictKeyExists opt "optional")) /\
  DictKeyExists opt "ignore"
  = negb (DictKeyExists opt "key" || DictKeyExists opt "pass") /\
  (DictKeyExists opt "upvar" = true -> DictKeyExists opt "level" = true).

(** The name under which a switch is listed in the messages. *)
Definition switch_label (kv : string * optdict) : string :=
  if DictKeyExists (snd kv) "alias"
  then BuildAliasJoinString (snd kv) (fst kv)
  else "-" +:+ fst kv.

Definition is_parameter (kv : string * optdict) : bool :=
  DictKeyExists (snd kv) "parameter".

Definition is_catchall_parameter (kv : string * optdict) : bool :=
  DictKeyExists (snd kv) "parameter" && DictKeyExists (snd kv) "catchall".

(** How the lists of a parsed definition relate to its dictionary. *)
Definition lists_ok (a : ArgumentDefinition) : Prop :=
  dict_unique (defDict a) /\
  DictKeys (omittedDict a) = DictKeys (defDict a) /\
  orderList a = map fst (List.filter is_parameter (defDict a)) /\
  switchesList a
  = map switch_label
      (List.filter (fun kv => negb (is_parameter kv)) (defDict a)) /\
  map fst (List.filter is_catchall_parameter (defDict a))
  = match catchall a with Some c => [c] | None => [] end.

(** The definition [{-v x rest*}] once parsed, for the examples. *)
Definition example_definition : ArgumentDefinition :=
  {| defDict :=
       [("v", [("switch", TStr ""); ("key", TStr "v")]);
        ("x", [("parameter", TStr ""); ("required", TStr "");
               ("key", TStr "x")]);
        ("rest", [("parameter", TStr ""); ("catchall", TStr "");
                  ("optional", TStr ""); ("key", TStr "rest")])];
     aliasesDict := [];
     orderList := ["x"; "rest"];
     switchesList := ["-v"];
     upvarsDict := [];
     omittedDict := [("v", TStr ""); ("x", TStr ""); ("rest", TStr "")];
     catchall := Some "rest" |}.

(** One round of the loop of [create_defaults]. *)
Definition default_step (res : odict tobj) (kv : string * optdict)
  : odict tobj :=
  let opt := snd kv in
  let res :=
    match dict_get "key" opt with
    | Some keyLoc =>
        if negb (DictKeyExists res (to_string keyLoc)) then
          match dict_get "default" opt with
          | Some defaultLoc => dict_put (to_string keyLoc) defaultLoc res
          | None =>
              if DictKeyExists opt "catchall"
              then dict_put (to_string keyLoc) emptyStr res
              else res
          end
        else res
    | None => res
    end in
  match dict_get "pass" opt with
  | Some passLoc =>
      if negb (DictKeyExists res (to_string passLoc))
      then dict_put (to_string passLoc) emptyStr res
      else res
  | None => res
  end.

(** The element [x] names [o] in its list [k] ([-require], [-forbid] or
    [-allow]). *)
Definition refers (d : odict optdict) (x k o : string) : Prop :=
  exists l, GetNestedDictValue d x k = Some l /\
            In o (map to_string (as_list l)).

(** The same for an option dictionary. *)
Definition opt_refers (opt : optdict) (k o : string) : Prop :=
  exists l, dict_get k opt = Some l /\ In o (map to_string (as_list l)).

(** The references of [d] are references of [d']. *)
Definition refs_kept (d d' : odict optdict) : Prop :=
  forall x k o, k <> "value" -> refers d x k o -> refers d' x k o.

(** The elements of [{-a -require b -reciprocal} -b], before and after the
    constraints are processed, for the examples. *)
Definition example_requirement : odict optdict :=
  [("a", [("switch", TStr ""); ("require", TList [TStr "b"]);
          ("reciprocal", TStr ""); ("key", TStr "a")]);
   ("b", [("switch", TStr ""); ("key", TStr "b")])].

Definition example_requirement_processed : odict optdict :=
  [("a", [("switch", TStr ""); ("require", TList [TStr "b"]);
          ("reciprocal", TStr ""); ("key", TStr "a")]);
   ("b", [("switch", TStr ""); ("key", TStr "b");
          ("require", TList [TStr "a"])])].

(** Every alias of the alias map is listed by a switch of the
    definition, to which it maps. *)
Definition aliases_ok (a : ArgumentDefinition) : Prop :=
  forall al n, dict_get al (aliasesDict a) = Some n ->
    exists opt l, dict_get n (defDict a) = Some opt /\
                  DictKeyExists opt "switch" = true /\
                  dict_get "alias" opt = Some l /\
                  In al (map to_string (as_list l)).

(** The definition [{-f|force}] once parsed, for the examples. *)
Definition example_alias_definition : ArgumentDefinition :=
  {| defDict :=
       [("force", [("switch", TStr ""); ("alias", TList [TStr "f"]);
                   ("key", TStr "force")])];
     aliasesDict := [("f", "force")];
     orderList := [];
     switchesList := ["-f|force"];
     upvarsDict := [];
     omittedDict := [("force", TStr "")];
     catchall := None |}.

(** The global switches of a call with [-level l -pass p]. *)
Definition with_level_pass (l p : string) : GlobalSwitchesContext :=
  SetGlobalSwitch
    (SetGlobalSwitch noGlobalSwitches GLOBAL_SWITCH_LEVEL (Some (TStr l)))
    GLOBAL_SWITCH_PASS (Some (TStr p)).

(** * Theorems *)

(** ** Facts about the dictionaries *)

Section DictFacts.
Context {V : Type}.
Implicit Types (d : odict V) (k : string) (v : V).

Lemma dict_get_put_eq k v d : dict_get k (dict_put k v d) = Some v.
Proof.
  induction d as [|[k' v'] r IH]; simpl.
  - now rewrite String.eqb_refl.
  - destruct (String.eqb k k') eqn:E; simpl; rewrite E; auto.
Qed.

Lemma dict_get_put_ne k k' v d :
  k <> k' -> dict_get k (dict_put k' v d) = dict_get k d.
Proof.
  intros Hne. induction d as [|[k2 v2] r IH]; simpl.
  - apply String.eqb_neq in Hne. now rewrite Hne.
  - destruct (String.eqb k' k2) eqn:E; simpl.
    + apply String.eqb_eq in E. subst k2.
      apply String.eqb_neq in Hne. now rewrite Hne.
    + now rewrite IH.
Qed.

Lemma dict_get_put k k' v d :
  dict_get k (dict_put k' v d) =
  if String.eqb k k' then Some v else dict_get k d.
Proof.
  destruct (String.eqb_spec k k') as [->|Hne].
  - apply dict_get_put_eq.
  - now apply dict_get_put_ne.
Qed.

Lemma dict_get_remove_ne k k' d :
  k <> k' -> dict_get k (dict_remove k' d) = dict_get k d.
Proof.
  intros Hne. induction d as [|[k2 v2] r IH]; simpl; auto.
  destruct (String.eqb k' k2) eqn:E; simpl.
  - apply String.eqb_eq in E. subst k2.
    apply String.eqb_neq in Hne. now rewrite Hne.
  - now rewrite IH.
Qed.

Lemma DictKeyExists_put k k' v d :
  DictKeyExists (dict_put k' v d) k =
  String.eqb k k' || DictKeyExists d k.
Proof.
  unfold DictKeyExists. rewrite dict_get_put.
  now destruct (String.eqb k k').
Qed.

Lemma DictKeyExists_remove_ne k k' d :
  k <> k' -> DictKeyExists (dict_remove k' d) k = DictKeyExists d k.
Proof. intros. unfold DictKeyExists. now rewrite dict_get_remove_ne. Qed.

Lemma dict_get_In k v d : dict_get k d = Some v -> In (k, v) d.
Proof.
  induction d as [|[k' v'] r IH]; simpl; [discriminate|].
  destruct (String.eqb_spec k k') as [->|Hne].
  - intros [= ->]. now left.
  - intros H. right. auto.
Qed.

Lemma DictKeys_put_present k v d :
  DictKeyExists d k = true -> DictKeys (dict_put k v d) = DictKeys d.
Proof.
  unfold DictKeyExists, DictKeys.
  induction d as [|[k' v'] r IH]; simpl; [discriminate|].
  destruct (String.eqb k k') eqn:E; simpl; [reflexivity|].
  intros H. now rewrite IH.
Qed.

Lemma DictKeys_put_absent k v d :
  DictKeyExists d k = false -> DictKeys (dict_put k v d) = DictKeys d ++ [k].
Proof.
  unfold DictKeyExists, DictKeys.
  induction d as [|[k' v'] r IH]; simpl; [reflexivity|].
  destruct (String.eqb k k') eqn:E; simpl; [discriminate|].
  intros H. now rewrite IH.
Qed.
End DictFacts.

#[local] Hint Rewrite @dict_get_put_eq @DictKeyExists_put : dict.

(** ** Scenarios *)

(** C1 (as stated, refuted).  The definition list of the claim names [flag]
    without a dash, which makes it a parameter; a parameter cannot be
    [-boolean], so the definition is rejected and nothing is parsed. *)
Lemma parameter_boolean_conflict :
  @call literal_interp None
    [TList [words ["flag"; "-boolean"]; words ["name"; "-required"]];
     words ["-flag"; "val"]]
  = ([], Failed (Error PSchema "-parameter and -boolean conflict")).
Proof. vm_compute. reflexivity. Qed.

(** C1 (amended).  With [flag] declared as a switch, the definition list
    [{-flag -boolean} {name -required}] and the arguments [-flag val]
    parse: [-flag] takes no argument and is recorded as 1, [val] goes to
    the required parameter [name], and the result is [flag 1 name val],
    returned with [-inline] and bound to the caller's variables without. *)
Theorem boolean_switch_then_required_parameter (interp : Interp) :
  call None
    [TList [words ["-flag"; "-boolean"]; words ["name"; "-required"]];
     words ["-flag"; "val"]]
  = ([VSet "flag" (TStr "1"); VSet "name" (TStr "val")],
     Ok [("flag", TStr "1"); ("name", TStr "val")])
  /\
  call None
    [TStr "-inline";
     TList [words ["-flag"; "-boolean"]; words ["name"; "-required"]];
     words ["-flag"; "val"]]
  = ([], Ok [("flag", TStr "1"); ("name", TStr "val")]).
Proof. split; vm_compute; reflexivity. Qed.

(** C6 (as stated, refuted).  The shorthand of the claim separates the
    alias from the name with a colon; the shorthand expression has no
    colon, and the definition is rejected. *)
Lemma shorthand_colon_rejected :
  @call literal_interp None [TList [TStr "-f|full:force!"]; words ["-full"]]
  = ([], Failed (Error PSchema "bad element shorthand: -f|full:force!")).
Proof. vm_compute. reflexivity. Qed.

(** C6 (amended).  The shorthand [-f|full|force!] is accepted: [f] and
    [full] are aliases of the switch [force], which is required and, being
    required, takes an argument.  [-full] resolves to [force]; given the
    argument 1, [force] is present with the value 1; given alone, the call
    fails for want of the argument. *)
Theorem shorthand_alias_required_switch (interp : Interp) :
  ParseElementDefinitions noGlobalSwitches [TStr "-f|full|force!"]
    InitArgumentDefinition
  = inr {| defDict :=
             [("force", [("switch", TStr "");
                         ("alias", TList [TStr "f"; TStr "full"]);
                         ("required", TStr ""); ("argument", TStr "");
                         ("key", TStr "force")])];
           aliasesDict := [("f", "force"); ("full", "force")];
           orderList := []; switchesList := ["-f|full|force"];
           upvarsDict := []; omittedDict := [("force", TStr "")];
           catchall := None |}
  /\
  (forall def, ParseElementDefinitions noGlobalSwitches
                 [TStr "-f|full|force!"] InitArgumentDefinition = inr def ->
     resolve_switch noGlobalSwitches def (TStr "-full") "full"
     = inr ("force", "-force"))
  /\
  call None [TList [TStr "-f|full|force!"]; words ["-full"; "1"]]
  = ([VSet "force" (TStr "1")], Ok [("force", TStr "1")])
  /\
  call None [TList [TStr "-f|full|force!"]; words ["-full"]]
  = ([], Failed (Error PSwitch "-force requires an argument")).
Proof.
  split; [vm_compute; reflexivity|].
  split; [intros def [= <-]; vm_compute; reflexivity|].
  split; vm_compute; reflexivity.
Qed.


(** ** The comment idiom (C8) *)

Import CommentSpec.

Lemma preprocess_definition_compiled (l : list tobj) :
  Forall (fun e => as_list e <> []) l ->
  forall h, preprocess_definition l (commented_out h)
            = inr (compiled_elements h l).
Proof.
  induction 1 as [|e r He Hr IH]; intros h; simpl; [reflexivity|].
  unfold compiled, starts_with_hash.
  destruct (as_list e) as [|w0 ws] eqn:Ee; [congruence|].
  destruct (String.eqb (to_string w0) "#") eqn:Ehash; simpl.
  - specialize (IH (e :: h)). simpl in IH.
    unfold is_marker, starts_with_hash in IH. rewrite Ee, Ehash in IH.
    simpl in IH. rewrite <- IH.
    destruct (length ws); simpl; reflexivity.
  - specialize (IH (e :: h)). simpl in IH.
    unfold starts_with_hash in IH. rewrite Ee, Ehash in IH. simpl in IH.
    destruct (commented_out h); simpl; rewrite IH; reflexivity.
Qed.

(** C8 (as stated, refuted).  An element of two words that starts with [#]
    is not processed as an element definition: processing it would fail,
    as the first conjunct shows, yet the call succeeds, because the element
    was left out of the definition list. *)
Lemma hash_entry_dropped :
  parse_element noGlobalSwitches InitArgumentDefinition (words ["#"; "note"])
  = inl (index_error elementSwitches "note" "option" false)
  /\ preprocess_definition [words ["#"; "note"]; words ["-v"]] false
     = inr [words ["-v"]]
  /\ @call literal_interp None
       [TList [words ["#"; "note"]; words ["-v"]]; words ["-v"]]
     = ([VSet "v" (TStr "")], Ok [("v", TStr "")]).
Proof. repeat split; vm_compute; reflexivity. Qed.

(** C8 (amended).  The definition list that is compiled holds exactly the
    elements that do not start with [#] and are not commented out.  An
    element that is [#] alone comments out the next element that does not
    start with [#]; after that element the comment state is off again;
    every element that starts with [#] is left out itself, whatever its
    length; and one of several words leaves the comment state as it is. *)
Theorem comment_idiom (l : list tobj) :
  Forall (fun e => as_list e <> []) l ->
  preprocess_definition l false = inr (compiled_elements [] l)
  /\ (forall h m e, is_marker m = true -> starts_with_hash e = false ->
        compiled (m :: h) e = false /\ commented_out (e :: m :: h) = false)
  /\ (forall h e, starts_with_hash e = true -> compiled h e = false)
  /\ (forall h e, starts_with_hash e = true -> is_marker e = false ->
        commented_out (e :: h) = commented_out h)
  /\ (forall h e e', starts_with_hash e = false ->
        starts_with_hash e' = false -> compiled (e :: h) e' = true).
Proof.
  intros Hl. split.
  - exact (preprocess_definition_compiled l Hl []).
  - repeat split.
    + unfold compiled. simpl. unfold is_marker in *.
      destruct (starts_with_hash m); simpl in *; [|discriminate].
      rewrite H. simpl. now rewrite Bool.andb_false_r.
    + simpl. now rewrite H0.
    + intros h e He. unfold compiled. now rewrite He.
    + intros h e He Hm. simpl. now rewrite He, Hm.
    + intros h e e' He He'. unfold compiled. simpl. now rewrite He, He'.
Qed.

Lemma comment_idiom_witness :
  Forall (fun e => as_list e <> [])
    [words ["#"]; words ["-w"]; words ["-z"]]
  /\ preprocess_definition [words ["#"]; words ["-w"]; words ["-z"]] false
     = inr [words ["-z"]].
Proof.
  assert (H : Forall (fun e => as_list e <> [])
                [words ["#"]; words ["-w"]; words ["-z"]]).
  { repeat constructor; discriminate. }
  split; [exact H|].
  exact (proj1 (comment_idiom _ H)).
Defined.

(** ** The boolean replacement (C5) *)

Lemma insert_level_get ctx opt k :
  k <> "level" -> dict_get k (insert_level ctx opt) = dict_get k opt.
Proof.
  intros Hk. unfold insert_level.
  repeat match goal with |- context [if ?c then _ else _] => destruct c end;
    try reflexivity; now apply dict_get_put_ne.
Qed.

Lemma compute_key_get ctx name opt k :
  k <> "key" -> dict_get k (compute_key ctx name opt) = dict_get k opt.
Proof.
  intros Hk. unfold compute_key.
  repeat match goal with |- context [if ?c then _ else _] => destruct c end;
    try reflexivity; now apply dict_get_put_ne.
Qed.

Lemma lookup_validate_get ctx opt k :
  k <> "validate" -> k <> "validateMsg" ->
  dict_get k (lookup_validate ctx opt) = dict_get k opt.
Proof.
  intros Hk1 Hk2. unfold lookup_validate.
  repeat match goal with
         | |- context [match ?c with _ => _ end] => destruct c
         end; try reflexivity;
    repeat (rewrite dict_get_put_ne by assumption); reflexivity.
Qed.

Lemma lookup_enum_validate_get ctx opt k :
  k <> "enum" -> k <> "validate" -> k <> "validateMsg" ->
  dict_get k (lookup_enum_validate ctx opt) = dict_get k opt.
Proof.
  intros Hk0 Hk1 Hk2. unfold lookup_enum_validate.
  repeat match goal with
         | |- context [match ?c with _ => _ end] => destruct c
         end; try reflexivity;
    try (now apply lookup_validate_get); now apply dict_get_put_ne.
Qed.

Lemma replace_boolean_get ctx opt :
  is_boolean_switch ctx opt = true ->
  dict_get "default" (replace_boolean ctx opt) = Some (TStr "0") /\
  dict_get "value" (replace_boolean ctx opt) = Some (TStr "1").
Proof.
  intros H. unfold replace_boolean. rewrite H. split.
  - rewrite dict_get_put_ne by discriminate. apply dict_get_put_eq.
  - apply dict_get_put_eq.
Qed.

(** What one round of the loop stores: the element's own entry, built from
    the derived options, and nothing else in the definition dictionary. *)
Lemma parse_element_entry ctx argCtx elem argCtx' name opt :
  parse_element ctx argCtx elem = inr argCtx' ->
  derived_options ctx elem = inr (name, opt) ->
  DictKeyExists (defDict argCtx) name = false /\
  defDict argCtx' =
    dict_put name
      (lookup_enum_validate ctx
         (compute_key ctx name (insert_level ctx (replace_boolean ctx opt))))
      (defDict argCtx).
Proof.
  unfold parse_element, derived_options.
  destruct (read_switches (tl (as_list elem)) []) as [m|o0]; [discriminate|].
  destruct (first_element ctx (as_list elem) o0) as [m|[n o1]];
    [discriminate|]. simpl.
  intros H [= <- <-].
  destruct (DictKeyExists (defDict argCtx) n) eqn:Ecol; [discriminate|].
  split; [reflexivity|].
  destruct (check_element ctx (derive_argument_required o1)); [discriminate|].
  destruct (build_lists _ _ argCtx) as [m|a1] eqn:Eb; [discriminate|].
  destruct (dict_get n (aliasesDict a1)); [discriminate|].
  destruct (map_upvar _ _ _); [discriminate|].
  destruct (check_type _); [discriminate|].
  injection H as <-. simpl.
  f_equal.
  unfold build_lists in Eb.
  repeat match type of Eb with
         | context [match ?c with _ => _ end] => destruct c
         end; try discriminate; injection Eb as <-; reflexivity.
Qed.

Lemma parse_elements_keeps ctx elems : forall argCtx def n o,
  parse_elements ctx argCtx elems = inr def ->
  dict_get n (defDict argCtx) = Some o ->
  dict_get n (defDict def) = Some o.
Proof.
  induction elems as [|e r IH]; simpl; intros argCtx def n o H Hn.
  - now injection H as <-.
  - destruct (parse_element ctx argCtx e) as [m|a1] eqn:Ee; [discriminate|].
    apply (IH a1 def n o H).
    destruct (derived_options ctx e) as [m|[name opt]] eqn:Ed.
    + exfalso. unfold parse_element, derived_options in *.
      destruct (read_switches (tl (as_list e)) []); [discriminate|].
      destruct (first_element ctx (as_list e) o0); discriminate.
    + destruct (parse_element_entry _ _ _ _ _ _ Ee Ed) as [Hfresh ->].
      rewrite dict_get_put_ne; [assumption|].
      intros ->. unfold DictKeyExists in Hfresh. now rewrite Hn in Hfresh.
Qed.

Lemma parse_elements_boolean ctx elems : forall argCtx def elem name opt,
  parse_elements ctx argCtx elems = inr def ->
  In elem elems ->
  derived_options ctx elem = inr (name, opt) ->
  is_boolean_switch ctx opt = true ->
  GetNestedDictValue (defDict def) name "default" = Some (TStr "0") /\
  GetNestedDictValue (defDict def) name "value" = Some (TStr "1").
Proof.
  induction elems as [|e r IH]; simpl;
    intros argCtx def elem name opt H Hin Hd Hb;
    [contradiction|].
  destruct (parse_element ctx argCtx e) as [m|a1] eqn:Ee; [discriminate|].
  destruct Hin as [->|Hin]; [|now apply (IH a1 def elem name opt)].
  destruct (parse_element_entry _ _ _ _ _ _ Ee Hd) as [_ Hdef].
  assert (Hget : dict_get name (defDict a1) =
                 Some (lookup_enum_validate ctx
                         (compute_key ctx name
                            (insert_level ctx (replace_boolean ctx opt))))).
  { rewrite Hdef. apply dict_get_put_eq. }
  apply (parse_elements_keeps ctx r a1 def) in Hget; [|assumption].
  unfold GetNestedDictValue. rewrite Hget.
  rewrite !lookup_enum_validate_get, !compute_key_get, !insert_level_get
    by discriminate.
  now apply replace_boolean_get.
Qed.

(** C5 (as stated, refuted).  Without the global [-boolean] switch, a
    switch that uses none of [-argument], [-default], [-value], [-required]
    and [-upvar] keeps neither a default nor a value. *)
Lemma plain_switch_not_boolean :
  derived_options noGlobalSwitches (TStr "-v")
  = inr ("v", [("switch", TStr "")])
  /\ ParseElementDefinitions noGlobalSwitches [TStr "-v"]
       InitArgumentDefinition
     = inr {| defDict := [("v", [("switch", TStr ""); ("key", TStr "v")])];
              aliasesDict := []; orderList := []; switchesList := ["-v"];
              upvarsDict := []; omittedDict := [("v", TStr "")];
              catchall := None |}.
Proof. split; vm_compute; reflexivity. Qed.

(** C5 (amended).  In a definition list that compiles, every element that
    declares [-boolean], and, when the global [-boolean] switch is given,
    every switch that after derivation has none of [-argument], [-upvar],
    [-default], [-value] and [-required], is stored with [default] 0 and
    [value] 1, whatever the order of its switches. *)
Theorem boolean_replacement ctx definition def elem name opt :
  ParseElementDefinitions ctx definition InitArgumentDefinition = inr def ->
  In elem definition ->
  derived_options ctx elem = inr (name, opt) ->
  DictKeyExists opt "boolean" = true \/
  (HAS_GLOBAL_SWITCH ctx GLOBAL_SWITCH_BOOLEAN = true /\
   DictKeyExists opt "switch" = true /\
   DictKeyExists opt "argument" = false /\
   DictKeyExists opt "upvar" = false /\
   DictKeyExists opt "default" = false /\
   DictKeyExists opt "value" = false /\
   DictKeyExists opt "required" = false) ->
  GetNestedDictValue (defDict def) name "default" = Some (TStr "0") /\
  GetNestedDictValue (defDict def) name "value" = Some (TStr "1").
Proof.
  unfold ParseElementDefinitions. intros H Hin Hd Hb.
  eapply parse_elements_boolean; eauto.
  unfold is_boolean_switch.
  destruct Hb as [->|(-> & -> & -> & -> & -> & -> & ->)];
    [apply Bool.orb_true_r|reflexivity].
Qed.

Lemma boolean_replacement_witness :
  let def :=
    {| defDict := [("flag", [("boolean", TStr ""); ("switch", TStr "");
                             ("default", TStr "0"); ("value", TStr "1");
                             ("key", TStr "flag")])];
       aliasesDict := []; orderList := []; switchesList := ["-flag"];
       upvarsDict := []; omittedDict := [("flag", TStr "")];
       catchall := None |} in
  ParseElementDefinitions noGlobalSwitches [words ["-flag"; "-boolean"]]
    InitArgumentDefinition = inr def /\
  GetNestedDictValue (defDict def) "flag" "default" = Some (TStr "0") /\
  GetNestedDictValue (defDict def) "flag" "value" = Some (TStr "1").
Proof.
  intros def.
  assert (ParseElementDefinitions noGlobalSwitches
            [words ["-flag"; "-boolean"]] InitArgumentDefinition
          = inr def) as H by (vm_compute; reflexivity).
  split; [exact H|].
  apply (boolean_replacement noGlobalSwitches [words ["-flag"; "-boolean"]]
           def (words ["-flag"; "-boolean"]) "flag"
           [("boolean", TStr ""); ("switch", TStr "")] H).
  - now left.
  - vm_compute. reflexivity.
  - left. reflexivity.
Defined.

(** ** The cache (C7) *)









(** ** Facts about the nested dictionaries *)

Lemma NestedDictKeyExists_get d n k :
  NestedDictKeyExists d n k =
  match GetNestedDictValue d n k with Some _ => true | None => false end.
Proof.
  unfold NestedDictKeyExists, GetNestedDictValue, DictKeyExists.
  now destruct (dict_get n d).
Qed.

Lemma GetNested_Set_eq d n k v :
  GetNestedDictValue (SetNestedDictKey d n k v) n k = Some v.
Proof.
  unfold GetNestedDictValue, SetNestedDictKey.
  rewrite dict_get_put_eq. apply dict_get_put_eq.
Qed.

Lemma GetNested_Set_ne d n k v n' k' :
  n' <> n \/ k' <> k ->
  GetNestedDictValue (SetNestedDictKey d n k v) n' k'
  = GetNestedDictValue d n' k'.
Proof.
  unfold GetNestedDictValue, SetNestedDictKey. intros H.
  rewrite dict_get_put.
  destruct (String.eqb_spec n' n) as [->|Hn]; [|reflexivity].
  destruct H as [H|H]; [congruence|].
  rewrite dict_get_put_ne by assumption.
  now destruct (dict_get n d).
Qed.

Lemma GetNested_Unset_ne d n k n' k' :
  n' <> n \/ k' <> k ->
  GetNestedDictValue (UnsetNestedDictKey d n k) n' k'
  = GetNestedDictValue d n' k'.
Proof.
  unfold GetNestedDictValue, UnsetNestedDictKey. intros H.
  destruct (dict_get n d) as [sub|] eqn:E; [|reflexivity].
  rewrite dict_get_put.
  destruct (String.eqb_spec n' n) as [->|Hn]; [|reflexivity].
  destruct H as [H|H]; [congruence|].
  rewrite E. now apply dict_get_remove_ne.
Qed.

Lemma clear_constraints_step_get d other n k :
  untouched_by_clear k ->
  GetNestedDictValue
    (let d := UnsetNestedDictKey d other "required" in
     let d := UnsetNestedDictKey d other "require" in
     let d := UnsetNestedDictKey d other "forbid" in
     let d := UnsetNestedDictKey d other "allow" in
     if NestedDictKeyExists d other "parameter"
     then SetNestedDictKey d other "optional" emptyStr
     else d) n k
  = GetNestedDictValue d n k.
Proof.
  intros (H1 & H2 & H3 & H4 & H5). cbv zeta.
  destruct (NestedDictKeyExists _ other "parameter");
    [rewrite GetNested_Set_ne by auto|];
    rewrite !GetNested_Unset_ne by auto; reflexivity.
Qed.

Lemma clear_constraints_get d n k :
  untouched_by_clear k ->
  GetNestedDictValue (clear_constraints d) n k = GetNestedDictValue d n k.
Proof.
  intros Hk. unfold clear_constraints.
  generalize (DictKeys d). intros keys. revert d.
  induction keys as [|o r IH]; intros d; simpl; [reflexivity|].
  rewrite IH. now apply clear_constraints_step_get.
Qed.

Lemma clear_constraints_optional d n :
  NestedDictKeyExists d n "optional" = true ->
  NestedDictKeyExists (clear_constraints d) n "optional" = true.
Proof.
  unfold clear_constraints.
  generalize (DictKeys d). intros keys. revert d.
  induction keys as [|o r IH]; intros d H; simpl; [exact H|].
  apply IH. rewrite NestedDictKeyExists_get in *.
  destruct (NestedDictKeyExists _ o "parameter").
  - destruct (String.eqb_spec n o) as [->|Hn].
    + now rewrite GetNested_Set_eq.
    + rewrite GetNested_Set_ne by auto.
      rewrite !GetNested_Unset_ne by (right; discriminate). exact H.
  - rewrite !GetNested_Unset_ne by (right; discriminate). exact H.
Qed.

Lemma switch_found_get d name n k :
  untouched_by_clear k -> k <> "present" ->
  GetNestedDictValue (switch_found d name) n k = GetNestedDictValue d n k.
Proof.
  intros Hk Hp. unfold switch_found.
  rewrite GetNested_Set_ne by auto.
  destruct (NestedDictKeyExists d name "standalone");
    [now apply clear_constraints_get|reflexivity].
Qed.

Lemma switch_found_exists d name n k :
  untouched_by_clear k -> k <> "present" ->
  NestedDictKeyExists (switch_found d name) n k = NestedDictKeyExists d n k.
Proof.
  intros. rewrite !NestedDictKeyExists_get. now rewrite switch_found_get.
Qed.

Lemma switch_found_optional d name n :
  NestedDictKeyExists d n "optional" = true ->
  NestedDictKeyExists (switch_found d name) n "optional" = true.
Proof.
  intros H. unfold switch_found.
  rewrite NestedDictKeyExists_get, GetNested_Set_ne by (right; discriminate).
  rewrite <- NestedDictKeyExists_get.
  destruct (NestedDictKeyExists d name "standalone");
    [now apply clear_constraints_optional|exact H].
Qed.

#[local] Hint Unfold untouched_by_clear : dict.

Ltac untouched := unfold untouched_by_clear; repeat split; discriminate.

(** ** The value of an optional-argument switch (C9) *)

(** C9.  A switch that takes an argument and is declared optional, when the
    switch is given its argument, has the two-element list of the empty
    list and the validated value stored under its output key; the
    pass-through record of the element, if it has one, is added after that,
    so unless it names the same key the list is what the key holds after
    the round. *)
Theorem optional_switch_value {interp : Interp} ctx end_ st arg argv
    name0 equal val name normal argLoc rest ops v keyLoc :
  Regexp.regexpRe (HAS_GLOBAL_SWITCH ctx GLOBAL_SWITCH_LONG)
    (HAS_GLOBAL_SWITCH ctx GLOBAL_SWITCH_EQUALARG) (to_string arg)
  = Some (name0, equal, val) ->
  resolve_switch ctx (sDef st) arg name0 = inr (name, normal) ->
  let d := defDict (sDef st) in
  NestedDictKeyExists d name "catchall" = false ->
  NestedDictKeyExists d name "argument" = true ->
  NestedDictKeyExists d name "optional" = true ->
  GetNestedDictValue d name "key" = Some keyLoc ->
  (if String.eqb equal "=" then TStr val :: argv else argv)
  = argLoc :: rest ->
  validate_and_check ctx normal
    (default [] (dict_get name (switch_found d name))) argLoc false
  = (ops, inr v) ->
  exists st',
    switch_step ctx end_ st arg argv = SContinue st' /\
    sResult st' =
      pass_argument ctx (GetNestedDictValue d name "pass") normal arg equal v
        (dict_put (to_string keyLoc) (TList [TList []; v]) (sResult st)) /\
    (match GetNestedDictValue d name "pass" with
     | Some p => to_string p <> to_string keyLoc
     | None => True
     end ->
     dict_get (to_string keyLoc) (sResult st') = Some (TList [TList []; v])).
Proof.
  intros Hre Hres d Hcatch Harg Hopt Hkey Hargv Hval.
  unfold switch_step. rewrite Hre, Hres.
  fold d.
  rewrite (switch_found_exists d name name "catchall") by untouched.
  rewrite (switch_found_exists d name name "argument") by untouched.
  rewrite Hcatch, Harg. simpl negb. cbv iota.
  rewrite Hargv, Hval.
  rewrite (switch_found_optional d name name Hopt).
  rewrite (switch_found_get d name name "key") by untouched.
  rewrite (switch_found_get d name name "pass") by untouched.
  rewrite Hkey. simpl put_key.
  destruct (imply_arguments name (switch_found d name)
              (ListRange (argLoc :: rest) 1 end_)) as [d' argv'] eqn:Ei.
  eexists. split; [reflexivity|]. simpl. split; [reflexivity|].
  unfold pass_argument, DictLappendElem, DictLappend.
  destruct (GetNestedDictValue d name "pass") as [p|];
    [|intros _; apply dict_get_put_eq].
  intros Hne.
  repeat match goal with |- context [if ?c then _ else _] => destruct c end;
    rewrite dict_get_put_ne by congruence; apply dict_get_put_eq.
Qed.

Lemma optional_switch_value_witness :
  let st := {| sDef := {| defDict := [("o", [("switch", TStr "");
                                              ("argument", TStr "");
                                              ("optional", TStr "");
                                              ("key", TStr "o")])];
                          aliasesDict := []; orderList := [];
                          switchesList := ["-o"]; upvarsDict := [];
                          omittedDict := [("o", TStr "")];
                          catchall := None |};
               sArgv := [TStr "-o"; TStr "5"]; sParams := [];
               sResult := []; sLog := [] |} in
  exists st',
    @switch_step literal_interp noGlobalSwitches 1 st (TStr "-o") [TStr "5"]
    = SContinue st' /\
    dict_get "o" (sResult st') = Some (TList [TList []; TStr "5"]).
Proof.
  intros st.
  destruct (@optional_switch_value literal_interp noGlobalSwitches 1 st
              (TStr "-o") [TStr "5"] "o" "" "" "o" "-o" (TStr "5") [] []
              (TStr "5") (TStr "o"))
    as (st' & Hstep & _ & Hget);
    try (vm_compute; reflexivity).
  exists st'. split; [exact Hstep|]. apply Hget. exact I.
Defined.

(** ** The allocation of arguments to parameters (C3) *)

Import AllocSpec.



Lemma dict_put_fresh {V} k (v : V) d :
  DictKeyExists d k = false -> dict_put k v d = d ++ [(k, v)].
Proof.
  unfold DictKeyExists.
  induction d as [|[k' v'] r IH]; simpl; [reflexivity|].
  destruct (String.eqb k k'); [discriminate|].
  intros H. now rewrite IH.
Qed.











(** *** Storing the parameters *)












(** *** The arguments handed out are those received *)











(** ** The caller's variables when a call fails (C10) *)


Section ValidationOps.
Context {interp : Interp}.















End ValidationOps.





(** ** The switch loop ends *)

Section KeyWeight.
Variables (key : string) (f : tobj -> nat).

Notation weight := (key_weight key f).

Lemma key_weight_put o k v :
  k <> key -> weight (dict_put k v o) = weight o.
Proof.
  intros Hk. apply String.eqb_neq in Hk. unfold key_weight.
  induction o as [|[k' v'] r IH]; simpl.
  - now rewrite Hk.
  - destruct (String.eqb_spec k k') as [<-|Hne]; simpl.
    + now rewrite Hk.
    + now rewrite IH.
Qed.

Lemma key_weight_remove_ne o k :
  k <> key -> weight (dict_remove k o) = weight o.
Proof.
  intros Hk. apply String.eqb_neq in Hk. unfold key_weight.
  induction o as [|[k' v'] r IH]; simpl; [reflexivity|].
  destruct (String.eqb_spec k k') as [<-|Hne]; simpl.
  - now rewrite Hk.
  - now rewrite IH.
Qed.

Lemma key_weight_remove o v :
  dict_get key o = Some v ->
  weight o = (f v + weight (dict_remove key o))%nat.
Proof.
  unfold key_weight.
  induction o as [|[k' v'] r IH]; simpl; [discriminate|].
  rewrite (String.eqb_sym k' key).
  destruct (String.eqb key k') eqn:E.
  - intros [= ->]. reflexivity.
  - intros H. simpl. rewrite (String.eqb_sym k' key), E. simpl.
    now rewrite (IH H).
Qed.

End KeyWeight.

Lemma opt_weight_put o k v :
  k <> "imply" -> opt_weight (dict_put k v o) = opt_weight o.
Proof. apply (key_weight_put "imply" (fun v => S (length (as_list v)))). Qed.

Lemma opt_weight_remove_ne o k :
  k <> "imply" -> opt_weight (dict_remove k o) = opt_weight o.
Proof.
  apply (key_weight_remove_ne "imply" (fun v => S (length (as_list v)))).
Qed.

Lemma opt_weight_remove_imply o v :
  dict_get "imply" o = Some v ->
  opt_weight o
  = S (length (as_list v) + opt_weight (dict_remove "imply" o)).
Proof.
  apply (key_weight_remove "imply" (fun v => S (length (as_list v)))).
Qed.

Lemma imply_weight_put d x o :
  (imply_weight (dict_put x o d) + opt_weight (default [] (dict_get x d))
   = imply_weight d + opt_weight o)%nat.
Proof.
  unfold imply_weight.
  induction d as [|[k' v'] r IH]; simpl; [unfold opt_weight; simpl; lia|].
  destruct (String.eqb x k'); simpl; lia.
Qed.

Lemma imply_weight_Set d x k v :
  k <> "imply" -> imply_weight (SetNestedDictKey d x k v) = imply_weight d.
Proof.
  intros Hk. unfold SetNestedDictKey.
  pose proof (imply_weight_put d x
                (dict_put k v (default [] (dict_get x d)))) as H.
  rewrite opt_weight_put in H by assumption. lia.
Qed.

Lemma imply_weight_Unset_ne d x k :
  k <> "imply" -> imply_weight (UnsetNestedDictKey d x k) = imply_weight d.
Proof.
  intros Hk. unfold UnsetNestedDictKey.
  destruct (dict_get x d) as [sub|] eqn:E; [|reflexivity].
  pose proof (imply_weight_put d x (dict_remove k sub)) as H.
  rewrite opt_weight_remove_ne, E in H by assumption. simpl in H. lia.
Qed.

Lemma imply_weight_Unset_imply d x v :
  GetNestedDictValue d x "imply" = Some v ->
  imply_weight d
  = S (length (as_list v) + imply_weight (UnsetNestedDictKey d x "imply")).
Proof.
  unfold GetNestedDictValue, UnsetNestedDictKey.
  destruct (dict_get x d) as [sub|] eqn:E; [|discriminate].
  intros Hv. pose proof (imply_weight_put d x (dict_remove "imply" sub)) as H.
  rewrite E in H. simpl in H.
  rewrite (opt_weight_remove_imply sub v Hv) in H. lia.
Qed.

Lemma imply_weight_clear d :
  imply_weight (clear_constraints d) = imply_weight d.
Proof.
  unfold clear_constraints. generalize (DictKeys d) as keys.
  intros keys. revert d.
  induction keys as [|other r IH]; intros d; simpl; [reflexivity|].
  rewrite IH.
  destruct (NestedDictKeyExists _ other "parameter");
    [rewrite imply_weight_Set by discriminate|];
    now rewrite !imply_weight_Unset_ne by discriminate.
Qed.

Lemma imply_weight_found d name :
  imply_weight (switch_found d name) = imply_weight d.
Proof.
  unfold switch_found. rewrite imply_weight_Set by discriminate.
  destruct (NestedDictKeyExists d name "standalone");
    [apply imply_weight_clear|reflexivity].
Qed.

Lemma length_ListRange_tail {A} (l : list A) e :
  (length (ListRange l 1 e) <= length l - 1)%nat.
Proof.
  unfold ListRange.
  repeat match goal with
         | |- context [Z.leb ?a ?b] => destruct (Z.leb_spec a b)
         | |- context [Z.ltb ?a ?b] => destruct (Z.ltb_spec a b)
         end; simpl; try lia;
    rewrite length_take, length_drop; lia.
Qed.

Lemma imply_arguments_weight name d argv :
  (length (snd (imply_arguments name d argv)) +
   imply_weight (fst (imply_arguments name d argv))
   <= length argv + imply_weight d)%nat.
Proof.
  unfold imply_arguments.
  destruct (GetNestedDictValue d name "imply") as [v|] eqn:E; simpl; [|lia].
  rewrite (imply_weight_Unset_imply d name v E), length_app. lia.
Qed.

Section LoopEnds.
Context {interp : Interp}.

Ltac case_inner_in H :=
  match type of H with
  | context [imply_arguments ?n ?d ?a] =>
      let Hw := fresh "Hw" in
      pose proof (imply_arguments_weight n d a) as Hw;
      destruct (imply_arguments n d a); simpl in Hw
  | context [match ?x with _ => _ end] =>
      lazymatch x with
      | context [match _ with _ => _ end] => fail
      | _ => destruct x
      end
  end.

(** A round that continues leaves less to do. *)
Lemma switch_step_decreases ctx end_ st arg argv st' :
  switch_step ctx end_ st arg argv = SContinue st' ->
  (length (sArgv st') + imply_weight (defDict (sDef st'))
   < S (length argv) + imply_weight (defDict (sDef st)))%nat.
Proof.
  intros H. unfold switch_step in H.
  repeat first
    [ discriminate
    | case_inner_in H
    | progress simpl in H ];
    injection H as <-; simpl;
    rewrite ?imply_weight_found in *;
    repeat match goal with
           | H : context [ListRange ?l 1 ?e] |- _ =>
               pose proof (length_ListRange_tail l e);
               generalize dependent (ListRange l 1 e); intros
           end;
    simpl in *; lia.
Qed.

Lemma switch_loop_ends ctx end_ fuel : forall st,
  (length (sArgv st) + imply_weight (defDict (sDef st)) < fuel)%nat ->
  switch_loop fuel ctx end_ st <> None.
Proof.
  induction fuel as [|fuel IH]; intros st Hlt; [lia|]. simpl.
  destruct (sArgv st) as [|arg argv] eqn:E; [discriminate|].
  destruct (switch_step ctx end_ st arg argv) as [st'|st'|log m] eqn:Es;
    [|discriminate|discriminate].
  apply IH. apply switch_step_decreases in Es. simpl in Hlt. lia.
Qed.




End LoopEnds.

(** ** The order of the errors (C2) *)

Import ErrorOrder.












(** ** Shared keys (C4) *)

Lemma processed_refl names d : processed names d d.
Proof. repeat split; auto. Qed.

Lemma processed_trans names d d' d'' :
  processed names d d' -> processed names d' d'' -> processed names d d''.
Proof.
  intros (A1 & A2 & A3 & A4) (B1 & B2 & B3 & B4). repeat split.
  - intros x k H1 H2 H3. now rewrite B1, A1.
  - auto.
  - auto.
  - intros x Hx. now rewrite B4, A4.
Qed.

Lemma processed_weaken names names' d d' :
  (forall x, x ∈ names -> x ∈ names') ->
  processed names d d' -> processed names' d d'.
Proof.
  intros Hsub (A1 & A2 & A3 & A4). repeat split; auto.
Qed.

Lemma processed_require names d x v :
  processed names d (SetNestedDictKey d x "require" v).
Proof.
  repeat split.
  - intros y k H1 H2 H3. apply GetNested_Set_ne. now right.
  - intros y n. unfold forbids.
    rewrite GetNested_Set_ne by (right; discriminate). auto.
  - intros y. rewrite GetNested_Set_ne by (right; discriminate). auto.
  - intros y _. apply GetNested_Set_ne. right. discriminate.
Qed.

Lemma InList_app n l1 l2 : InList n (l1 ++ l2) = InList n l1 || InList n l2.
Proof. unfold InList. apply existsb_app. Qed.

Lemma processed_forbid names d x n :
  processed names d
    (SetNestedDictKey d x "forbid"
       (TList (match GetNestedDictValue d x "forbid" with
               | Some e => as_list e
               | None => []
               end ++ [TStr n]))).
Proof.
  repeat split.
  - intros y k H1 H2 H3. apply GetNested_Set_ne. now right.
  - intros y m. unfold forbids.
    destruct (String.eqb_spec y x) as [->|Hne].
    + rewrite GetNested_Set_eq. simpl. rewrite InList_app.
      destruct (GetNestedDictValue d x "forbid"); [|discriminate].
      intros ->. reflexivity.
    + rewrite GetNested_Set_ne by (now left). auto.
  - intros y. rewrite GetNested_Set_ne by (right; discriminate). auto.
  - intros y _. apply GetNested_Set_ne. right. discriminate.
Qed.

Lemma processed_value names d name :
  name ∈ names ->
  processed names d (SetNestedDictKey d name "value" (TStr name)).
Proof.
  intros Hin. repeat split.
  - intros y k H1 H2 H3. apply GetNested_Set_ne. now right.
  - intros y n. unfold forbids.
    rewrite GetNested_Set_ne by (right; discriminate). auto.
  - intros y. destruct (String.eqb_spec y name) as [->|Hne].
    + intros _. apply GetNested_Set_eq.
    + rewrite GetNested_Set_ne by (now left). auto.
  - intros y Hy. apply GetNested_Set_ne. left. intros ->. contradiction.
Qed.

Lemma reciprocal_processed ctx name opt d :
  processed [] d (reciprocal_requirements ctx name opt d).
Proof.
  unfold reciprocal_requirements.
  destruct (_ || _); [|apply processed_refl].
  destruct (dict_get "require" opt) as [otherList|]; [|apply processed_refl].
  generalize (as_list otherList) as others. intros others. revert d.
  induction others as [|o r IH]; intros d; simpl; [apply processed_refl|].
  eapply processed_trans; [|apply IH].
  apply (processed_require [] d (to_string o)).
Qed.

Lemma in_step_forbid name d opt other v :
  in_step name d opt -> in_step name (SetNestedDictKey d other "forbid" v) opt.
Proof.
  intros [Hk Hv]. split.
  - intros k H1 H2 H3. rewrite GetNested_Set_ne by (now right). auto.
  - rewrite Hv, !NestedDictKeyExists_get.
    now rewrite GetNested_Set_ne by (right; discriminate).
Qed.

Lemma in_step_value name d opt :
  in_step name d opt ->
  in_step name (SetNestedDictKey d name "value" (TStr name))
    (dict_put "value" (TStr name) opt).
Proof.
  intros [Hk Hv]. split.
  - intros k H1 H2 H3. rewrite GetNested_Set_ne by (now right).
    rewrite dict_get_put_ne by assumption. auto.
  - rewrite NestedDictKeyExists_get, GetNested_Set_eq.
    unfold DictKeyExists. now rewrite dict_get_put_eq.
Qed.

Lemma in_step_processed name d d' opt :
  in_step name d opt ->
  processed [] d d' ->
  in_step name d' opt.
Proof.
  intros [Hk Hv] (A1 & A2 & A3 & A4). split.
  - intros k H1 H2 H3. rewrite A1 by assumption. auto.
  - rewrite Hv, !NestedDictKeyExists_get, A4; [reflexivity|].
    apply not_elem_of_nil.
Qed.

Lemma forbid_added_forbids name otherName d :
  forbids (forbid_added name otherName d) otherName name = true.
Proof.
  unfold forbid_added.
  destruct (forbids d otherName name) eqn:E; [exact E|].
  unfold forbids. rewrite GetNested_Set_eq. simpl. rewrite InList_app.
  unfold InList at 2. simpl. rewrite String.eqb_refl.
  apply orb_true_r.
Qed.

Lemma forbid_added_processed names name otherName d :
  processed names d (forbid_added name otherName d).
Proof.
  unfold forbid_added.
  destruct (forbids d otherName name);
    [apply processed_refl|apply processed_forbid].
Qed.

Lemma forbid_added_get name otherName d x k :
  k <> "forbid" ->
  GetNestedDictValue (forbid_added name otherName d) x k
  = GetNestedDictValue d x k.
Proof.
  intros Hk. unfold forbid_added.
  destruct (forbids d otherName name); [reflexivity|].
  apply GetNested_Set_ne. now right.
Qed.

Lemma forbid_added_in_step name otherName d opt :
  in_step name d opt -> in_step name (forbid_added name otherName d) opt.
Proof.
  intros H. unfold forbid_added.
  destruct (forbids d otherName name); [exact H|now apply in_step_forbid].
Qed.

Lemma forbid_added_source name otherName d otherOpt :
  dict_get otherName d = Some otherOpt ->
  (if negb (DictKeyExists otherOpt "forbid") ||
      negb match dict_get "forbid" otherOpt with
           | Some l => InList name (as_list l)
           | None => false
           end
   then dict_put otherName (DictLappendElem otherOpt "forbid" (TStr name)) d
   else d)
  = forbid_added name otherName d.
Proof.
  intros Eo.
  unfold forbid_added, forbids, GetNestedDictValue, SetNestedDictKey,
    DictLappendElem, DictLappend, DictKeyExists.
  rewrite Eo. simpl default.
  destruct (dict_get "forbid" otherOpt) as [l|]; simpl; [|reflexivity].
  now destruct (InList name (as_list l)).
Qed.

(** What a round of the inner loop does when it succeeds: nothing, when the
    two elements do not share a key; else the element is neither a parameter
    nor takes an argument nor is a catchall, the other element forbids it,
    and its [-value] is its name unless it has one. *)
Lemma shared_key_pair_inv name other d opt d' opt' :
  shared_key_pair name other (d, opt) = inr (d', opt') ->
  (d' = d /\ opt' = opt /\
   forall otherOpt optKey otherOptKey,
     dict_get other d = Some otherOpt -> dict_get "key" opt = Some optKey ->
     dict_get "key" otherOpt = Some otherOptKey -> name <> other ->
     to_string optKey <> to_string otherOptKey) \/
  (DictKeyExists opt "parameter" = false /\
   DictKeyExists opt "argument" = false /\
   DictKeyExists opt "catchall" = false /\
   ((DictKeyExists opt "value" = false /\
     d' = SetNestedDictKey (forbid_added name other d) name "value"
            (TStr name) /\
     opt' = dict_put "value" (TStr name) opt) \/
    (DictKeyExists opt "value" = true /\
     d' = forbid_added name other d /\ opt' = opt))).
Proof.
  unfold shared_key_pair.
  destruct (dict_get other d) as [otherOpt|] eqn:Eo;
    [|intros [= <- <-]; left; repeat split; intros; discriminate].
  destruct (dict_get "key" opt) as [optKey|] eqn:Ek;
    [|intros [= <- <-]; left; repeat split; intros; discriminate].
  destruct (dict_get "key" otherOpt) as [otherOptKey|] eqn:Eok;
    [|intros [= <- <-]; left; repeat split; intros; congruence].
  destruct (String.eqb_spec name other) as [Heq|Hne]; simpl negb; simpl andb.
  { intros [= <- <-]. left. repeat split. intros; congruence. }
  destruct (String.eqb_spec (to_string optKey) (to_string otherOptKey))
    as [Hkey|Hkey].
  2:{ intros [= <- <-]. left. repeat split. intros; congruence. }
  destruct (DictKeyExists opt "parameter"); [discriminate|].
  destruct (DictKeyExists opt "argument"); [discriminate|].
  destruct (DictKeyExists opt "catchall"); [discriminate|].
  destruct (DictKeyExists opt "default" && DictKeyExists otherOpt "default");
    [discriminate|].
  rewrite (forbid_added_source name other d otherOpt Eo).
  right. split; [reflexivity|]. split; [reflexivity|]. split; [reflexivity|].
  destruct (DictKeyExists opt "value"); simpl negb in *; cbv iota in *.
  - right. injection H as <- <-. auto.
  - left. injection H as <- <-. auto.
Qed.

Lemma share_key_in_step name other d opt :
  in_step name d opt -> share_key d name other ->
  exists otherOpt optKey otherOptKey,
    dict_get other d = Some otherOpt /\ dict_get "key" opt = Some optKey /\
    dict_get "key" otherOpt = Some otherOptKey /\ name <> other /\
    to_string optKey = to_string otherOptKey.
Proof.
  intros [Hk _] (Hne & ka & kb & Ha & Hb & Hs).
  unfold GetNestedDictValue in Hb.
  destruct (dict_get other d) as [otherOpt|]; [|discriminate].
  exists otherOpt, ka, kb. rewrite Hk by discriminate. auto.
Qed.

Lemma own_value_set d a :
  own_value_or_none (SetNestedDictKey d a "value" (TStr a)) a.
Proof. right. apply GetNested_Set_eq. Qed.

Lemma shared_key_pair_step name other d opt d' opt' :
  shared_key_pair name other (d, opt) = inr (d', opt') ->
  in_step name d opt ->
  processed [name] d d' /\ in_step name d' opt' /\
  (own_value_or_none d name -> own_value_or_none d' name) /\
  (share_key d name other ->
   forbids d' other name = true /\
   (own_value_or_none d name ->
    GetNestedDictValue d' name "value" = Some (TStr name)) /\
   NestedDictKeyExists d name "parameter" = false /\
   NestedDictKeyExists d name "argument" = false /\
   NestedDictKeyExists d name "catchall" = false).
Proof.
  intros Hpair Hin.
  apply shared_key_pair_inv in Hpair
    as [(-> & -> & Hno)|(Hp & Ha & Hc & [(Hv & -> & ->)|(Hv & -> & ->)])].
  - split; [apply processed_refl|]. split; [exact Hin|]. split; [auto|].
    intros Hs.
    destruct (share_key_in_step name other d opt Hin Hs)
      as (oo & k1 & k2 & E1 & E2 & E3 & E4 & E5).
    exfalso. exact (Hno oo k1 k2 E1 E2 E3 E4 E5).
  - assert (Hflags : NestedDictKeyExists d name "parameter" = false /\
                     NestedDictKeyExists d name "argument" = false /\
                     NestedDictKeyExists d name "catchall" = false).
    { destruct Hin as [Hk _]. rewrite !NestedDictKeyExists_get.
      rewrite <- !Hk by discriminate. unfold DictKeyExists in Hp, Ha, Hc.
      repeat split;
        [destruct (dict_get "parameter" opt)|destruct (dict_get "argument" opt)
        |destruct (dict_get "catchall" opt)]; congruence. }
    split.
    { eapply processed_trans; [apply forbid_added_processed|].
      apply processed_value. left. }
    split; [apply in_step_value; now apply forbid_added_in_step|].
    split; [intros _; apply own_value_set|].
    intros Hs. split.
    { unfold forbids. rewrite GetNested_Set_ne by (right; discriminate).
      apply forbid_added_forbids. }
    split; [intros _; apply GetNested_Set_eq|exact Hflags].
  - assert (Hflags : NestedDictKeyExists d name "parameter" = false /\
                     NestedDictKeyExists d name "argument" = false /\
                     NestedDictKeyExists d name "catchall" = false).
    { destruct Hin as [Hk _]. rewrite !NestedDictKeyExists_get.
      rewrite <- !Hk by discriminate. unfold DictKeyExists in Hp, Ha, Hc.
      repeat split;
        [destruct (dict_get "parameter" opt)|destruct (dict_get "argument" opt)
        |destruct (dict_get "catchall" opt)]; congruence. }
    assert (Hval : own_value_or_none d name ->
                   GetNestedDictValue d name "value" = Some (TStr name)).
    { destruct Hin as [_ Hvv]. rewrite Hv in Hvv.
      rewrite NestedDictKeyExists_get in Hvv.
      intros [Hn|Hs]; [rewrite Hn in Hvv; discriminate|exact Hs]. }
    split; [apply forbid_added_processed|].
    split; [now apply forbid_added_in_step|].
    split.
    { unfold own_value_or_none.
      now rewrite forbid_added_get by discriminate. }
    intros Hs. split; [apply forbid_added_forbids|].
    split; [|exact Hflags].
    intros Hown. rewrite forbid_added_get by discriminate. auto.
Qed.

Lemma share_key_processed names d d' a b :
  processed names d d' -> share_key d a b -> share_key d' a b.
Proof.
  intros (A1 & _) (Hne & ka & kb & Ha & Hb & Hs).
  split; [exact Hne|]. exists ka, kb.
  rewrite !A1 by discriminate. auto.
Qed.

Lemma shared_key_loop_step name others : forall d opt d' opt',
  shared_key_loop name others (d, opt) = inr (d', opt') ->
  in_step name d opt ->
  processed [name] d d' /\ in_step name d' opt' /\
  (own_value_or_none d name -> own_value_or_none d' name) /\
  (forall other, other ∈ others -> share_key d name other ->
   forbids d' other name = true /\
   (own_value_or_none d name ->
    GetNestedDictValue d' name "value" = Some (TStr name)) /\
   NestedDictKeyExists d name "parameter" = false /\
   NestedDictKeyExists d name "argument" = false /\
   NestedDictKeyExists d name "catchall" = false).
Proof.
  induction others as [|o r IH]; intros d opt d' opt';
    cbn [shared_key_loop].
  - intros [= <- <-] Hin. split; [apply processed_refl|].
    split; [exact Hin|]. split; [auto|].
    intros other Ho. now apply elem_of_nil in Ho.
  - destruct (shared_key_pair name o (d, opt)) as [m|[d1 opt1]] eqn:Ep;
      [discriminate|].
    intros Hloop Hin.

    destruct (shared_key_pair_step name o d opt d1 opt1 Ep Hin)
      as (P1 & I1 & O1 & S1).
    destruct (IH d1 opt1 d' opt' Hloop I1) as (P2 & I2 & O2 & S2).
    split; [now apply (processed_trans _ d d1 d')|].
    split; [exact I2|]. split; [auto|].
    intros other Ho Hs. apply elem_of_cons in Ho as [->|Ho].
    + destruct (S1 Hs) as (F & V & Hflags).
      destruct P2 as (_ & B2 & B3 & _).
      split; [now apply B2|]. split; [|exact Hflags].
      intros Hown. apply B3. auto.
    + destruct (S2 other Ho (share_key_processed _ _ _ _ _ P1 Hs))
        as (F & V & Hp & Ha & Hc).
      split; [exact F|]. split; [auto|].
      destruct P1 as (A1 & _).
      rewrite !NestedDictKeyExists_get in *.
      rewrite !A1 in Hp, Ha, Hc by discriminate. auto.
Qed.

Lemma process_element_step ctx keys name d d' :
  process_element ctx keys name d = inr d' ->
  processed [name] d d' /\
  (forall other, other ∈ keys -> share_key d name other ->
   forbids d' other name = true /\
   (own_value_or_none d name ->
    GetNestedDictValue d' name "value" = Some (TStr name)) /\
   NestedDictKeyExists d name "parameter" = false /\
   NestedDictKeyExists d name "argument" = false /\
   NestedDictKeyExists d name "catchall" = false).
Proof.
  unfold process_element.
  destruct (dict_get name d) as [opt|] eqn:E.
  2:{ intros [= <-]. split; [apply processed_refl|].
      intros other _ (_ & ka & _ & Ha & _).
      unfold GetNestedDictValue in Ha. rewrite E in Ha. discriminate. }
  destruct (undefined_reference d name opt); [discriminate|].
  pose proof (reciprocal_processed ctx name opt d) as P0.
  set (d1 := reciprocal_requirements ctx name opt d) in *.
  destruct (shared_key_loop name keys (d1, opt)) as [m|[d2 opt2]] eqn:El;
    [discriminate|].
  intros [= <-].
  assert (Hin : in_step name d opt).
  { split.
    - intros k _ _ _. unfold GetNestedDictValue. now rewrite E.
    - unfold NestedDictKeyExists. now rewrite E. }
  apply (in_step_processed name d d1 opt) in Hin; [|exact P0].
  destruct (shared_key_loop_step name keys d1 opt d2 opt2 El Hin)
    as (P1 & _ & _ & S1).
  split.
  { eapply processed_trans; [|exact P1].
    eapply processed_weaken; [|exact P0].
    intros x Hx. now apply elem_of_nil in Hx. }
  intros other Ho Hs.
  destruct (S1 other Ho (share_key_processed _ _ _ _ _ P0 Hs))
    as (F & V & Hp & Ha & Hc).
  destruct P0 as (A1 & _ & _ & A4).
  split; [exact F|]. split.
  - intros Hown. apply V. unfold own_value_or_none in *.
    rewrite A4 by apply not_elem_of_nil. exact Hown.
  - rewrite !NestedDictKeyExists_get in *.
    rewrite !A1 in Hp, Ha, Hc by discriminate. auto.
Qed.


Lemma GetNested_Some_key d x k v :
  GetNestedDictValue d x k = Some v -> x ∈ DictKeys d.
Proof.
  unfold GetNestedDictValue, DictKeys.
  destruct (dict_get x d) as [sub|] eqn:E; [|discriminate].
  intros _. apply dict_get_In in E. apply list_elem_of_In.
  apply in_map_iff. now exists (x, sub).
Qed.


(** *** The constraints at the check *)






Ltac case_innermost :=
  match goal with
  | |- context [match ?x with _ => _ end] =>
      lazymatch x with
      | context [match _ with _ => _ end] => fail
      | _ => destruct x
      end
  end.

Section Kept.
Context {interp : Interp}.








End Kept.


Lemma first_some_None {A B} (f : A -> option B) l :
  first_some f l = None -> forall a, In a l -> f a = None.
Proof.
  induction l as [|a r IH]; simpl; [contradiction|].
  destruct (f a) as [b'|] eqn:E; [discriminate|].
  intros H a' [<-|Hin]; auto.
Qed.









(** * Further properties of the code *)

(** ** Lists and strings *)

Lemma str_app_cons x (a b : string) : String x a +:+ b = String x (a +:+ b).
Proof. reflexivity. Qed.

Lemma str_app_nil_l (a : string) : "" +:+ a = a.
Proof. reflexivity. Qed.

Lemma str_app_assoc (a b c : string) : (a +:+ b) +:+ c = a +:+ (b +:+ c).
Proof.
  induction a as [|x a IH]; [reflexivity|].
  now rewrite !str_app_cons, IH.
Qed.

Lemma str_app_nil_r (a : string) : a +:+ "" = a.
Proof.
  induction a as [|x a IH]; [reflexivity|]. now rewrite str_app_cons, IH.
Qed.

Lemma ListRange_nonneg {A} (l : list A) (start end_ : Z) :
  0 <= start ->
  ListRange l start end_
  = take (Z.to_nat (end_ - start + 1)) (drop (Z.to_nat start) l).
Proof.
  intros Hs. unfold ListRange.
  repeat match goal with
         | |- context [Z.leb ?a ?b] => destruct (Z.leb_spec a b)
         | |- context [Z.ltb ?a ?b] => destruct (Z.ltb_spec a b)
         end; simpl; try (exfalso; lia);
    first
      [ reflexivity
      | rewrite (drop_ge l (Z.to_nat start)) by lia; now rewrite take_nil
      | replace (Z.to_nat (end_ - start + 1)) with 0%nat by lia;
        now rewrite take_0
      | rewrite !take_ge by (rewrite length_drop; lia); reflexivity ].
Qed.

(** X1.  [ListRange] gives the elements at the indices from [start] to
    [end], as far as the list has them, and nothing else. *)
Theorem ListRange_lookup {A} (l : list A) (start end_ : Z) (i : nat) :
  0 <= start ->
  ListRange l start end_ !! i
  = if start + Z.of_nat i <=? end_ then l !! (Z.to_nat start + i)%nat
    else None.
Proof.
  intros Hs. rewrite ListRange_nonneg by assumption.
  destruct (Z.leb_spec (start + Z.of_nat i) end_) as [Hle|Hgt].
  - rewrite lookup_take_lt by lia. apply lookup_drop.
  - apply lookup_take_ge. lia.
Qed.

Lemma ListRange_lookup_witness :
  ListRange [TStr "a"; TStr "b"; TStr "c"] 1 7 !! 1%nat = Some (TStr "c").
Proof.
  rewrite (ListRange_lookup [TStr "a"; TStr "b"; TStr "c"] 1 7 1); [|lia].
  reflexivity.
Defined.

Lemma rev_app_append (cur acc : string) :
  String.rev_app cur acc = String.rev cur +:+ acc.
Proof.
  unfold String.rev. revert acc.
  induction cur as [|c cur IH]; intros acc; simpl; [reflexivity|].
  rewrite (IH (String c acc)), (IH (String c "")).
  now rewrite str_app_assoc.
Qed.

Lemma rev_cons c (cur : string) :
  String.rev (String c cur) = String.rev cur +:+ String c "".
Proof. unfold String.rev at 1. simpl. apply rev_app_append. Qed.

Lemma split_go_cons seps : forall s cur,
  exists x r, split_go seps cur s = x :: r.
Proof.
  induction s as [|a s IH]; intros cur; simpl; [eauto|].
  destruct (str_any (Ascii.eqb a) seps); eauto.
Qed.

Lemma concat_cons sep x y (r : list string) :
  String.concat sep (x :: y :: r) = x +:+ sep +:+ String.concat sep (y :: r).
Proof. reflexivity. Qed.

Lemma split_go_join c : forall s cur,
  String.concat (String c "") (split_go (String c "") cur s)
  = String.rev cur +:+ s.
Proof.
  induction s as [|a s IH]; intros cur; simpl.
  - now rewrite str_app_nil_r.
  - rewrite orb_false_r. destruct (Ascii.eqb_spec a c) as [->|Hne].
    + destruct (split_go_cons (String c "") s "") as (x & r & E).
      specialize (IH ""). rewrite E in *. rewrite concat_cons, IH.
      reflexivity.
    + rewrite IH, rev_cons. now rewrite str_app_assoc.
Qed.

Lemma join_chars : forall s acc,
  fold_left (fun result e => result +:+ e) (str_chars s) acc = acc +:+ s.
Proof.
  induction s as [|c s IH]; intros acc; simpl.
  - now rewrite str_app_nil_r.
  - rewrite IH. now rewrite str_app_assoc.
Qed.

Lemma str_any_rev_app p : forall a b,
  str_any p (String.rev_app a b) = str_any p a || str_any p b.
Proof.
  induction a as [|c a IH]; intros b; simpl; [reflexivity|].
  rewrite IH. simpl. destruct (p c), (str_any p a); reflexivity.
Qed.

Lemma split_go_pieces seps : forall s cur piece,
  str_any (fun a => str_any (Ascii.eqb a) seps) cur = false ->
  piece ∈ split_go seps cur s ->
  str_any (fun a => str_any (Ascii.eqb a) seps) piece = false.
Proof.
  induction s as [|a s IH]; intros cur piece Hcur; simpl.
  - intros H. apply list_elem_of_singleton in H as ->.
    unfold String.rev. rewrite str_any_rev_app, Hcur. reflexivity.
  - destruct (str_any (Ascii.eqb a) seps) eqn:Ea.
    + intros H. apply elem_of_cons in H as [->|H].
      * unfold String.rev. rewrite str_any_rev_app, Hcur. reflexivity.
      * now apply (IH "" piece).
    + apply IH. simpl. now rewrite Ea.
Qed.

(** X2.  Splitting and joining are inverse to each other: a string split
    into its characters and joined again, or split at a separator character
    and joined with it, is the string; and no piece of a split holds a
    separator. *)
Theorem split_join_round_trip (s : string) :
  JoinWithEmptySeparator (SplitString s "") = s /\
  (forall c, JoinListWithSeparator (SplitString s (String c ""))
               (String c "") = s) /\
  (forall seps piece,
     seps <> "" -> piece ∈ SplitString s seps ->
     str_any (fun a => str_any (Ascii.eqb a) seps) piece = false).
Proof.
  split; [|split].
  - unfold JoinWithEmptySeparator, SplitString. apply join_chars.
  - intros c. unfold JoinListWithSeparator, str_join, SplitString.
    apply split_go_join.
  - intros seps piece Hne. unfold SplitString.
    destruct seps as [|c seps]; [contradiction|].
    now apply split_go_pieces.
Qed.

(** ** Dictionaries *)

Lemma DictKeys_put_elem {V} k k' (v : V) d :
  k ∈ DictKeys (dict_put k' v d) <-> k = k' \/ k ∈ DictKeys d.
Proof.
  unfold DictKeys. induction d as [|[k2 v2] r IH]; simpl.
  - rewrite list_elem_of_singleton. split; [auto|].
    intros [H|H]; [assumption|]. now apply elem_of_nil in H.
  - destruct (String.eqb_spec k' k2) as [->|Hne]; simpl.
    + rewrite elem_of_cons. tauto.
    + rewrite !elem_of_cons, IH. tauto.
Qed.

Lemma dict_put_unique {V} k (v : V) d :
  dict_unique d -> dict_unique (dict_put k v d).
Proof.
  unfold dict_unique. induction d as [|[k2 v2] r IH]; simpl; intros H.
  - apply NoDup_singleton.
  - apply NoDup_cons in H as [Hin Hr].
    destruct (String.eqb_spec k k2) as [->|Hne]; simpl.
    + now apply NoDup_cons.
    + apply NoDup_cons. split; [|auto].
      intros Hk. apply (DictKeys_put_elem k2 k v r) in Hk as [Hk|Hk];
        [congruence|contradiction].
Qed.

Lemma dict_get_None_keys {V} k (d : odict V) :
  dict_get k d = None <-> k ∉ DictKeys d.
Proof.
  unfold DictKeys. induction d as [|[k2 v2] r IH]; simpl.
  - split; [intros _; apply not_elem_of_nil|reflexivity].
  - rewrite not_elem_of_cons.
    destruct (String.eqb_spec k k2) as [->|Hne]; [|rewrite IH; tauto].
    split; [discriminate|]. intros [H _]. congruence.
Qed.

Lemma dict_get_remove_eq {V} k (d : odict V) :
  dict_unique d -> dict_get k (dict_remove k d) = None.
Proof.
  unfold dict_unique. induction d as [|[k2 v2] r IH]; simpl; intros H;
    [reflexivity|].
  apply NoDup_cons in H as [Hin Hr].
  destruct (String.eqb_spec k k2) as [->|Hne]; simpl.
  - now apply dict_get_None_keys.
  - destruct (String.eqb_spec k k2); [congruence|auto].
Qed.

Lemma dict_put_put {V} k (v1 v2 : V) d :
  dict_put k v2 (dict_put k v1 d) = dict_put k v2 d.
Proof.
  induction d as [|[k2 w] r IH]; simpl.
  - now rewrite String.eqb_refl.
  - destruct (String.eqb k k2) eqn:E; simpl; rewrite E; [reflexivity|].
    now rewrite IH.
Qed.

(** X3.  A value written into a dictionary of dictionaries is the one read
    back, a key that was unset is read as missing, and neither operation
    changes what is read at any other pair of keys. *)
Theorem nested_dict_round_trip (d : odict optdict) (outer inner : string)
    (v : tobj) :
  (forall sub, dict_get outer d = Some sub -> dict_unique sub) ->
  GetNestedDictValue (SetNestedDictKey d outer inner v) outer inner = Some v /\
  GetNestedDictValue (UnsetNestedDictKey d outer inner) outer inner = None /\
  NestedDictKeyExists
    (UnsetNestedDictKey (SetNestedDictKey d outer inner v) outer inner)
    outer inner = false /\
  forall o i, o <> outer \/ i <> inner ->
    GetNestedDictValue (SetNestedDictKey d outer inner v) o i
    = GetNestedDictValue d o i /\
    GetNestedDictValue (UnsetNestedDictKey d outer inner) o i
    = GetNestedDictValue d o i.
Proof.
  intros Huniq. split; [apply GetNested_Set_eq|]. split; [|split].
  - unfold GetNestedDictValue, UnsetNestedDictKey.
    destruct (dict_get outer d) as [sub|] eqn:E; [|now rewrite E].
    rewrite dict_get_put_eq. apply dict_get_remove_eq. now apply Huniq.
  - rewrite NestedDictKeyExists_get.
    unfold GetNestedDictValue, UnsetNestedDictKey, SetNestedDictKey.
    rewrite !dict_get_put_eq. rewrite dict_get_remove_eq; [reflexivity|].
    apply dict_put_unique.
    destruct (dict_get outer d) as [sub|] eqn:E; simpl;
      [now apply Huniq|apply NoDup_nil_2].
  - intros o i Hne. split.
    + now apply GetNested_Set_ne.
    + now apply GetNested_Unset_ne.
Qed.

Lemma nested_dict_round_trip_witness :
  GetNestedDictValue
    (SetNestedDictKey [("a", [("key", TStr "x")])] "a" "default" (TStr "1"))
    "a" "default" = Some (TStr "1") /\
  GetNestedDictValue
    (UnsetNestedDictKey [("a", [("key", TStr "x")])] "a" "key") "a" "key"
  = None.
Proof.
  split.
  - apply (nested_dict_round_trip [("a", [("key", TStr "x")])] "a" "default").
    intros sub [= <-]. apply NoDup_singleton.
  - apply (nested_dict_round_trip [("a", [("key", TStr "x")])] "a" "key"
             (TStr "")).
    intros sub [= <-]. apply NoDup_singleton.
Defined.

(** X4.  Appending to the list stored at a key composes: two appends are one
    append of both lists in order; the key then holds the former elements
    followed by the new ones, every other key keeps its value, and the key
    keeps its place among the keys (a new key goes last). *)
Theorem DictLappend_compose (d : odict tobj) (key : string)
    (a b : list tobj) :
  DictLappend (DictLappend d key a) key b = DictLappend d key (a ++ b) /\
  dict_get key (DictLappend d key a)
  = Some (TList (match dict_get key d with
                 | Some e => as_list e
                 | None => []
                 end ++ a)) /\
  (forall k, k <> key ->
     dict_get k (DictLappend d key a) = dict_get k d) /\
  DictKeys (DictLappend d key a)
  = if DictKeyExists d key then DictKeys d else DictKeys d ++ [key].
Proof.
  unfold DictLappend. split; [|split; [|split]].
  - rewrite dict_get_put_eq, dict_put_put. simpl. now rewrite app_assoc.
  - apply dict_get_put_eq.
  - intros k Hne. now apply dict_get_put_ne.
  - destruct (DictKeyExists d key) eqn:E.
    + now apply DictKeys_put_present.
    + now apply DictKeys_put_absent.
Qed.

(** ** Global switches *)

Lemma has_bit (m : Z) (id : nat) :
  negb (Z.land m (bit id) =? 0) = Z.testbit m (Z.of_nat id).
Proof.
  unfold bit. rewrite Z.shiftl_1_l.
  destruct (Z.testbit m (Z.of_nat id)) eqn:E.
  - destruct (Z.eqb_spec (Z.land m (2 ^ Z.of_nat id)) 0) as [H0|];
      [|reflexivity].
    exfalso.
    assert (Z.testbit (Z.land m (2 ^ Z.of_nat id)) (Z.of_nat id) = true) as Hb.
    { rewrite Z.land_spec, E, Z.pow2_bits_true by lia. reflexivity. }
    rewrite H0, Z.bits_0 in Hb. discriminate.
  - replace (Z.land m (2 ^ Z.of_nat id)) with 0; [reflexivity|].
    symmetry. apply Z.bits_inj'. intros k Hk.
    rewrite Z.land_spec, Z.bits_0, Z.pow2_bits_eqb by lia.
    destruct (Z.eqb_spec (Z.of_nat id) k) as [<-|]; [|apply andb_false_r].
    now rewrite E.
Qed.

Lemma HAS_GLOBAL_SWITCH_Set ctx id value id' :
  HAS_GLOBAL_SWITCH (SetGlobalSwitch ctx id value) id'
  = (id' =? id)%nat || HAS_GLOBAL_SWITCH ctx id'.
Proof.
  unfold HAS_GLOBAL_SWITCH, SetGlobalSwitch. cbn [globalSwitchesMask].
  rewrite !has_bit, Z.lor_spec. unfold bit.
  rewrite Z.shiftl_1_l, Z.pow2_bits_eqb by lia.
  destruct (Nat.eqb_spec id' id) as [->|Hne].
  - rewrite Z.eqb_refl. apply orb_true_r.
  - destruct (Z.eqb_spec (Z.of_nat id) (Z.of_nat id')); [lia|].
    apply orb_false_r.
Qed.

(** X5.  Setting a global switch marks it as present and leaves the presence
    of every other switch as it was; its argument is stored when the switch
    takes one and an argument is given, and no other argument changes. *)
Theorem SetGlobalSwitch_lookup ctx id value id' :
  length (values ctx) = GLOBAL_SWITCH_COUNT ->
  (id < GLOBAL_SWITCH_COUNT)%nat ->
  HAS_GLOBAL_SWITCH (SetGlobalSwitch ctx id value) id'
  = (id' =? id)%nat || HAS_GLOBAL_SWITCH ctx id' /\
  GLOBAL_SWITCH_ARG (SetGlobalSwitch ctx id value) id'
  = (if (id' =? id)%nat && takes_arg id
     then match value with
          | Some v => Some v
          | None => GLOBAL_SWITCH_ARG ctx id'
          end
     else GLOBAL_SWITCH_ARG ctx id') /\
  length (values (SetGlobalSwitch ctx id value)) = GLOBAL_SWITCH_COUNT.
Proof.
  intros Hlen Hid. split; [apply HAS_GLOBAL_SWITCH_Set|].
  unfold GLOBAL_SWITCH_ARG, SetGlobalSwitch. cbn [values].
  destruct value as [v|], (takes_arg id);
    rewrite ?andb_true_r, ?andb_false_r, ?length_insert;
    try (split; [|assumption]);
    try (destruct (id' =? id)%nat; reflexivity).
  destruct (Nat.eqb_spec id' id) as [->|Hne].
  - rewrite list_lookup_insert_eq by lia. reflexivity.
  - rewrite list_lookup_insert_ne by congruence. reflexivity.
Qed.

Lemma SetGlobalSwitch_lookup_witness :
  HAS_GLOBAL_SWITCH
    (SetGlobalSwitch noGlobalSwitches GLOBAL_SWITCH_LEVEL (Some (TStr "2")))
    GLOBAL_SWITCH_LEVEL = true /\
  GLOBAL_SWITCH_ARG
    (SetGlobalSwitch noGlobalSwitches GLOBAL_SWITCH_LEVEL (Some (TStr "2")))
    GLOBAL_SWITCH_LEVEL = Some (TStr "2").
Proof.
  pose proof (SetGlobalSwitch_lookup noGlobalSwitches GLOBAL_SWITCH_LEVEL
                (Some (TStr "2")) GLOBAL_SWITCH_LEVEL eq_refl) as H.
  destruct H as (H1 & H2 & _);
    [unfold GLOBAL_SWITCH_LEVEL, GLOBAL_SWITCH_COUNT; lia|].
  split; [apply H1|apply H2].
Defined.

(** ** Matching by prefix *)

Lemma prefix_refl (s : string) : String.prefix s s = true.
Proof.
  induction s as [|c s IH]; simpl; [reflexivity|].
  destruct (Ascii.ascii_dec c c); [assumption|congruence].
Qed.

Lemma index_scan_spec key : forall r pre na found,
  match index_scan r key (length pre) na found with
  | inl i => (pre ++ r) !! i = Some key /\ In key r
  | inr (na', f') =>
      ~ In key r /\
      na' = (na + length (List.filter (String.prefix key) r))%nat /\
      (if (na' =? na)%nat then f' = found
       else exists e, (pre ++ r) !! f' = Some e /\ In e r /\
                      String.prefix key e = true)
  end.
Proof.
  induction r as [|e r IH]; intros pre na found; simpl.
  - rewrite Nat.add_0_r, Nat.eqb_refl. auto.
  - destruct (String.eqb_spec key e) as [->|Hne].
    + split; [|now left].
      rewrite lookup_app_r by lia. now rewrite Nat.sub_diag.
    + specialize (IH (pre ++ [e])).
      rewrite length_app, Nat.add_1_r, <- app_assoc in IH. simpl in IH.
      destruct (String.prefix key e) eqn:Ep.
      * specialize (IH (S na) (length pre)).
        destruct (index_scan r key (S (length pre)) (S na) (length pre))
          as [i|[na' f']].
        { destruct IH as [H1 H2]. auto. }
        destruct IH as (Hin & -> & Hf). cbn [length].
        set (n := length (List.filter (String.prefix key) r)) in *.
        split; [intros [?|?]; [congruence|contradiction]|].
        split; [lia|].
        destruct (Nat.eqb_spec (S na + n) na); [lia|].
        destruct (Nat.eqb_spec (S na + n) (S na)).
        -- subst f'. exists e. split; [|split; [now left|assumption]].
           rewrite lookup_app_r by lia. now rewrite Nat.sub_diag.
        -- destruct Hf as (e' & ? & ? & ?). exists e'.
           split; [assumption|split; [now right|assumption]].
      * specialize (IH na found).
        destruct (index_scan r key (S (length pre)) na found)
          as [i|[na' f']].
        { destruct IH as [H1 H2]. auto. }
        destruct IH as (Hin & -> & Hf).
        split; [intros [?|?]; [congruence|contradiction]|].
        split; [reflexivity|].
        destruct (_ =? _)%nat; [assumption|].
        destruct Hf as (e' & ? & ? & ?). exists e'.
        split; [assumption|split; [now right|assumption]].
Qed.

Lemma nth_of_lookup (l : list string) i x :
  l !! i = Some x -> nth i l "" = x.
Proof.
  revert i. induction l as [|y l IH]; intros [|i]; simpl; try discriminate.
  - now intros [= ->].
  - apply IH.
Qed.

(** X6.  What matching by prefix gives: a key that is in the table matches
    itself, whatever else it abbreviates; any other match is an entry of the
    table that starts with the key, found only without [-exact], for a key
    that is not empty and abbreviates exactly one entry; and such a key
    always matches. *)
Theorem PrefixMatch_result (table : list string) (key : string)
    (exact : bool) (msg : string) :
  (In key table -> PrefixMatch table key exact msg = inr key) /\
  (forall v, PrefixMatch table key exact msg = inr v ->
     In v table /\ String.prefix key v = true /\
     (v <> key ->
      exact = false /\ key <> "" /\
      length (List.filter (String.prefix key) table) = 1%nat)) /\
  (~ In key table -> exact = false -> key <> "" ->
   length (List.filter (String.prefix key) table) = 1%nat ->
   exists v, PrefixMatch table key exact msg = inr v).
Proof.
  unfold PrefixMatch, GetIndexFromObj.
  pose proof (index_scan_spec key table [] 0 0) as H. simpl in H.
  destruct (index_scan table key 0 0 0) as [i|[na f]].
  - destruct H as [Hi Hin]. rewrite (nth_of_lookup _ _ _ Hi).
    split; [reflexivity|]. split.
    + intros v [= <-]. split; [assumption|].
      split; [apply prefix_refl|congruence].
    + contradiction.
  - destruct H as (Hnin & -> & Hf). split; [contradiction|]. split.
    + intros v.
      destruct exact; [discriminate|]. simpl.
      destruct (String.eqb_spec key ""); [discriminate|]. simpl.
      destruct (Nat.eqb_spec (length (List.filter (String.prefix key) table)) 1)
        as [E|]; [|discriminate].
      simpl. rewrite E in Hf. simpl in Hf.
      destruct Hf as (e & He & Hin & Hp).
      rewrite (nth_of_lookup _ _ _ He). intros [= <-]. auto.
    + intros _ -> Hk E. rewrite E. simpl.
      destruct (String.eqb_spec key ""); [contradiction|]. simpl. eauto.
Qed.

Lemma PrefixMatch_inr table key exact msg v :
  PrefixMatch table key exact msg = inr v ->
  In v table /\ String.prefix key v = true.
Proof.
  unfold PrefixMatch, GetIndexFromObj.
  pose proof (index_scan_spec key table [] 0 0) as H. simpl in H.
  destruct (index_scan table key 0 0 0) as [i|[na f]].
  - destruct H as [Hi Hin]. rewrite (nth_of_lookup _ _ _ Hi).
    intros [= <-]. split; [assumption|apply prefix_refl].
  - destruct H as (Hnin & -> & Hf).
    destruct (exact || String.eqb key "")%bool; [discriminate|]. simpl.
    destruct (Nat.eqb_spec (length (List.filter (String.prefix key) table)) 1)
      as [E|]; [|discriminate].
    simpl. rewrite E in Hf. simpl in Hf.
    destruct Hf as (e & He & Hin & Hp).
    rewrite (nth_of_lookup _ _ _ He). intros [= <-]. auto.
Qed.

(** ** Validation and type checking *)

Section Validation.
Context {interp : Interp}.

(** What passes for a value of an enumeration. *)
Lemma validate_value_enum ctx nameObj optDict enumList arg :
  dict_get "enum" optDict = Some enumList ->
  fst (validate_value ctx nameObj optDict arg) = [] /\
  forall v, snd (validate_value ctx nameObj optDict arg) = inr v ->
    exists s, v = TStr s /\ In s (map to_string (as_list enumList)) /\
              String.prefix (to_string arg) s = true.
Proof.
  intros E. unfold validate_value. rewrite E. cbn [fst snd].
  split; [reflexivity|]. intros v.
  destruct (PrefixMatch _ _ _ _) as [m|s] eqn:Ep; [discriminate|].
  intros [= <-]. exists s. split; [reflexivity|].
  eapply PrefixMatch_inr, Ep.
Qed.

Lemma validate_values_enum ctx nameObj optDict enumList args :
  dict_get "enum" optDict = Some enumList ->
  fst (validate_values ctx nameObj optDict args) = [] /\
  forall vs, snd (validate_values ctx nameObj optDict args) = inr vs ->
    Forall2 (fun a v =>
               exists s, v = TStr s /\
                 In s (map to_string (as_list enumList)) /\
                 String.prefix (to_string a) s = true) args vs.
Proof.
  intros E. induction args as [|a r IH]; cbn [validate_values].
  - split; [reflexivity|]. intros vs [= <-]. constructor.
  - destruct (validate_value_enum ctx nameObj optDict enumList a E)
      as [Hops Hv].
    destruct (validate_value ctx nameObj optDict a) as [ops [m|v]];
      cbn [fst snd] in *; subst ops; [split; [reflexivity|discriminate]|].
    destruct IH as [Hops' Hvs].
    destruct (validate_values ctx nameObj optDict r) as [ops' [m|vs]];
      cbn [fst snd] in *; subst ops'; (split; [reflexivity|]);
      [discriminate|].
    intros ? [= <-]. constructor; auto.
Qed.

(** X7.  A value checked against an enumeration is replaced by the entry of
    the enumeration it names or abbreviates, one entry for each element when
    the argument is a list, and the check touches no variable. *)
Theorem enum_validation ctx nameObj optDict enumList argObj listFlag :
  dict_get "enum" optDict = Some enumList ->
  fst (ValidateHelper ctx nameObj optDict argObj listFlag) = [] /\
  forall v, snd (ValidateHelper ctx nameObj optDict argObj listFlag) = inr v ->
    Forall2 (fun a r =>
               exists s, r = TStr s /\
                 In s (map to_string (as_list enumList)) /\
                 String.prefix (to_string a) s = true)
      (if listFlag then as_list argObj else [argObj])
      (if listFlag then as_list v else [v]).
Proof.
  intros E. unfold ValidateHelper. destruct listFlag.
  - destruct (validate_values_enum ctx nameObj optDict enumList
                (as_list argObj) E) as [Hops Hvs].
    destruct (validate_values ctx nameObj optDict (as_list argObj))
      as [ops [m|vs]]; cbn [fst snd] in *; subst ops;
      (split; [reflexivity|]); [discriminate|].
    unfold DictKeyExists. rewrite E. intros v [= <-]. simpl. auto.
  - destruct (validate_value_enum ctx nameObj optDict enumList argObj E)
      as [Hops Hv].
    split; [assumption|]. intros v Hs. constructor; [auto|constructor].
Qed.


End Validation.

Lemma enum_validation_witness :
  fst (ValidateHelper (interp := literal_interp) noGlobalSwitches "-mode"
         [("enum", TList [TStr "fast"; TStr "slow"])] (TStr "sl") false)
  = [] /\
  forall v,
    snd (ValidateHelper (interp := literal_interp) noGlobalSwitches "-mode"
           [("enum", TList [TStr "fast"; TStr "slow"])] (TStr "sl") false)
    = inr v ->
    Forall2 (fun a r =>
               exists s, r = TStr s /\
                 In s ["fast"; "slow"] /\
                 String.prefix (to_string a) s = true)
      [TStr "sl"] [v].
Proof.
  apply (enum_validation (interp := literal_interp) noGlobalSwitches
           "-mode" [("enum", TList [TStr "fast"; TStr "slow"])]
           (TList [TStr "fast"; TStr "slow"]) (TStr "sl") false).
  reflexivity.
Defined.

(** ** The switch loop *)

Lemma imply_arguments_none name d argv :
  imply_weight d = 0%nat -> imply_arguments name d argv = (d, argv).
Proof.
  intros Hw. unfold imply_arguments.
  destruct (GetNestedDictValue d name "imply") as [v|] eqn:E; [|reflexivity].
  apply imply_weight_Unset_imply in E. lia.
Qed.

Lemma ListRange_tail_all {A} (l : list A) (e : Z) :
  Z.of_nat (length l) <= e + 1 -> ListRange l 1 e = tl l.
Proof.
  intros Hl. rewrite ListRange_nonneg by lia.
  destruct l as [|x l]; [now rewrite drop_nil, take_nil|].
  change (Z.to_nat 1) with 1%nat. simpl drop. rewrite drop_0.
  simpl in Hl. simpl. apply take_ge. lia.
Qed.

Section LoopBound.
Context {interp : Interp}.

Lemma switch_loop_more_fuel ctx end_ fuel : forall st r fuel',
  switch_loop fuel ctx end_ st = Some r -> (fuel <= fuel')%nat ->
  switch_loop fuel' ctx end_ st = Some r.
Proof.
  induction fuel as [|fuel IH]; intros st r fuel' H Hle; [discriminate|].
  destruct fuel' as [|fuel']; [lia|]. simpl in *.
  destruct (sArgv st) as [|arg argv]; [assumption|].
  destruct (switch_step ctx end_ st arg argv); try assumption.
  apply (IH _ _ _ H). lia.
Qed.

(** X9.  The switch loop always ends, whatever the switches imply: the fuel
    computed from the argument list and the [-imply] lists is enough, and
    more fuel gives the same outcome. *)
Theorem switch_loop_terminates ctx end_ st fuel :
  (switch_fuel st <= fuel)%nat ->
  switch_loop (switch_fuel st) ctx end_ st <> None /\
  switch_loop fuel ctx end_ st = switch_loop (switch_fuel st) ctx end_ st.
Proof.
  intros Hle.
  assert (switch_loop (switch_fuel st) ctx end_ st <> None) as Hn.
  { apply switch_loop_ends. unfold switch_fuel. lia. }
  split; [assumption|].
  destruct (switch_loop (switch_fuel st) ctx end_ st) as [r|] eqn:E;
    [|congruence].
  now apply (switch_loop_more_fuel ctx end_ (switch_fuel st)).
Qed.

Lemma switch_step_end ctx e1 e2 st arg argv :
  imply_weight (defDict (sDef st)) = 0%nat ->
  Z.of_nat (length argv) <= e1 -> Z.of_nat (length argv) <= e2 ->
  switch_step ctx e1 st arg argv = switch_step ctx e2 st arg argv.
Proof.
  intros Hw H1 H2. unfold switch_step.
  repeat first
    [ reflexivity
    | rewrite imply_arguments_none by (now rewrite imply_weight_found)
    | rewrite !ListRange_tail_all by (simpl in *; lia)
    | case_innermost
    | progress cbn [fst snd] ].
Qed.

Lemma switch_step_weight ctx end_ st arg argv st' :
  imply_weight (defDict (sDef st)) = 0%nat ->
  switch_step ctx end_ st arg argv = SContinue st' ->
  imply_weight (defDict (sDef st')) = 0%nat.
Proof.
  intros Hw H. unfold switch_step in H.
  repeat first
    [ discriminate
    | rewrite imply_arguments_none in H by (now rewrite imply_weight_found)
    | match type of H with
      | context [match ?x with _ => _ end] =>
          lazymatch x with
          | context [match _ with _ => _ end] => fail
          | _ => destruct x
          end
      end
    | progress cbn [fst snd] in H ];
    injection H as <-; simpl; rewrite ?imply_weight_found; assumption.
Qed.

Lemma switch_loop_end ctx e1 e2 fuel : forall st,
  imply_weight (defDict (sDef st)) = 0%nat ->
  Z.of_nat (length (sArgv st)) <= e1 + 1 ->
  Z.of_nat (length (sArgv st)) <= e2 + 1 ->
  switch_loop fuel ctx e1 st = switch_loop fuel ctx e2 st.
Proof.
  induction fuel as [|fuel IH]; intros st Hw H1 H2; [reflexivity|].
  simpl. destruct (sArgv st) as [|arg argv] eqn:E; [reflexivity|].
  simpl in H1, H2.
  rewrite (switch_step_end ctx e1 e2 st arg argv) by (assumption || lia).
  destruct (switch_step ctx e2 st arg argv) as [st'| |] eqn:Es;
    try reflexivity.
  pose proof (switch_step_weight _ _ _ _ _ _ Hw Es) as Hw'.
  pose proof (switch_step_decreases _ _ _ _ _ _ Es) as Hd.
  apply IH; [assumption|lia|lia].
Qed.

End LoopBound.

Lemma no_imply_weight d : no_imply d -> imply_weight d = 0%nat.
Proof.
  unfold no_imply, imply_weight, odict.
  induction 1 as [|[x o] d Ho _ IH]; [reflexivity|].
  unfold odict in *. rewrite map_cons.
  change (list_sum (?a :: ?l)) with (a + list_sum l)%nat.
  rewrite IH, Nat.add_0_r. clear IH. cbn [snd] in *.
  unfold opt_weight. induction Ho as [|[k v] o Hk _ IH]; [reflexivity|].
  rewrite map_cons. change (list_sum (?a :: ?l)) with (a + list_sum l)%nat.
  rewrite IH, Nat.add_0_r. cbn [fst] in *.
  destruct (String.eqb_spec k "imply"); [contradiction|reflexivity].
Qed.

Lemma ListRange_tail_take {A} (l : list A) (e : Z) :
  ListRange l 1 e = take (Z.to_nat e) (tl l).
Proof.
  rewrite ListRange_nonneg by lia.
  replace (e - 1 + 1) with e by lia. change (Z.to_nat 1) with 1%nat.
  destruct l as [|x l]; [now rewrite drop_nil|]. simpl. now rewrite drop_0.
Qed.

(** X10.  When no element has an [-imply] list, the bound [end] that the
    command computes before the loop plays no part in it: the loop gives the
    same outcome with any bound that the argument list fits in. *)
Theorem end_bound_without_imply {interp : Interp} ctx e1 e2 fuel st :
  no_imply (defDict (sDef st)) ->
  (length (sArgv st) <= Z.to_nat (e1 + 1))%nat ->
  (length (sArgv st) <= Z.to_nat (e2 + 1))%nat ->
  switch_loop fuel ctx e1 st = switch_loop fuel ctx e2 st.
Proof.
  intros Hn H1 H2.
  destruct (sArgv st) as [|arg argv] eqn:E.
  - destruct fuel; simpl; [reflexivity|]. now rewrite E.
  - simpl in H1, H2.
    apply switch_loop_end; [now apply no_imply_weight| |];
      rewrite E; simpl length; lia.
Qed.

(** X11.  After a switch has taken its argument, the arguments that are kept
    are those the switch implies followed by at most [end] of the arguments
    that came after the one taken, [end] being the bound computed before the
    loop. *)
Theorem argument_round_keeps_end {interp : Interp} ctx end_ st arg argv
    name equal val ename normal st' :
  Regexp.regexpRe (HAS_GLOBAL_SWITCH ctx GLOBAL_SWITCH_LONG)
    (HAS_GLOBAL_SWITCH ctx GLOBAL_SWITCH_EQUALARG) (to_string arg)
  = Some (name, equal, val) ->
  resolve_switch ctx (sDef st) arg name = inr (ename, normal) ->
  NestedDictKeyExists (defDict (sDef st)) ename "catchall" = false ->
  NestedDictKeyExists (defDict (sDef st)) ename "argument" = true ->
  switch_step ctx end_ st arg argv = SContinue st' ->
  sArgv st'
  = implied (defDict (sDef st)) ename ++
    take (Z.to_nat end_)
      (tl (if String.eqb equal "=" then TStr val :: argv else argv)).
Proof.
  intros Hre Hres Hc Ha. unfold switch_step, implied, imply_arguments.
  rewrite Hre, Hres.
  rewrite (switch_found_exists _ ename ename "catchall") by untouched.
  rewrite (switch_found_exists _ ename ename "argument") by untouched.
  rewrite (switch_found_get _ ename ename "imply") by untouched.
  rewrite Hc, Ha. cbn [negb].
  destruct (if String.eqb equal "=" then TStr val :: argv else argv)
    as [|argLoc rest].
  - destruct (negb _); [discriminate|].
    destruct (GetNestedDictValue _ ename "imply");
      intros [= <-]; simpl; now rewrite take_nil.
  - destruct (validate_and_check _ _ _ _ _) as [ops [m|resultList]];
      [discriminate|].
    rewrite ListRange_tail_take.
    destruct (GetNestedDictValue _ ename "imply"); now intros [= <-].
Qed.

Lemma switch_loop_terminates_witness :
  let st := {| sDef := {| defDict := [("a", [("switch", TStr "");
                                              ("imply", TList [TStr "-a"]);
                                              ("key", TStr "a")])];
                          aliasesDict := []; orderList := [];
                          switchesList := ["-a"]; upvarsDict := [];
                          omittedDict := [("a", TStr "")];
                          catchall := None |};
               sArgv := [TStr "-a"]; sParams := [];
               sResult := []; sLog := [] |} in
  @switch_loop literal_interp (switch_fuel st) noGlobalSwitches 0 st <> None /\
  @switch_loop literal_interp 100 noGlobalSwitches 0 st
  = @switch_loop literal_interp (switch_fuel st) noGlobalSwitches 0 st.
Proof.
  intros st.
  apply (switch_loop_terminates (interp := literal_interp)
           noGlobalSwitches 0 st 100).
  vm_compute. lia.
Defined.

Lemma end_bound_without_imply_witness :
  let st := {| sDef := {| defDict := [("o", [("switch", TStr "");
                                              ("argument", TStr "");
                                              ("key", TStr "o")])];
                          aliasesDict := []; orderList := [];
                          switchesList := ["-o"]; upvarsDict := [];
                          omittedDict := [("o", TStr "")];
                          catchall := None |};
               sArgv := [TStr "-o"; TStr "5"; TStr "x"]; sParams := [];
               sResult := []; sLog := [] |} in
  @switch_loop literal_interp 4 noGlobalSwitches 2 st
  = @switch_loop literal_interp 4 noGlobalSwitches 7 st.
Proof.
  intros st.
  apply (end_bound_without_imply (interp := literal_interp)
           noGlobalSwitches 2 7 4 st).
  - repeat constructor; discriminate.
  - simpl. lia.
  - simpl. lia.
Defined.

Lemma argument_round_keeps_end_witness :
  let st := {| sDef := {| defDict := [("a", [("switch", TStr "");
                                              ("argument", TStr "");
                                              ("present", TStr "");
                                              ("key", TStr "a")]);
                                      ("b", [("switch", TStr "");
                                              ("argument", TStr "");
                                              ("key", TStr "b")]);
                                      ("c", [("switch", TStr "");
                                              ("argument", TStr "");
                                              ("key", TStr "c")])];
                          aliasesDict := []; orderList := [];
                          switchesList := ["-a"; "-b"; "-c"];
                          upvarsDict := [];
                          omittedDict := [("b", TStr ""); ("c", TStr "")];
                          catchall := None |};
               sArgv := [TStr "-b"; TStr "1"; TStr "-c"; TStr "2"];
               sParams := []; sResult := [("a", TStr "x")]; sLog := [] |} in
  exists st',
    @switch_step literal_interp noGlobalSwitches 1 st (TStr "-b")
      [TStr "1"; TStr "-c"; TStr "2"] = SContinue st' /\
    sArgv st' = [TStr "-c"].
Proof.
  intros st. eexists. split; [vm_compute; reflexivity|].
  apply (argument_round_keeps_end (interp := literal_interp)
           noGlobalSwitches 1 st (TStr "-b") [TStr "1"; TStr "-c"; TStr "2"]
           "b" "" "" "b" "-b"); vm_compute; reflexivity.
Defined.

(** ** The arguments set aside for the required parameters *)

Lemma ListObjReplace_delete {A} (l : list A) (first count : Z) :
  0 <= first ->
  ListObjReplace l first count []
  = take (Z.to_nat first) l ++ drop (Z.to_nat (first + Z.max 0 count)) l.
Proof.
  intros Hf. unfold ListObjReplace. cbn [app].
  destruct (Z.ltb_spec first 0); [lia|].
  destruct (Z.ltb_spec (Z.of_nat (length l)) first);
    destruct (Z.ltb_spec count 0).
  - rewrite !take_ge by lia. rewrite !drop_ge by lia. reflexivity.
  - rewrite !take_ge by lia. rewrite !drop_ge by lia. reflexivity.
  - replace (Z.max 0 count) with 0 by lia. reflexivity.
  - replace (Z.max 0 count) with count by lia. reflexivity.
Qed.

(** X12.  The arguments are split in two and none is lost: with [-mixed]
    nothing is set aside; with [-pfirst] the first arguments are set aside,
    one for each required parameter; otherwise the last ones are.  What is
    left for the switch loop fits in the bound [end]. *)
Theorem force_required_partition ctx def (argv : list tobj) :
  match force_required ctx def argv with
  | (force, rest, end_) =>
      let req := Z.to_nat (count_required (defDict def) (orderList def)) in
      (if HAS_GLOBAL_SWITCH ctx GLOBAL_SWITCH_MIXED
       then force = [] /\ rest = argv
       else if HAS_GLOBAL_SWITCH ctx GLOBAL_SWITCH_PFIRST
       then force = take req argv /\ rest = drop req argv
       else rest = take (length argv - req) argv /\
            force = drop (length argv - req) argv) /\
      all_params ctx rest force = argv /\
      (length rest <= Z.to_nat (end_ + 1))%nat
  end.
Proof.
  unfold force_required, all_params, MergeTwoLists, count_required.
  set (n := length (List.filter _ (orderList def))).
  rewrite Nat2Z.id.
  destruct (HAS_GLOBAL_SWITCH ctx GLOBAL_SWITCH_MIXED);
    [|destruct (HAS_GLOBAL_SWITCH ctx GLOBAL_SWITCH_PFIRST)]; cbn [negb andb].
  - rewrite ListObjReplace_delete, ListRange_nonneg by lia.
    change (Z.to_nat 0) with 0%nat. rewrite take_0, drop_0.
    rewrite drop_ge, take_ge by lia. cbn [app].
    split; [auto|]. split; [|lia].
    destruct (HAS_GLOBAL_SWITCH ctx GLOBAL_SWITCH_PFIRST);
      [reflexivity|apply app_nil_r].
  - rewrite ListObjReplace_delete, ListRange_nonneg by lia.
    rewrite Nat2Z.id.
    rewrite (drop_ge argv (Z.to_nat _)) by lia. rewrite app_nil_r.
    rewrite (take_ge (drop n argv)) by (rewrite length_drop; lia).
    split; [auto|]. split; [apply take_drop|].
    rewrite length_drop. lia.
  - rewrite ListObjReplace_delete, ListRange_nonneg by lia.
    change (Z.to_nat 0) with 0%nat. rewrite take_0, drop_0. cbn [app].
    replace (Z.to_nat
               (0 + Z.max 0 (Z.of_nat (length argv) - 1 - Z.of_nat n + 1)))
      with (length argv - n)%nat by lia.
    replace (Z.to_nat (Z.of_nat (length argv) - 1 - Z.of_nat n - 0 + 1))
      with (length argv - n)%nat by lia.
    split; [auto|]. split; [apply take_drop|].
    rewrite length_take. lia.
Qed.

(** ** The parsed definition *)

Lemma exists_put_ne {V} k k' (v : V) d :
  k <> k' -> DictKeyExists (dict_put k' v d) k = DictKeyExists d k.
Proof.
  intros H. rewrite DictKeyExists_put.
  apply String.eqb_neq in H. now rewrite H.
Qed.

Lemma exists_put_eq {V} k (v : V) d :
  DictKeyExists (dict_put k v d) k = true.
Proof. rewrite DictKeyExists_put. now rewrite String.eqb_refl. Qed.

Lemma check_conflicts_None opt a row b :
  check_conflicts opt = None ->
  In (a, row) conflictSwitches -> In b row ->
  DictKeyExists opt a = true -> DictKeyExists opt b = false.
Proof.
  unfold check_conflicts. intros H Hrow Hb Ha.
  destruct (List.find _ conflictSwitches) as [[a' row']|] eqn:Ef.
  - exfalso. apply find_some in Ef as [_ Hp]. cbn [fst snd] in Hp.
    apply andb_true_iff in Hp as [_ Hp].
    apply existsb_exists in Hp as (x & Hx & Hxe).
    destruct (List.find (DictKeyExists opt) row') eqn:Ef2; [discriminate|].
    apply (find_none _ _ Ef2) in Hx. congruence.
  - apply (find_none _ _ Ef) in Hrow. cbn [fst snd] in Hrow.
    rewrite Ha in Hrow. cbn [andb] in Hrow.
    destruct (DictKeyExists opt b) eqn:Eb; [|reflexivity].
    exfalso. assert (existsb (DictKeyExists opt) row = true) as Hex.
    { apply existsb_exists. eauto. }
    congruence.
Qed.

Lemma check_disallowed_None opt a b c :
  check_disallowed opt = None ->
  In (a, b, c) disallowedSwitchesRows ->
  DictKeyExists opt a = true -> DictKeyExists opt b = true ->
  DictKeyExists opt c = false.
Proof.
  unfold check_disallowed. intros H Hrow Ha Hb.
  destruct (List.find _ disallowedSwitchesRows) as [[[a' b'] c']|] eqn:Ef;
    [discriminate|].
  apply (find_none _ _ Ef) in Hrow. cbn beta iota in Hrow.
  now rewrite Ha, Hb in Hrow.
Qed.

Lemma check_element_inr ctx opt :
  check_element ctx opt = inr tt ->
  check_conflicts opt = None /\ check_disallowed opt = None.
Proof.
  unfold check_element.
  destruct (check_requirements opt); [discriminate|].
  destruct (check_conflicts opt); [discriminate|].
  destruct (_ && _); [discriminate|].
  destruct (check_disallowed opt); [discriminate|]. auto.
Qed.

Lemma shorthand_flags_exists k flags : forall d,
  k <> "argument" -> k <> "optional" -> k <> "required" ->
  k <> "catchall" -> k <> "upvar" ->
  DictKeyExists (fold_left shorthand_flag flags d) k = DictKeyExists d k.
Proof.
  induction flags as [|f r IH]; intros d H1 H2 H3 H4 H5; [reflexivity|].
  cbn [fold_left]. rewrite IH by assumption. unfold shorthand_flag.
  repeat match goal with
         | |- context [if ?c then _ else _] => destruct c
         end; try reflexivity; now apply exists_put_ne.
Qed.

Lemma first_element_kind ctx words o name o1 :
  first_element ctx words o = inr (name, o1) ->
  DictKeyExists o1 "switch" = negb (DictKeyExists o1 "parameter").
Proof.
  unfold first_element. destruct words as [|w0 ws]; [discriminate|].
  destruct (DictKeyExists o "switch") eqn:Es,
           (DictKeyExists o "parameter") eqn:Ep; cbn [andb negb];
    try discriminate.
  - destruct (_ && _); [discriminate|].
    destruct (negb _); [discriminate|]. intros [= _ <-]. now rewrite Es, Ep.
  - destruct (_ && _); [discriminate|].
    destruct (negb _); [discriminate|]. intros [= _ <-]. now rewrite Es, Ep.
  - destruct (_ && _); [discriminate|].
    destruct (Regexp.regexpShorthand _) as [[[[minus alias] n] flags]|];
      [|discriminate].
    intros [= _ <-].
    rewrite !shorthand_flags_exists by discriminate.
    destruct (0 <? str_len minus)%nat, (0 <? str_len alias)%nat;
      repeat first [ rewrite exists_put_eq
                   | rewrite exists_put_ne by discriminate ];
      now rewrite ?Es, ?Ep.
Qed.

Lemma derive_exists o k :
  k <> "argument" -> k <> "optional" -> k <> "required" ->
  DictKeyExists (derive_argument_required o) k = DictKeyExists o k.
Proof.
  intros H1 H2 H3. unfold derive_argument_required.
  destruct (DictKeyExists o "switch").
  - generalize elementSwitchesImplyElementArg. intros l. revert o.
    induction l as [|x l IH]; intros o; [reflexivity|].
    cbn [fold_left]. rewrite IH.
    destruct (DictKeyExists o x); [now apply exists_put_ne|reflexivity].
  - destruct (_ && _); now apply exists_put_ne.
Qed.

Lemma derive_parameter o :
  DictKeyExists o "switch" = false ->
  DictKeyExists (derive_argument_required o) "required"
  || DictKeyExists (derive_argument_required o) "optional" = true.
Proof.
  intros Hs. unfold derive_argument_required. rewrite Hs.
  destruct (_ && _).
  - rewrite exists_put_eq. apply orb_true_r.
  - now rewrite exists_put_eq.
Qed.

Lemma replace_boolean_exists ctx o k :
  k <> "default" -> k <> "value" ->
  DictKeyExists (replace_boolean ctx o) k = DictKeyExists o k.
Proof.
  intros H1 H2. unfold replace_boolean.
  destruct (is_boolean_switch ctx o); [|reflexivity].
  now rewrite !exists_put_ne.
Qed.

Lemma get_exists {V} (d d' : odict V) k :
  dict_get k d = dict_get k d' -> DictKeyExists d k = DictKeyExists d' k.
Proof. unfold DictKeyExists. now intros ->. Qed.

(** The options stored for an element, from the derived ones. *)
Lemma stored_exists ctx name o k :
  k <> "default" -> k <> "value" -> k <> "level" -> k <> "key" ->
  k <> "enum" -> k <> "validate" -> k <> "validateMsg" ->
  DictKeyExists
    (lookup_enum_validate ctx
       (compute_key ctx name (insert_level ctx (replace_boolean ctx o)))) k
  = DictKeyExists o k.
Proof.
  intros. rewrite <- (replace_boolean_exists ctx o k) by assumption.
  apply get_exists.
  rewrite lookup_enum_validate_get, compute_key_get, insert_level_get
    by assumption.
  reflexivity.
Qed.

Lemma stored_key ctx name o :
  DictKeyExists o "ignore"
  = negb (DictKeyExists o "key" || DictKeyExists o "pass") \/
  DictKeyExists o "ignore" = false ->
  DictKeyExists (compute_key ctx name o) "ignore"
  = negb (DictKeyExists (compute_key ctx name o) "key"
          || DictKeyExists (compute_key ctx name o) "pass").
Proof.
  unfold compute_key.
  destruct (DictKeyExists o "ignore") eqn:Ei,
           (DictKeyExists o "key") eqn:Ek,
           (DictKeyExists o "pass") eqn:Ep; cbn [negb andb orb];
    intros [H|H]; try discriminate;
    try (now rewrite Ei, Ek, Ep);
    destruct (HAS_GLOBAL_SWITCH ctx GLOBAL_SWITCH_TEMPLATE);
    rewrite exists_put_eq, !exists_put_ne by discriminate;
    now rewrite Ei.
Qed.

Lemma insert_level_level ctx o :
  DictKeyExists o "upvar" = true ->
  DictKeyExists (insert_level ctx o) "level" = true.
Proof.
  intros Hu. unfold insert_level. rewrite Hu. cbn [andb].
  destruct (DictKeyExists o "level") eqn:El; cbn [negb]; [assumption|].
  destruct (HAS_GLOBAL_SWITCH ctx GLOBAL_SWITCH_LEVEL); apply exists_put_eq.
Qed.

Lemma insert_level_exists ctx o k :
  k <> "level" ->
  DictKeyExists (insert_level ctx o) k = DictKeyExists o k.
Proof. intros. apply get_exists. now apply insert_level_get. Qed.

Lemma lookup_exists ctx o k :
  k <> "enum" -> k <> "validate" -> k <> "validateMsg" ->
  DictKeyExists (lookup_enum_validate ctx o) k = DictKeyExists o k.
Proof. intros. apply get_exists. now apply lookup_enum_validate_get. Qed.

Lemma compute_key_exists ctx name o k :
  k <> "key" ->
  DictKeyExists (compute_key ctx name o) k = DictKeyExists o k.
Proof. intros. apply get_exists. now apply compute_key_get. Qed.

Lemma element_ok_stored ctx words o0 name o1 :
  first_element ctx words o0 = inr (name, o1) ->
  check_element ctx (derive_argument_required o1) = inr tt ->
  element_ok
    (lookup_enum_validate ctx
       (compute_key ctx name
          (insert_level ctx
             (replace_boolean ctx (derive_argument_required o1))))).
Proof.
  intros Hf Hc. apply first_element_kind in Hf.
  apply check_element_inr in Hc as [Hcon Hdis].
  set (o := derive_argument_required o1) in *.
  assert (Hsw : DictKeyExists o "switch" = DictKeyExists o1 "switch")
    by (apply derive_exists; discriminate).
  assert (Hpa : DictKeyExists o "parameter" = DictKeyExists o1 "parameter")
    by (apply derive_exists; discriminate).
  unfold element_ok.
  rewrite (stored_exists ctx name o "switch"),
    (stored_exists ctx name o "parameter"),
    (stored_exists ctx name o "required"),
    (stored_exists ctx name o "optional"),
    (stored_exists ctx name o "upvar") by discriminate.
  rewrite !lookup_exists by discriminate.
  split; [now rewrite Hsw, Hpa|]. split; [|split].
  - intros Hp.
    assert (DictKeyExists o1 "switch" = false) as Hs1
      by (rewrite Hf, <- Hpa, Hp; reflexivity).
    pose proof (derive_parameter o1 Hs1) as Hro. fold o in Hro.
    destruct (DictKeyExists o "optional") eqn:Eo.
    + apply (check_disallowed_None o "parameter" "optional" "required");
        [assumption| |assumption|assumption].
      unfold disallowedSwitchesRows. simpl. tauto.
    + now rewrite orb_false_r in Hro.
  - apply stored_key.
    rewrite !insert_level_exists, !replace_boolean_exists by discriminate.
    destruct (DictKeyExists o "ignore") eqn:Ei; [left|now right].
    rewrite (check_conflicts_None o "ignore" ["key"; "pass"] "key"),
      (check_conflicts_None o "ignore" ["key"; "pass"] "pass");
      try assumption; try reflexivity;
      unfold conflictSwitches; simpl; tauto.
  - intros Hu. rewrite compute_key_exists by discriminate.
    apply insert_level_level.
    now rewrite replace_boolean_exists by discriminate.
Qed.

Lemma fold_alias_get name (l : list tobj) : forall (d : odict string) al n,
  dict_get al (fold_left (fun d a => dict_put (to_string a) name d) l d)
  = Some n ->
  dict_get al d = Some n \/ (n = name /\ In al (map to_string l)).
Proof.
  induction l as [|a l IH]; intros d al n Hg; [now left|].
  cbn [fold_left] in Hg. apply IH in Hg as [Hg|[-> Hin]].
  - rewrite dict_get_put in Hg.
    destruct (String.eqb_spec al (to_string a)) as [->|Hne]; [|now left].
    injection Hg as <-. right. split; [reflexivity|]. now left.
  - right. split; [reflexivity|]. now right.
Qed.

Lemma build_lists_inv name o a a1 :
  build_lists name o a = inr a1 ->
  defDict a1 = defDict a /\ omittedDict a1 = omittedDict a /\
  orderList a1 = orderList a ++ (if DictKeyExists o "parameter"
                                 then [name] else []) /\
  switchesList a1 = switchesList a ++ (if DictKeyExists o "parameter"
                                       then [] else [switch_label (name, o)]) /\
  catchall a1 = (if is_catchall_parameter (name, o) then Some name
                 else catchall a) /\
  (is_catchall_parameter (name, o) = true -> catchall a = None) /\
  (forall al n, dict_get al (aliasesDict a1) = Some n ->
     dict_get al (aliasesDict a) = Some n \/
     (n = name /\ DictKeyExists o "parameter" = false /\
      exists l, dict_get "alias" o = Some l /\
                In al (map to_string (as_list l)))).
Proof.
  unfold build_lists, is_catchall_parameter, switch_label. cbn [fst snd].
  destruct (DictKeyExists o "parameter"); cbn [andb].
  - destruct (DictKeyExists o "catchall").
    + destruct (catchall a); [discriminate|]. intros [= <-]. simpl.
      rewrite app_nil_r. auto 10.
    + intros [= <-]. simpl. rewrite app_nil_r.
      repeat split; try discriminate. auto.
  - unfold DictKeyExists. destruct (dict_get "alias" o) as [aliasVal|].
    + destruct (negb _); [discriminate|].
      destruct (negb _); [discriminate|].
      intros [= <-]. simpl. rewrite app_nil_r.
      repeat split; try discriminate.
      intros al n Hg. apply fold_alias_get in Hg as [Hg|[-> Hin]]; [now left|].
      right. split; [reflexivity|]. split; [reflexivity|]. eauto.
    + intros [= <-]. simpl. rewrite app_nil_r.
      repeat split; try discriminate. auto.
Qed.

(** What one round of [ParseElementDefinitions] does to a definition. *)
Lemma parse_element_inv ctx a elem a' :
  parse_element ctx a elem = inr a' ->
  exists name opt,
    DictKeyExists (defDict a) name = false /\
    element_ok opt /\
    defDict a' = dict_put name opt (defDict a) /\
    omittedDict a' = dict_put name emptyStr (omittedDict a) /\
    orderList a' = orderList a ++ (if is_parameter (name, opt)
                                   then [name] else []) /\
    switchesList a' = switchesList a ++ (if is_parameter (name, opt)
                                         then []
                                         else [switch_label (name, opt)]) /\
    catchall a' = (if is_catchall_parameter (name, opt) then Some name
                   else catchall a) /\
    (is_catchall_parameter (name, opt) = true -> catchall a = None) /\
    (forall al n, dict_get al (aliasesDict a') = Some n ->
       dict_get al (aliasesDict a) = Some n \/
       (n = name /\ is_parameter (name, opt) = false /\
        exists l, dict_get "alias" opt = Some l /\
                  In al (map to_string (as_list l)))).
Proof.
  unfold parse_element.
  destruct (read_switches (tl (as_list elem)) []) as [m|o0]; [discriminate|].
  destruct (first_element ctx (as_list elem) o0) as [m|[name o1]] eqn:Ef;
    [discriminate|]. cbn [fst snd].
  destruct (DictKeyExists (defDict a) name) eqn:Ecol; [discriminate|].
  destruct (check_element ctx (derive_argument_required o1)) as [m|[]] eqn:Ec;
    [discriminate|]. cbn beta iota.
  set (o := compute_key ctx name
              (insert_level ctx
                 (replace_boolean ctx (derive_argument_required o1)))).
  destruct (build_lists name o a) as [m|a1] eqn:Eb; [discriminate|].
  cbn beta iota.
  destruct (dict_get name (aliasesDict a1)); [discriminate|].
  destruct (map_upvar name o (upvarsDict a1)) as [m|upvars];
    [discriminate|]. cbn beta iota.
  destruct (check_type (lookup_enum_validate ctx o)); [discriminate|].
  intros [= <-].
  cbn [defDict omittedDict orderList switchesList catchall aliasesDict].
  apply build_lists_inv in Eb as (Hd & Ho & Hord & Hsw & Hc & Hcn & Hal).
  exists name, (lookup_enum_validate ctx o).
  unfold is_parameter, is_catchall_parameter, switch_label,
    BuildAliasJoinString in *. cbn [fst snd] in *.
  rewrite !(lookup_exists ctx o) by discriminate.
  rewrite (lookup_enum_validate_get ctx o "alias") by discriminate.
  rewrite Hd, Ho.
  split; [assumption|]. split; [exact (element_ok_stored _ _ _ _ _ Ef Ec)|].
  auto 10.
Qed.

Lemma filter_snoc {A} (f : A -> bool) (l : list A) (x : A) :
  List.filter f (l ++ [x]) = List.filter f l ++ (if f x then [x] else []).
Proof. rewrite List.filter_app. reflexivity. Qed.

Lemma not_exists_not_key {V} (d : odict V) k :
  DictKeyExists d k = false -> k ∉ DictKeys d.
Proof.
  unfold DictKeyExists. intros H. apply dict_get_None_keys.
  now destruct (dict_get k d).
Qed.

Lemma not_key_not_exists {V} (d : odict V) k :
  k ∉ DictKeys d -> DictKeyExists d k = false.
Proof.
  unfold DictKeyExists. intros H. apply dict_get_None_keys in H.
  now rewrite H.
Qed.

Lemma parse_element_lists ctx a elem a' :
  parse_element ctx a elem = inr a' ->
  lists_ok a -> Forall element_ok (map snd (defDict a)) ->
  lists_ok a' /\ Forall element_ok (map snd (defDict a')).
Proof.
  intros H (Hu & Hom & Hord & Hsw & Hcat) Hall.
  apply parse_element_inv in H
    as (name & opt & Hfresh & Hok & Hd' & Ho' & Hord' & Hsw' & Hc' & Hcn & _).
  pose proof (dict_put_fresh name opt (defDict a) Hfresh) as Hput.
  assert (DictKeyExists (omittedDict a) name = false) as Hfo.
  { apply not_key_not_exists. rewrite Hom. now apply not_exists_not_key. }
  unfold lists_ok. rewrite Hd', Ho', Hord', Hsw', Hc', Hput.
  rewrite (dict_put_fresh name emptyStr (omittedDict a) Hfo).
  rewrite !filter_snoc. unfold DictKeys in *.
  rewrite !map_app. cbn [map fst snd].
  split; [|apply Forall_app_2;
             [assumption|apply Forall_cons_2; [exact Hok|apply Forall_nil_2]]].
  split; [|split; [|split; [|split]]].
  - unfold dict_unique, DictKeys. rewrite map_app. cbn [map fst].
    apply NoDup_app. split; [exact Hu|]. split; [|apply NoDup_singleton].
    intros x Hx Hx'. apply list_elem_of_singleton in Hx'. subst x.
    now apply (not_exists_not_key _ _ Hfresh).
  - now rewrite Hom.
  - rewrite Hord. now destruct (is_parameter (name, opt)).
  - rewrite Hsw. now destruct (is_parameter (name, opt)).
  - rewrite Hcat.
    destruct (is_catchall_parameter (name, opt)) eqn:Ec.
    + now rewrite (Hcn eq_refl).
    + cbn [map]. apply app_nil_r.
Qed.

Lemma parse_elements_lists ctx elems : forall a a',
  parse_elements ctx a elems = inr a' ->
  lists_ok a -> Forall element_ok (map snd (defDict a)) ->
  lists_ok a' /\ Forall element_ok (map snd (defDict a')).
Proof.
  induction elems as [|e r IH]; intros a a' H Hl Hall;
    cbn [parse_elements] in H.
  - injection H as <-. auto.
  - destruct (parse_element ctx a e) as [m|a1] eqn:Ee; [discriminate|].
    destruct (parse_element_lists _ _ _ _ Ee Hl Hall) as [Hl1 Hall1].
    exact (IH _ _ H Hl1 Hall1).
Qed.

Lemma lists_ok_init : lists_ok InitArgumentDefinition.
Proof.
  unfold lists_ok. simpl. repeat split; try reflexivity. apply NoDup_nil_2.
Qed.

(** X13.  In a definition that [ParseElementDefinitions] accepts, the
    element names are distinct, every element is recorded as omitted, the
    order list holds the parameters and the switch list the switches, both
    in the order of the definition, and at most one parameter is a catchall:
    the one recorded as such. *)
Theorem parsed_definition_lists ctx definition a :
  ParseElementDefinitions ctx definition InitArgumentDefinition = inr a ->
  dict_unique (defDict a) /\
  DictKeys (omittedDict a) = DictKeys (defDict a) /\
  orderList a = map fst (List.filter is_parameter (defDict a)) /\
  switchesList a
  = map switch_label
      (List.filter (fun kv => negb (is_parameter kv)) (defDict a)) /\
  map fst (List.filter is_catchall_parameter (defDict a))
  = match catchall a with Some c => [c] | None => [] end.
Proof.
  unfold ParseElementDefinitions. intros H.
  apply parse_elements_lists in H as [Hl _];
    [exact Hl|exact lists_ok_init|constructor].
Qed.

(** X14.  In a definition that [ParseElementDefinitions] accepts, every
    element is a switch or a parameter and not both, a parameter is required
    or optional and not both, an element is ignored exactly when it has
    neither an output key nor a pass-through key, and an element with
    [-upvar] has a level. *)
Theorem parsed_definition_elements ctx definition a name opt :
  ParseElementDefinitions ctx definition InitArgumentDefinition = inr a ->
  dict_get name (defDict a) = Some opt ->
  DictKeyExists opt "switch" = negb (DictKeyExists opt "parameter") /\
  (DictKeyExists opt "parameter" = true ->
   DictKeyExists opt "required" = negb (DictKeyExists opt "optional")) /\
  DictKeyExists opt "ignore"
  = negb (DictKeyExists opt "key" || DictKeyExists opt "pass") /\
  (DictKeyExists opt "upvar" = true -> DictKeyExists opt "level" = true).
Proof.
  unfold ParseElementDefinitions. intros H Hget.
  apply parse_elements_lists in H as [_ Hall];
    [|exact lists_ok_init|constructor].
  apply dict_get_In in Hget.
  rewrite List.Forall_forall in Hall.
  apply (Hall opt). apply in_map_iff. now exists (name, opt).
Qed.

Lemma example_definition_parsed :
  ParseElementDefinitions noGlobalSwitches [TStr "-v"; TStr "x"; TStr "rest*"]
    InitArgumentDefinition = inr example_definition.
Proof. vm_compute. reflexivity. Qed.

Lemma parsed_definition_lists_witness :
  dict_unique (defDict example_definition) /\
  DictKeys (omittedDict example_definition)
  = DictKeys (defDict example_definition) /\
  orderList example_definition
  = map fst (List.filter is_parameter (defDict example_definition)) /\
  switchesList example_definition
  = map switch_label
      (List.filter (fun kv => negb (is_parameter kv))
         (defDict example_definition)) /\
  map fst (List.filter is_catchall_parameter (defDict example_definition))
  = match catchall example_definition with Some c => [c] | None => [] end.
Proof.
  apply (parsed_definition_lists noGlobalSwitches
           [TStr "-v"; TStr "x"; TStr "rest*"]).
  exact example_definition_parsed.
Defined.

Lemma parsed_definition_elements_witness :
  let opt := [("parameter", TStr ""); ("catchall", TStr "");
              ("optional", TStr ""); ("key", TStr "rest")] in
  DictKeyExists opt "switch" = negb (DictKeyExists opt "parameter") /\
  (DictKeyExists opt "parameter" = true ->
   DictKeyExists opt "required" = negb (DictKeyExists opt "optional")) /\
  DictKeyExists opt "ignore"
  = negb (DictKeyExists opt "key" || DictKeyExists opt "pass") /\
  (DictKeyExists opt "upvar" = true -> DictKeyExists opt "level" = true).
Proof.
  apply (parsed_definition_elements noGlobalSwitches
           [TStr "-v"; TStr "x"; TStr "rest*"] example_definition "rest").
  - exact example_definition_parsed.
  - reflexivity.
Defined.

(** ** Defaults and the caller's variables *)

Lemma put_absent_keeps (res : odict tobj) k' v' k v :
  DictKeyExists res k' = false ->
  dict_get k res = Some v -> dict_get k (dict_put k' v' res) = Some v.
Proof.
  intros Hk Hg. rewrite dict_get_put_ne; [assumption|].
  intros ->. unfold DictKeyExists in Hk. now rewrite Hg in Hk.
Qed.

Lemma default_step_keeps res kv k v :
  dict_get k res = Some v -> dict_get k (default_step res kv) = Some v.
Proof.
  intros Hg. unfold default_step.
  repeat match goal with
         | |- context [match ?x with _ => _ end] =>
             lazymatch x with
             | context [match _ with _ => _ end] => fail
             | negb (DictKeyExists ?r ?key) =>
                 let E := fresh "E" in destruct (DictKeyExists r key) eqn:E;
                 cbn [negb]
             | _ => destruct x
             end
         end;
    repeat (apply put_absent_keeps; [assumption|]); assumption.
Qed.

Lemma default_steps_keep d : forall res k v,
  dict_get k res = Some v ->
  dict_get k (fold_left default_step d res) = Some v.
Proof.
  induction d as [|kv d IH]; intros res k v Hg; [assumption|].
  cbn [fold_left]. apply IH. now apply default_step_keeps.
Qed.

Lemma exists_get {V} (d : odict V) k :
  DictKeyExists d k = true -> exists v, dict_get k d = Some v.
Proof.
  unfold DictKeyExists. destruct (dict_get k d); [eauto|discriminate].
Qed.

Lemma default_steps_exist d res k :
  DictKeyExists res k = true ->
  DictKeyExists (fold_left default_step d res) k = true.
Proof.
  intros H. apply exists_get in H as [v Hv].
  unfold DictKeyExists. now rewrite (default_steps_keep d res k v Hv).
Qed.

Lemma default_step_pass res kv p :
  dict_get "pass" (snd kv) = Some p ->
  DictKeyExists (default_step res kv) (to_string p) = true.
Proof.
  intros Hp. unfold default_step. rewrite Hp.
  match goal with
  | |- context [negb (DictKeyExists ?r ?key)] =>
      destruct (DictKeyExists r key) eqn:E
  end; cbn [negb]; [assumption|apply exists_put_eq].
Qed.

Lemma default_step_key res kv k :
  dict_get "key" (snd kv) = Some k ->
  DictKeyExists (snd kv) "default" = true \/
  DictKeyExists (snd kv) "catchall" = true ->
  DictKeyExists (default_step res kv) (to_string k) = true.
Proof.
  intros Hk Hdc.
  assert (DictKeyExists
            (if negb (DictKeyExists res (to_string k)) then
               match dict_get "default" (snd kv) with
               | Some defaultLoc => dict_put (to_string k) defaultLoc res
               | None =>
                   if DictKeyExists (snd kv) "catchall"
                   then dict_put (to_string k) emptyStr res
                   else res
               end
             else res) (to_string k) = true) as H.
  { destruct (DictKeyExists res (to_string k)) eqn:E; cbn [negb];
      [assumption|].
    unfold DictKeyExists in Hdc.
    destruct (dict_get "default" (snd kv)); [apply exists_put_eq|].
    destruct Hdc as [Hdc|Hdc]; [discriminate|].
    fold (DictKeyExists (snd kv) "catchall") in Hdc. rewrite Hdc.
    apply exists_put_eq. }
  unfold default_step. rewrite Hk.
  destruct (dict_get "pass" (snd kv)) as [p|]; [|exact H].
  match goal with
  | |- context [if negb ?c then _ else _] => destruct c
  end; cbn [negb]; [exact H|].
  rewrite DictKeyExists_put, H. apply orb_true_r.
Qed.

Lemma default_step_origin res kv k v :
  dict_get k (default_step res kv) = Some v ->
  dict_get k res = Some v \/ v = emptyStr \/
  exists kk, dict_get "key" (snd kv) = Some kk /\ to_string kk = k /\
             dict_get "default" (snd kv) = Some v.
Proof.
  unfold default_step.
  repeat match goal with
         | |- context [match ?x with _ => _ end] =>
             lazymatch x with
             | context [match _ with _ => _ end] => fail
             | _ => let E := fresh "E" in destruct x eqn:E
             end
         end;
    rewrite ?dict_get_put;
    repeat match goal with
           | |- context [String.eqb ?a ?b] =>
               destruct (String.eqb_spec a b); [subst|]
           end;
    intros H; try (injection H as <-); eauto 10.
Qed.

Lemma default_steps_origin d : forall res k v,
  dict_get k (fold_left default_step d res) = Some v ->
  dict_get k res = Some v \/ v = emptyStr \/
  exists name opt kk, In (name, opt) d /\ dict_get "key" opt = Some kk /\
                      to_string kk = k /\ dict_get "default" opt = Some v.
Proof.
  induction d as [|[name opt] d IH]; intros res k v Hg; [now left|].
  cbn [fold_left] in Hg. apply IH in Hg as [Hg|[Hg|Hg]].
  - apply default_step_origin in Hg as [Hg|[Hg|(kk & ? & ? & ?)]]; auto.
    right. right. exists name, opt, kk. simpl. auto.
  - auto.
  - destruct Hg as (n & o & kk & Hin & ?). right. right.
    exists n, o, kk. simpl. auto.
Qed.

(** X15.  The default values never replace a value that was given, and they
    complete the result: every pass-through key is there, and so is the key
    of every element that has a default or is a catchall.  A value that was
    not given is the empty string or the default of an element with that
    key. *)
Theorem create_defaults_completes (d : odict optdict) (res : odict tobj) :
  (forall k v, dict_get k res = Some v ->
     dict_get k (create_defaults d res) = Some v) /\
  (forall name opt p, In (name, opt) d -> dict_get "pass" opt = Some p ->
     DictKeyExists (create_defaults d res) (to_string p) = true) /\
  (forall name opt k, In (name, opt) d -> dict_get "key" opt = Some k ->
     DictKeyExists opt "default" = true \/
     DictKeyExists opt "catchall" = true ->
     DictKeyExists (create_defaults d res) (to_string k) = true) /\
  (forall k v, dict_get k (create_defaults d res) = Some v ->
     dict_get k res = Some v \/ v = emptyStr \/
     exists name opt kk, In (name, opt) d /\ dict_get "key" opt = Some kk /\
                         to_string kk = k /\ dict_get "default" opt = Some v).
Proof.
  change (create_defaults d res) with (fold_left default_step d res).
  split; [apply default_steps_keep|]. split; [|split].
  - revert res. induction d as [|kv d IH]; intros res name opt p Hin Hp;
      [contradiction|].
    cbn [fold_left]. destruct Hin as [->|Hin]; [|now apply (IH _ name opt)].
    apply default_steps_exist. now apply default_step_pass.
  - revert res. induction d as [|kv d IH]; intros res name opt k Hin Hk Hdc;
      [contradiction|].
    cbn [fold_left]. destruct Hin as [->|Hin]; [|now apply (IH _ name opt)].
    apply default_steps_exist. now apply default_step_key.
  - apply default_steps_origin.
Qed.


Section Binding.
Context {interp : Interp}.




End Binding.

(** ** Constraint references *)

Lemma refers_opt d x k o :
  refers d x k o <->
  exists opt, dict_get x d = Some opt /\ opt_refers opt k o.
Proof.
  unfold refers, opt_refers, GetNestedDictValue. split.
  - intros (l & Hl & Hin). destruct (dict_get x d) as [opt|]; [|discriminate].
    eauto.
  - intros (opt & -> & l & Hl & Hin). eauto.
Qed.

Lemma refs_kept_refl d : refs_kept d d.
Proof. intros x k o _ H. exact H. Qed.

Lemma refs_kept_trans d d' d'' :
  refs_kept d d' -> refs_kept d' d'' -> refs_kept d d''.
Proof. intros H1 H2 x k o Hk H. apply H2, H1; assumption. Qed.

Lemma refs_kept_put d y opt' :
  (forall k o, k <> "value" ->
     opt_refers (default [] (dict_get y d)) k o -> opt_refers opt' k o) ->
  refs_kept d (dict_put y opt' d).
Proof.
  intros Hopt x k o Hk H. apply refers_opt in H as (opt & Hget & Hr).
  apply refers_opt. rewrite dict_get_put.
  destruct (String.eqb_spec x y) as [->|Hne]; [|eauto].
  eexists. split; [reflexivity|]. apply (Hopt k o Hk).
  unfold odict in *. now rewrite Hget.
Qed.

Lemma opt_refers_append opt k' (new : list tobj) k o :
  opt_refers opt k o ->
  opt_refers
    (dict_put k' (TList (match dict_get k' opt with
                         | Some e => as_list e
                         | None => []
                         end ++ new)) opt) k o.
Proof.
  intros (l & Hl & Hin). unfold opt_refers. rewrite dict_get_put.
  destruct (String.eqb_spec k k') as [->|Hne]; [|eauto].
  eexists. split; [reflexivity|]. rewrite Hl. cbn [as_list].
  rewrite map_app. apply in_or_app. now left.
Qed.

Lemma opt_refers_new opt k' (new : list tobj) o :
  In o (map to_string new) ->
  opt_refers
    (dict_put k' (TList (match dict_get k' opt with
                         | Some e => as_list e
                         | None => []
                         end ++ new)) opt) k' o.
Proof.
  intros Hin. unfold opt_refers. rewrite dict_get_put_eq.
  eexists. split; [reflexivity|]. cbn [as_list].
  rewrite map_app. apply in_or_app. now right.
Qed.

Lemma add_reciprocal_kept name d other :
  refs_kept d (add_reciprocal name d other) /\
  refers (add_reciprocal name d other) (to_string other) "require" name /\
  (DictKeyExists d (to_string other) = true ->
   DictKeys (add_reciprocal name d other) = DictKeys d).
Proof.
  unfold add_reciprocal. split; [|split].
  - apply refs_kept_put. intros k o _ H.
    now apply (opt_refers_append _ "require" [TStr name]).
  - apply refers_opt. rewrite dict_get_put_eq. eexists.
    split; [reflexivity|].
    apply (opt_refers_new _ "require" [TStr name]). now left.
  - apply DictKeys_put_present.
Qed.

Lemma add_reciprocals_kept name others : forall d,
  refs_kept d (fold_left (add_reciprocal name) others d) /\
  (forall o, In o (map to_string others) ->
     refers (fold_left (add_reciprocal name) others d) o "require" name) /\
  ((forall o, In o (map to_string others) -> DictKeyExists d o = true) ->
   DictKeys (fold_left (add_reciprocal name) others d) = DictKeys d).
Proof.
  induction others as [|other r IH]; intros d; cbn [fold_left map].
  - split; [apply refs_kept_refl|]. split; [contradiction|reflexivity].
  - destruct (add_reciprocal_kept name d other) as (K1 & R1 & D1).
    destruct (IH (add_reciprocal name d other)) as (K2 & R2 & D2).
    split; [exact (refs_kept_trans _ _ _ K1 K2)|]. split.
    + intros o [<-|Hin]; [|now apply R2].
      apply K2; [discriminate|exact R1].
    + intros Hall. rewrite D2.
      * apply D1, Hall. now left.
      * intros o Ho. unfold DictKeyExists.
        destruct (dict_get o (add_reciprocal name d other)) eqn:E;
          [reflexivity|].
        apply dict_get_None_keys in E. rewrite D1 in E.
        -- apply not_key_not_exists in E. rewrite Hall in E; [discriminate|].
           now right.
        -- apply Hall. now left.
Qed.

Lemma undefined_reference_None d name opt k o :
  undefined_reference d name opt = None ->
  In k elemSwConstraints -> opt_refers opt k o ->
  DictKeyExists d o = true.
Proof.
  unfold undefined_reference. intros H Hk (l & Hl & Hin).
  destruct (List.find _ _) as [[c other]|] eqn:Ef; [discriminate|].
  apply in_map_iff in Hin as (t & <- & Ht).
  assert (In (k, to_string t)
            (flat_map (fun constraint =>
                         match dict_get constraint opt with
                         | Some others =>
                             map (fun o => (constraint, to_string o))
                               (as_list others)
                         | None => []
                         end) elemSwConstraints)) as Hin.
  { apply in_flat_map. exists k. split; [assumption|]. rewrite Hl.
    apply in_map_iff. eauto. }
  apply (find_none _ _ Ef) in Hin. cbn [snd] in Hin.
  now apply negb_false_iff in Hin.
Qed.

Lemma shared_key_pair_kept name otherName d opt d' opt' :
  DictKeyExists d name = true ->
  shared_key_pair name otherName (d, opt) = inr (d', opt') ->
  refs_kept d d' /\ DictKeys d' = DictKeys d.
Proof.
  intros Hn. unfold shared_key_pair.
  destruct (dict_get otherName d) as [otherOpt|] eqn:Eo;
    [|intros [= <- <-]; split; [apply refs_kept_refl|reflexivity]].
  destruct (dict_get "key" opt) as [optKey|];
    [|intros [= <- <-]; split; [apply refs_kept_refl|reflexivity]].
  destruct (dict_get "key" otherOpt) as [otherOptKey|];
    [|intros [= <- <-]; split; [apply refs_kept_refl|reflexivity]].
  destruct (_ && _);
    [|intros [= <- <-]; split; [apply refs_kept_refl|reflexivity]].
  destruct (DictKeyExists opt "parameter"); [discriminate|].
  destruct (DictKeyExists opt "argument"); [discriminate|].
  destruct (DictKeyExists opt "catchall"); [discriminate|].
  destruct (_ && _); [discriminate|].
  match goal with
  | |- context [if ?c then dict_put otherName ?v d else d] =>
      set (d1 := if c then dict_put otherName v d else d)
  end.
  assert (refs_kept d d1 /\ DictKeys d1 = DictKeys d) as [K1 D1].
  { unfold d1. destruct (_ || _); [|split; [apply refs_kept_refl|reflexivity]].
    split.
    - apply refs_kept_put. unfold odict in *. rewrite Eo. intros k o _ H.
      unfold DictLappendElem, DictLappend.
      now apply (opt_refers_append _ "forbid" [TStr name]).
    - apply DictKeys_put_present. unfold DictKeyExists. now rewrite Eo. }
  assert (DictKeyExists d1 name = true) as Hn1.
  { unfold DictKeyExists in *.
    destruct (dict_get name d1) eqn:E; [reflexivity|].
    apply dict_get_None_keys in E. rewrite D1 in E.
    apply dict_get_None_keys in E. now rewrite E in Hn. }
  destruct (negb (DictKeyExists opt "value")); intros [= <- <-]; [|auto].
  split.
  - eapply refs_kept_trans; [exact K1|].
    apply refs_kept_put. intros k o Hk (l & Hl & Hin).
    exists l. split; [|assumption].
    rewrite dict_get_put_ne; [assumption|]. congruence.
  - rewrite DictKeys_put_present by assumption. exact D1.
Qed.

Lemma shared_key_loop_kept name others : forall d opt d' opt',
  DictKeyExists d name = true ->
  shared_key_loop name others (d, opt) = inr (d', opt') ->
  refs_kept d d' /\ DictKeys d' = DictKeys d.
Proof.
  induction others as [|o r IH]; intros d opt d' opt' Hn;
    cbn [shared_key_loop].
  - intros [= <- <-]. split; [apply refs_kept_refl|reflexivity].
  - destruct (shared_key_pair name o (d, opt)) as [m|[d1 opt1]] eqn:Ep;
      [discriminate|]. cbn beta iota.
    intros Hl.
    destruct (shared_key_pair_kept _ _ _ _ _ _ Hn Ep) as [K1 D1].
    assert (DictKeyExists d1 name = true) as Hn1.
    { unfold DictKeyExists in *.
      destruct (dict_get name d1) eqn:E; [reflexivity|].
      apply dict_get_None_keys in E. rewrite D1 in E.
      apply dict_get_None_keys in E. now rewrite E in Hn. }
    destruct (IH _ _ _ _ Hn1 Hl) as [K2 D2].
    split; [exact (refs_kept_trans _ _ _ K1 K2)|congruence].
Qed.

Lemma keys_exists {V} (d d' : odict V) o :
  DictKeys d' = DictKeys d -> DictKeyExists d' o = DictKeyExists d o.
Proof.
  intros HK. unfold DictKeyExists.
  destruct (dict_get o d') eqn:E', (dict_get o d) eqn:E; try reflexivity.
  - apply dict_get_None_keys in E. rewrite <- HK in E.
    apply dict_get_None_keys in E. congruence.
  - apply dict_get_None_keys in E'. rewrite HK in E'.
    apply dict_get_None_keys in E'. congruence.
Qed.

Lemma process_element_kept ctx keys name d d' :
  process_element ctx keys name d = inr d' ->
  refs_kept d d' /\ DictKeys d' = DictKeys d /\
  forall k o, refers d name k o ->
    (In k elemSwConstraints -> DictKeyExists d o = true) /\
    (k = "require" ->
     HAS_GLOBAL_SWITCH ctx GLOBAL_SWITCH_RECIPROCAL = true \/
     NestedDictKeyExists d name "reciprocal" = true ->
     refers d' o "require" name).
Proof.
  unfold process_element.
  destruct (dict_get name d) as [opt|] eqn:E.
  2:{ intros [= <-]. split; [apply refs_kept_refl|]. split; [reflexivity|].
      intros k o (l & Hl & _). unfold GetNestedDictValue in Hl.
      unfold odict in *. rewrite E in Hl. discriminate. }
  destruct (undefined_reference d name opt) eqn:Eu; [discriminate|].
  set (d1 := reciprocal_requirements ctx name opt d).
  destruct (shared_key_loop name keys (d1, opt)) as [m|[d2 opt2]] eqn:El;
    [discriminate|].
  intros [= <-].
  assert (refs_kept d d1 /\ DictKeys d1 = DictKeys d /\
          forall o, opt_refers opt "require" o ->
            HAS_GLOBAL_SWITCH ctx GLOBAL_SWITCH_RECIPROCAL = true \/
            DictKeyExists opt "reciprocal" = true ->
            refers d1 o "require" name) as (K1 & D1 & R1).
  { unfold d1, reciprocal_requirements.
    destruct (HAS_GLOBAL_SWITCH ctx GLOBAL_SWITCH_RECIPROCAL
              || DictKeyExists opt "reciprocal") eqn:Ef.
    - destruct (dict_get "require" opt) as [otherList|] eqn:Er.
      + destruct (add_reciprocals_kept name (as_list otherList) d)
          as (K & R & D).
        split; [exact K|]. split.
        * apply D. intros o Ho.
          apply (undefined_reference_None d name opt "require" o Eu);
            [unfold elemSwConstraints; simpl; tauto|].
          exists otherList. auto.
        * intros o (l & Hl & Hin) _. rewrite Er in Hl.
          injection Hl as <-. now apply R.
      + split; [apply refs_kept_refl|]. split; [reflexivity|].
        intros o (l & Hl & _). rewrite Er in Hl. discriminate.
    - split; [apply refs_kept_refl|]. split; [reflexivity|].
      intros o _ [H|H]; rewrite H in Ef; [discriminate|].
      rewrite orb_true_r in Ef. discriminate. }
  assert (DictKeyExists d1 name = true) as Hn1.
  { rewrite (keys_exists d d1 name D1). unfold DictKeyExists.
    unfold odict in *. now rewrite E. }
  destruct (shared_key_loop_kept _ _ _ _ _ _ Hn1 El) as [K2 D2].
  cbn [fst]. split; [exact (refs_kept_trans _ _ _ K1 K2)|].
  split; [congruence|].
  intros k o Hr. apply refers_opt in Hr as (opt0 & Hget & Hopt).
  unfold odict in *. rewrite E in Hget. injection Hget as <-. split.
  - intros Hk. exact (undefined_reference_None d name opt k o Eu Hk Hopt).
  - intros -> Hflag. apply K2; [discriminate|]. apply R1; [exact Hopt|].
    destruct Hflag as [Hflag|Hflag]; [now left|right].
    unfold NestedDictKeyExists in Hflag. unfold odict in *.
    now rewrite E in Hflag.
Qed.

Lemma constraint_not_value k : In k elemSwConstraints -> k <> "value".
Proof.
  unfold elemSwConstraints. simpl.
  intros [<-|[<-|[<-|[]]]]; discriminate.
Qed.

Lemma process_elements_kept ctx keys names : forall d d',
  process_elements ctx keys names d = inr d' ->
  refs_kept d d' /\ DictKeys d' = DictKeys d /\
  forall x k o, In x names -> refers d x k o ->
    (In k elemSwConstraints -> DictKeyExists d o = true) /\
    (k = "require" ->
     HAS_GLOBAL_SWITCH ctx GLOBAL_SWITCH_RECIPROCAL = true \/
     NestedDictKeyExists d x "reciprocal" = true ->
     refers d' o "require" x).
Proof.
  induction names as [|n r IH]; intros d d'; cbn [process_elements].
  - intros [= <-]. split; [apply refs_kept_refl|]. split; [reflexivity|].
    intros x k o [].
  - destruct (process_element ctx keys n d) as [m|d1] eqn:Ee;
      [discriminate|].
    intros Hrest.
    destruct (process_element_kept _ _ _ _ _ Ee) as (K1 & D1 & S1).
    destruct (process_element_step _ _ _ _ _ Ee) as ((A1 & _) & _).
    destruct (IH _ _ Hrest) as (K2 & D2 & S2).
    split; [exact (refs_kept_trans _ _ _ K1 K2)|].
    split; [congruence|].
    intros x k o Hx Hr.
    destruct (String.eqb_spec x n) as [->|Hne].
    + destruct (S1 k o Hr) as [Hdef Hrec]. split; [exact Hdef|].
      intros Hk Hflag. apply K2; [discriminate|]. now apply Hrec.
    + destruct Hx as [Hx|Hx]; [congruence|]. split.
      * intros Hk. rewrite <- (keys_exists d d1 o D1).
        apply (S2 x k o Hx); [|exact Hk].
        apply K1; [now apply constraint_not_value|exact Hr].
      * intros -> Hflag.
        apply (S2 x "require" o Hx); [apply K1; [discriminate|exact Hr]
                                     |reflexivity|].
        destruct Hflag as [Hflag|Hflag]; [now left|right].
        rewrite NestedDictKeyExists_get in *.
        now rewrite A1 by discriminate.
Qed.

(** X17.  A definition whose constraints pass the check names defined
    elements only: every name in a [-require], [-forbid] or [-allow] list is
    the name of an element.  The processing of the constraints keeps the
    elements and their order. *)
Theorem constraint_references_defined ctx d d' :
  process_constraints ctx d = inr d' ->
  DictKeys d' = DictKeys d /\
  forall x k o, In k elemSwConstraints -> refers d x k o ->
    DictKeyExists d o = true.
Proof.
  unfold process_constraints. intros H.
  apply process_elements_kept in H as (_ & D & S).
  split; [exact D|]. intros x k o Hk Hr.
  apply (S x k o); [|exact Hr|exact Hk].
  destruct Hr as (l & Hl & _). apply GetNested_Some_key in Hl.
  now apply list_elem_of_In.
Qed.

(** X18.  With the global [-reciprocal] switch, or for an element that uses
    [-reciprocal], a requirement works both ways once the constraints are
    processed: the element that is required requires the element that
    requires it. *)
Theorem reciprocal_requirement_added ctx d d' a b :
  process_constraints ctx d = inr d' ->
  HAS_GLOBAL_SWITCH ctx GLOBAL_SWITCH_RECIPROCAL = true \/
  NestedDictKeyExists d a "reciprocal" = true ->
  refers d a "require" b ->
  refers d' a "require" b /\ refers d' b "require" a.
Proof.
  unfold process_constraints. intros H Hflag Hr.
  apply process_elements_kept in H as (K & _ & S).
  split; [apply K; [discriminate|exact Hr]|].
  apply (S a "require" b); [|exact Hr|reflexivity|exact Hflag].
  destruct Hr as (l & Hl & _). apply GetNested_Some_key in Hl.
  now apply list_elem_of_In.
Qed.

Lemma constraint_references_defined_witness :
  DictKeys example_requirement_processed = DictKeys example_requirement /\
  forall x k o, In k elemSwConstraints -> refers example_requirement x k o ->
    DictKeyExists example_requirement o = true.
Proof.
  apply (constraint_references_defined noGlobalSwitches).
  vm_compute. reflexivity.
Defined.

Lemma reciprocal_requirement_added_witness :
  refers example_requirement_processed "a" "require" "b" /\
  refers example_requirement_processed "b" "require" "a".
Proof.
  apply (reciprocal_requirement_added noGlobalSwitches example_requirement).
  - vm_compute. reflexivity.
  - right. vm_compute. reflexivity.
  - exists (TList [TStr "b"]). split; [reflexivity|]. simpl. now left.
Defined.

(** ** The name of a switch *)



(** ** Phrases *)

Lemma enum_fold x r : forall n acc,
  snd (fold_left
         (fun st e =>
            (S (fst st),
             snd st +:+ (if (0 <? fst st)%nat then ", " else "") +:+ e))
         (x :: r) (n, acc))
  = acc +:+ (if (0 <? n)%nat then ", " else "") +:+ String.concat ", " (x :: r).
Proof.
  revert x. induction r as [|y r IH]; intros x n acc.
  - reflexivity.
  - match goal with
    | |- context [fold_left ?f (x :: y :: r) ?a] =>
        change (fold_left f (x :: y :: r) a)
          with (fold_left f (y :: r) (f a x))
    end.
    cbn [fst snd]. rewrite (IH y (S n)).
    rewrite concat_cons. cbn [Nat.ltb Nat.leb].
    now rewrite !str_app_assoc.
Qed.

Lemma enum_head_join (l : list string) :
  enum_head l = JoinListWithSeparator (take (length l - 1) l) ", ".
Proof.
  unfold enum_head, JoinListWithSeparator, str_join.
  destruct (take (length l - 1) l) as [|x r]; [reflexivity|].
  rewrite enum_fold. cbn [Nat.ltb Nat.leb]. now rewrite !str_app_nil_l.
Qed.

(** X20.  For a list of two elements or more [EnumStrBuildObj] gives the
    phrase that [BuildAllowedTypesSummary] gives: the elements but the last
    separated by commas, then the word or and the last element.  A single
    element is given as it is and an empty list as the empty string. *)
Theorem EnumStrBuildObj_phrase (nameObj : string) (optDict : optdict)
    (v : tobj) :
  dict_get nameObj optDict = Some v ->
  EnumStrBuildObj nameObj optDict
  = Some (match map to_string (as_list v) with
          | [] => ""
          | [only] => only
          | valList => BuildAllowedTypesSummary valList
          end).
Proof.
  intros E. unfold EnumStrBuildObj. rewrite E. f_equal.
  destruct (map to_string (as_list v)) as [|a [|b [|c r]]]; try reflexivity.
  set (l := a :: b :: c :: r).
  change (3 <=? length l)%nat with true. cbn iota.
  unfold BuildAllowedTypesSummary. rewrite enum_head_join.
  rewrite ListRange_nonneg by lia. change (Z.to_nat 0) with 0%nat.
  rewrite drop_0.
  replace (Z.to_nat (Z.of_nat (length l) - 2 - 0 + 1))
    with (length l - 1)%nat by lia.
  reflexivity.
Qed.

Lemma EnumStrBuildObj_phrase_witness :
  EnumStrBuildObj "enum" [("enum", TList [TStr "a"; TStr "b"; TStr "c"])]
  = Some (BuildAllowedTypesSummary ["a"; "b"; "c"]).
Proof.
  apply (EnumStrBuildObj_phrase "enum"
           [("enum", TList [TStr "a"; TStr "b"; TStr "c"])]
           (TList [TStr "a"; TStr "b"; TStr "c"])).
  reflexivity.
Defined.

(** ** The order of the parameters *)

Lemma filter_all_negb {A} (f : A -> bool) (l : list A) :
  List.filter f l = [] -> List.filter (fun x => negb (f x)) l = l.
Proof.
  induction l as [|x l IH]; [reflexivity|]. cbn [List.filter].
  destruct (f x); [discriminate|]. cbn [negb]. intros H. now rewrite IH.
Qed.

Lemma filter_none_negb {A} (f : A -> bool) (l : list A) :
  List.filter (fun x => negb (f x)) l = [] -> List.filter f l = l.
Proof.
  induction l as [|x l IH]; [reflexivity|]. cbn [List.filter].
  destruct (f x); cbn [negb]; [|discriminate]. intros H. now rewrite IH.
Qed.

Lemma filter_partition_perm {A} (f : A -> bool) (l : list A) :
  List.filter f l ++ List.filter (fun x => negb (f x)) l ≡ₚ l.
Proof.
  induction l as [|x l IH]; [reflexivity|]. cbn [List.filter].
  destruct (f x); cbn [negb].
  - cbn [app]. now constructor.
  - rewrite <- Permutation_middle. now constructor.
Qed.

(** X21.  With [-pfirst] the required parameters are put before the others
    and each group keeps its order; no parameter is lost or added, and the
    number of required parameters is the same.  Without [-pfirst] the order
    is left as it is. *)
Theorem reorder_pfirst_stable ctx (d : odict optdict) (order : list string) :
  reorder_pfirst ctx d order
  = (if HAS_GLOBAL_SWITCH ctx GLOBAL_SWITCH_PFIRST
     then List.filter (fun n => NestedDictKeyExists d n "required") order ++
          List.filter (fun n => negb (NestedDictKeyExists d n "required"))
            order
     else order) /\
  reorder_pfirst ctx d order ≡ₚ order /\
  count_required d (reorder_pfirst ctx d order) = count_required d order.
Proof.
  assert (reorder_pfirst ctx d order
          = (if HAS_GLOBAL_SWITCH ctx GLOBAL_SWITCH_PFIRST
             then List.filter (fun n => NestedDictKeyExists d n "required")
                    order ++
                  List.filter
                    (fun n => negb (NestedDictKeyExists d n "required")) order
             else order)) as E.
  { unfold reorder_pfirst.
    destruct (HAS_GLOBAL_SWITCH ctx GLOBAL_SWITCH_PFIRST); [|reflexivity].
    destruct (List.filter (fun n => NestedDictKeyExists d n "required") order)
      as [|x r] eqn:Er;
      destruct (List.filter
                  (fun n => negb (NestedDictKeyExists d n "required")) order)
        as [|y s] eqn:Eo; cbn [length Nat.ltb Nat.leb andb app];
      try reflexivity.
    - apply filter_all_negb in Er. rewrite Eo in Er. now subst order.
    - now rewrite app_nil_r. }
  split; [exact E|].
  assert (reorder_pfirst ctx d order ≡ₚ order) as P.
  { rewrite E. destruct (HAS_GLOBAL_SWITCH ctx GLOBAL_SWITCH_PFIRST);
      [apply filter_partition_perm|reflexivity]. }
  split; [exact P|].
  unfold count_required. f_equal.
  rewrite E. destruct (HAS_GLOBAL_SWITCH ctx GLOBAL_SWITCH_PFIRST);
    [|reflexivity].
  rewrite List.filter_app, length_app.
  set (f := fun n => NestedDictKeyExists d n "required").
  assert (forall l, List.filter f (List.filter f l) = List.filter f l) as H1.
  { induction l as [|x l IH]; [reflexivity|]. cbn [List.filter].
    destruct (f x) eqn:Ef; [|exact IH]. cbn [List.filter]. rewrite Ef.
    now rewrite IH. }
  assert (forall l, List.filter f (List.filter (fun n => negb (f n)) l) = [])
    as H2.
  { induction l as [|x l IH]; [reflexivity|]. cbn [List.filter].
    destruct (f x) eqn:Ef; cbn [negb]; [exact IH|]. cbn [List.filter].
    rewrite Ef. exact IH. }
  rewrite H1, H2. cbn [length]. lia.
Qed.

(** ** The constraints between elements *)

Lemma first_some_all_None {A B} (f : A -> option B) l :
  (forall a, In a l -> f a = None) -> first_some f l = None.
Proof.
  induction l as [|a r IH]; intros H; [reflexivity|]. cbn [first_some].
  rewrite (H a) by now left. apply IH. intros a' Ha'. apply H. now right.
Qed.

Lemma unmet_None d opt condition wanted :
  unmet d opt condition wanted = None <->
  forall l o, dict_get condition opt = Some l ->
    In o (map to_string (as_list l)) ->
    NestedDictKeyExists d o "present" = wanted.
Proof.
  unfold unmet. destruct (dict_get condition opt) as [l|].
  - split.
    + intros Hf ? o [= <-] Hin. apply (find_none _ _ Hf) in Hin.
      apply negb_false_iff in Hin. now apply Bool.eqb_prop in Hin.
    + intros H. destruct (List.find _ _) as [o|] eqn:Ef; [|reflexivity].
      apply find_some in Ef as [Hin Hne]. rewrite (H l o eq_refl Hin) in Hne.
      now rewrite Bool.eqb_reflx in Hne.
  - split; [discriminate|reflexivity].
Qed.

(** X22.  The check of the constraints passes exactly when every element
    that is present has all the elements it requires present and none of
    those it forbids. *)
Theorem require_forbid_checked (d : odict optdict) :
  check_require_forbid d = inr tt <->
  forall name opt, In (name, opt) d -> DictKeyExists opt "present" = true ->
    (forall l o, dict_get "require" opt = Some l ->
       In o (map to_string (as_list l)) ->
       NestedDictKeyExists d o "present" = true) /\
    (forall l o, dict_get "forbid" opt = Some l ->
       In o (map to_string (as_list l)) ->
       NestedDictKeyExists d o "present" = false).
Proof.
  unfold check_require_forbid. split.
  - destruct (first_some (constraint_violation d) d) eqn:E; [discriminate|].
    intros _ name opt Hin Hp.
    apply (first_some_None _ _ E) in Hin. unfold constraint_violation in Hin.
    rewrite Hp in Hin.
    destruct (unmet d opt "require" true) eqn:Er; [discriminate|].
    destruct (unmet d opt "forbid" false) eqn:Ef; [discriminate|].
    split; [now apply unmet_None|now apply unmet_None].
  - intros H. rewrite first_some_all_None; [reflexivity|].
    intros [name opt] Hin. unfold constraint_violation.
    destruct (DictKeyExists opt "present") eqn:Hp; [|reflexivity].
    destruct (H name opt Hin Hp) as [Hr Hf].
    apply unmet_None in Hr. apply unmet_None in Hf. now rewrite Hr, Hf.
Qed.

(** X23.  The check of the [-allow] lists passes exactly when, for every
    element that is present and has such a list, every other element that is
    present is in the list. *)
Theorem allow_checked (d : odict optdict) :
  check_allow d = inr tt <->
  forall name opt allowedNames p popt,
    In (name, opt) d -> DictKeyExists opt "present" = true ->
    dict_get "allow" opt = Some allowedNames ->
    In (p, popt) d -> DictKeyExists popt "present" = true ->
    p <> name -> InList p (as_list allowedNames) = true.
Proof.
  unfold check_allow.
  set (presented := map fst (List.filter _ d)).
  assert (forall p, In p presented <->
            exists popt, In (p, popt) d /\
                         DictKeyExists popt "present" = true) as Hpres.
  { intros p. unfold presented. rewrite in_map_iff. split.
    - intros ([p' popt] & <- & Hin). apply filter_In in Hin as [Hin Hp].
      exists popt. auto.
    - intros (popt & Hin & Hp). exists (p, popt). split; [reflexivity|].
      apply filter_In. auto. }
  split.
  - destruct (first_some (allow_violation presented) d) eqn:E;
      [discriminate|].
    intros _ name opt allowedNames p popt Hin Hp Ha Hpin Hpp Hne.
    apply (first_some_None _ _ E) in Hin. unfold allow_violation in Hin.
    rewrite Hp, Ha in Hin.
    destruct (List.find _ presented) eqn:Ef; [discriminate|].
    assert (In p presented) as Hpi by (apply Hpres; eauto).
    apply (find_none _ _ Ef) in Hpi.
    apply String.eqb_neq in Hne. rewrite Hne in Hpi. cbn [negb andb] in Hpi.
    now apply negb_false_iff in Hpi.
  - intros H. rewrite first_some_all_None; [reflexivity|].
    intros [name opt] Hin. unfold allow_violation.
    destruct (DictKeyExists opt "present") eqn:Hp; [|reflexivity].
    destruct (dict_get "allow" opt) as [allowedNames|] eqn:Ha;
      [|reflexivity].
    destruct (List.find _ presented) as [p|] eqn:Ef; [|reflexivity].
    exfalso. apply find_some in Ef as [Hpi Hbad].
    apply Hpres in Hpi as (popt & Hpin & Hpp).
    apply andb_true_iff in Hbad as [Hne Hnot].
    apply negb_true_iff in Hne. apply String.eqb_neq in Hne.
    rewrite (H name opt allowedNames p popt Hin Hp Ha Hpin Hpp Hne) in Hnot.
    discriminate.
Qed.

(** ** Aliases *)

Lemma parse_element_aliases ctx a elem a' :
  parse_element ctx a elem = inr a' -> aliases_ok a -> aliases_ok a'.
Proof.
  intros H Hok.
  apply parse_element_inv in H
    as (name & opt & Hfresh & Heok & Hd' & _ & _ & _ & _ & _ & Hal).
  intros al n Hg. rewrite Hd'. apply Hal in Hg as [Hg|(-> & Hp & l & Hl & Hin)].
  - destruct (Hok al n Hg) as (opt0 & l & Hn & Hrest).
    exists opt0, l. split; [|exact Hrest].
    rewrite dict_get_put_ne; [exact Hn|].
    intros ->. unfold DictKeyExists in Hfresh. unfold odict in *.
    now rewrite Hn in Hfresh.
  - exists opt, l. rewrite dict_get_put_eq. split; [reflexivity|].
    split; [|auto]. destruct Heok as [Hs _]. unfold is_parameter in Hp.
    cbn [snd] in Hp. now rewrite Hs, Hp.
Qed.

Lemma parse_elements_aliases ctx elems : forall a a',
  parse_elements ctx a elems = inr a' -> aliases_ok a -> aliases_ok a'.
Proof.
  induction elems as [|e r IH]; intros a a' H Hok; cbn [parse_elements] in H.
  - now injection H as <-.
  - destruct (parse_element ctx a e) as [m|a1] eqn:Ee; [discriminate|].
    apply (IH _ _ H). exact (parse_element_aliases _ _ _ _ Ee Hok).
Qed.

(** X24.  In a definition that [ParseElementDefinitions] accepts, every
    alias of the alias map belongs to a switch of the definition, which
    lists it among its aliases; on the command line the alias is resolved to
    that switch. *)
Theorem parsed_definition_aliases ctx definition a al n :
  ParseElementDefinitions ctx definition InitArgumentDefinition = inr a ->
  dict_get al (aliasesDict a) = Some n ->
  (exists opt l, dict_get n (defDict a) = Some opt /\
                 DictKeyExists opt "switch" = true /\
                 dict_get "alias" opt = Some l /\
                 In al (map to_string (as_list l))) /\
  forall ctx' arg, resolve_switch ctx' a arg al = inr (n, "-" +:+ n).
Proof.
  unfold ParseElementDefinitions. intros H Hg.
  apply parse_elements_aliases in H; [|intros ? ? [=]].
  destruct (H al n Hg) as (opt & l & Hn & Hs & Hl & Hin).
  split; [eauto 10|].
  intros ctx' arg. unfold resolve_switch. rewrite Hg.
  unfold NestedDictKeyExists. unfold odict in *. now rewrite Hn, Hs.
Qed.

Lemma parsed_definition_aliases_witness :
  (exists opt l, dict_get "force" (defDict example_alias_definition)
                 = Some opt /\
                 DictKeyExists opt "switch" = true /\
                 dict_get "alias" opt = Some l /\
                 In "f" (map to_string (as_list l))) /\
  forall ctx' arg,
    resolve_switch ctx' example_alias_definition arg "f"
    = inr ("force", "-" +:+ "force").
Proof.
  apply (parsed_definition_aliases noGlobalSwitches [TStr "-f|force"]).
  - vm_compute. reflexivity.
  - reflexivity.
Defined.

(** ** The key of the cache *)

Lemma switches_key_level_pass (l p : string) :
  GenerateGlobalSwitchesKey (with_level_pass l p)
  = "1088:level=" +:+ l +:+ ";pass=" +:+ p +:+ ";".
Proof.
  unfold GenerateGlobalSwitchesKey, with_level_pass.
  cbv -[String.append].
  repeat first [ rewrite str_app_cons | rewrite str_app_nil_l
               | rewrite str_app_nil_r | rewrite str_app_assoc ].
  reflexivity.
Qed.

(** X25.  The key under which a parsed definition is cached does not tell
    apart every two settings of the global switches, since an argument that
    holds a semicolon reads as the end of an entry: with [-level x;pass=y
    -pass z] and with [-level x -pass y;pass=z] the key is the same, and the
    definition cached for the one is used for the other. *)
Theorem switches_key_collision (x y z : string) :
  GenerateGlobalSwitchesKey (with_level_pass (x +:+ ";pass=" +:+ y) z)
  = GenerateGlobalSwitchesKey (with_level_pass x (y +:+ ";pass=" +:+ z)) /\
  forall interpCtx definition a,
    argDefHashTable interpCtx
      !! cache_key definition (with_level_pass (x +:+ ";pass=" +:+ y) z)
    = Some a ->
    cached_definition interpCtx definition
      (with_level_pass x (y +:+ ";pass=" +:+ z))
    = (interpCtx, inr a).
Proof.
  assert (GenerateGlobalSwitchesKey (with_level_pass (x +:+ ";pass=" +:+ y) z)
          = GenerateGlobalSwitchesKey
              (with_level_pass x (y +:+ ";pass=" +:+ z))) as E.
  { rewrite !switches_key_level_pass.
    repeat first [ rewrite str_app_cons | rewrite str_app_nil_l
                 | rewrite str_app_assoc ].
    reflexivity. }
  split; [exact E|].
  intros interpCtx definition a H. unfold cached_definition, cache_key in *.
  rewrite <- E. now rewrite H.
Qed.
